(** * A shallow embedding of the light-fx add-on (color_manager.py,
    effect_engine.py, light_manager.py) and proofs of its specification.

    Numbers: Python floats are modelled by exact rationals [Q]; Python ints
    by [Z] (list indices by [nat]).  The colour path of color_manager.py is
    also transcribed over binary64 floats (module [Binary64]), where the
    rounding of Python's float arithmetic matters.  The [colour.Color] objects of the
    external [colour] library are modelled by their RGB components
    ([Color.red], [Color.green], [Color.blue], each in [0,1]); the
    [colorsys] conversions of the Python standard library are transcribed
    from their source. *)

From Stdlib Require Import QArith Qround Qabs ZArith Lia Lqa List String Bool Sorted.
From Stdlib Require Floats.
Import ListNotations.

Local Set Warnings "-register-all".

Open Scope Q_scope.

(** ** Python helpers *)

(** Strict comparison of rationals as a boolean ([a < b]). *)
Definition Qltb (a b : Q) : bool := negb (Qle_bool b a).

(** [int(x)] on a float: truncation toward zero. *)
Definition py_int (x : Q) : Z :=
  if Qltb x 0 then (- Qfloor (- x))%Z else Qfloor x.

(** [x % m] on floats for a positive divisor [m]: the result has the sign of
    [m] (floor modulo). *)
Definition py_fmod (x m : Q) : Q := x - m * inject_Z (Qfloor (x / m)).

(** Python exceptions that the modelled code can raise. *)
Inductive py_exc :=
  | ValueError
  | KeyError
  | IndexError
  | AttributeError
  | TypeError
  | CancelledError
  | ControllerError.

(** The result of a Python call: a value, or a raised exception. *)
Inductive outcome (A : Type) :=
  | Returns (a : A)
  | Raises (e : py_exc).
Arguments Returns {A} a.
Arguments Raises {A} e.

(** A Python [dict] with string keys: an association list in insertion
    order; assigning an existing key replaces its value in place. *)
Definition dict (V : Type) := list (string * V).

Fixpoint dict_get {V} (k : string) (d : dict V) : option V :=
  match d with
  | [] => None
  | (k', v) :: d' => if String.eqb k k' then Some v else dict_get k d'
  end.

Fixpoint dict_set {V} (k : string) (v : V) (d : dict V) : dict V :=
  match d with
  | [] => [(k, v)]
  | (k', v') :: d' =>
      if String.eqb k k' then (k', v) :: d' else (k', v') :: dict_set k v d'
  end.

Fixpoint dict_del {V} (k : string) (d : dict V) : dict V :=
  match d with
  | [] => []
  | (k', v') :: d' => if String.eqb k k' then d' else (k', v') :: dict_del k d'
  end.

(** ** colour.Color and colorsys *)

Record Color := mkColor { red : Q; green : Q; blue : Q }.

(** Componentwise equality of colors (rationals compared with [==]). *)
Definition color_eq (c1 c2 : Color) : Prop :=
  red c1 == red c2 /\ green c1 == green c2 /\ blue c1 == blue c2.

(** [max(a, b, c)] and [min(a, b, c)]: the first extreme element wins. *)
Definition py_max3 (a b c : Q) : Q :=
  let m := if Qltb a b then b else a in if Qltb m c then c else m.
Definition py_min3 (a b c : Q) : Q :=
  let m := if Qltb b a then b else a in if Qltb c m then c else m.

(** [colorsys.rgb_to_hsv]. *)
Definition rgb_to_hsv (r g b : Q) : Q * Q * Q :=
  let maxc := py_max3 r g b in
  let minc := py_min3 r g b in
  let rangec := maxc - minc in
  let v := maxc in
  if Qeq_bool minc maxc then (0, 0, v) else
  let s := rangec / maxc in
  let rc := (maxc - r) / rangec in
  let gc := (maxc - g) / rangec in
  let bc := (maxc - b) / rangec in
  let h := if Qeq_bool r maxc then bc - gc
           else if Qeq_bool g maxc then 2 + rc - bc
           else 4 + gc - rc in
  (py_fmod (h / 6) 1, s, v).

(** [colorsys.hsv_to_rgb]. *)
Definition hsv_to_rgb (h s v : Q) : Q * Q * Q :=
  if Qeq_bool s 0 then (v, v, v) else
  let i := py_int (h * 6) in
  let f := h * 6 - inject_Z i in
  let p := v * (1 - s) in
  let q := v * (1 - s * f) in
  let t := v * (1 - s * (1 - f)) in
  match (i mod 6)%Z with
  | 0%Z => (v, t, p)
  | 1%Z => (q, v, p)
  | 2%Z => (p, v, t)
  | 3%Z => (p, q, v)
  | 4%Z => (t, p, v)
  | _ => (v, p, q)
  end.

(** ** color_manager.py *)

Record ColorPoint := mkColorPoint { cp_color : Color; position : Q }.

Record Palette := mkPalette {
  pal_name : string;
  colors : list ColorPoint;
  type : string;
  parameters : option (dict Z)
}.

(** [ColorManager._interpolate_hue]. *)
Definition interpolate_hue (h1 h2 ratio : Q) : Q :=
  let diff := h2 - h1 in
  let h2 := if Qltb (1 # 2) diff then h2 - 1
            else if Qltb diff (- (1 # 2)) then h2 + 1
            else h2 in
  let h := h1 + (h2 - h1) * ratio in
  if Qltb h 0 then h + 1
  else if Qltb 1 h then h - 1
  else h.

(** [ColorManager._interpolate_color]. *)
Definition interpolate_color (color1 color2 : Color) (ratio : Q) : Color :=
  let '(h1, s1, v1) := rgb_to_hsv (red color1) (green color1) (blue color1) in
  let '(h2, s2, v2) := rgb_to_hsv (red color2) (green color2) (blue color2) in
  let h := interpolate_hue h1 h2 ratio in
  let s := s1 + (s2 - s1) * ratio in
  let v := v1 + (v2 - v1) * ratio in
  let '(r, g, b) := hsv_to_rgb h s v in
  mkColor r g b.

(** [min(colors, key=lambda x: abs(x.position - position))]: the first
    element with the least key. *)
Fixpoint min_by_distance (pos : Q) (best : ColorPoint) (l : list ColorPoint)
  : ColorPoint :=
  match l with
  | [] => best
  | x :: l' =>
      if Qltb (Qabs (position x - pos)) (Qabs (position best - pos))
      then min_by_distance pos x l'
      else min_by_distance pos best l'
  end.

(** [sorted(colors, key=lambda x: x.position)]: a stable insertion sort. *)
Fixpoint insert_by_position (c : ColorPoint) (l : list ColorPoint) :=
  match l with
  | [] => [c]
  | d :: l' =>
      if Qle_bool (position c) (position d) then c :: l
      else d :: insert_by_position c l'
  end.

Fixpoint sort_by_position (l : list ColorPoint) : list ColorPoint :=
  match l with
  | [] => []
  | c :: l' => insert_by_position c (sort_by_position l')
  end.

(** The [for i in range(len(colors) - 1)] loop of the gradient branch
    (lines 119-128): [pos] is the parameter [position] and [position c] the
    attribute [c.position]; [None] when no pair of neighbouring stops
    surrounds [pos] and the loop ends without returning. *)
Fixpoint gradient_scan (pos : Q) (cs : list ColorPoint) : option Color :=
  match cs with
  | c1 :: ((c2 :: _) as rest) =>
      (* if colors[i].position <= position <= colors[i + 1].position: *)
      if Qle_bool (position c1) pos && Qle_bool pos (position c2) then
        (* range_size = c2.position - c1.position *)
        let range_size := position c2 - position c1 in
        (* if range_size == 0: return c1.color *)
        if Qeq_bool range_size 0 then Some (cp_color c1)
        (* return self._interpolate_color(c1.color, c2.color,
                                          (position - c1.position) / range_size) *)
        else Some (interpolate_color (cp_color c1) (cp_color c2)
                     ((pos - position c1) / range_size))
      else gradient_scan pos rest
  | _ => None
  end.

(** [colors[-1]]: the last element, [None] (IndexError) when empty. *)
Fixpoint last_opt {A} (l : list A) : option A :=
  match l with
  | [] => None
  | [x] => Some x
  | _ :: l' => last_opt l'
  end.

(** [ColorManager.get_color_at_position]; [pos] is the parameter
    [position]; [Returns None] is the implicit [None] of a palette whose
    type is neither ["static"] nor ["gradient"]. *)
Definition get_color_at_position (palettes : dict Palette) (palette_name : string)
  (pos : Q) : outcome (option Color) :=
  (* palette = self.palettes.get(palette_name); if not palette: raise ValueError *)
  match dict_get palette_name palettes with
  | None => Raises ValueError
  | Some palette =>
      if String.eqb (type palette) "static" then
        (* min(palette.colors, key=...): ValueError on an empty list *)
        match colors palette with
        | [] => Raises ValueError
        | c :: l => Returns (Some (cp_color (min_by_distance pos c l)))
        end
      else if String.eqb (type palette) "gradient" then
        (* colors = sorted(palette.colors, key=lambda x: x.position) *)
        let cs := sort_by_position (colors palette) in
        match gradient_scan pos cs with
        | Some c => Returns (Some c)
        | None =>
            (* return colors[-1].color if position > colors[-1].position
                      else colors[0].color;
               [last] is colors[-1] and [first] is colors[0], IndexError
               when [colors] is empty *)
            match last_opt cs, cs with
            | Some last, first :: _ =>
                Returns (Some (if Qltb (position last) pos then cp_color last
                               else cp_color first))
            | _, _ => Raises IndexError
            end
        end
      else Returns None
  end.

(** [min(r, g, b)] on ints: the first least element. *)
Definition py_min3_Z (a b c : Z) : Z :=
  let m := if (b <? a)%Z then b else a in if (c <? m)%Z then c else m.

(** [ColorManager.rgb_to_rgbw]. *)
Definition rgb_to_rgbw (rgb : Z * Z * Z) : Z * Z * Z * Z :=
  let '(r, g, b) := rgb in
  let w := py_min3_Z r g b in
  if (w >? 0)%Z then (r - w, g - w, b - w, w)%Z else (r, g, b, w).

(** [ColorManager.rgb_to_rgbww]; [ratio] is a float. *)
Definition rgb_to_rgbww (rgb : Z * Z * Z) (color_temp : Z) : Z * Z * Z * Z * Z :=
  let '(r, g, b) := rgb in
  let w := py_min3_Z r g b in
  let total_white := w in
  let '(cw, ww) :=
    if (color_temp >=? 6500)%Z then (total_white, 0%Z)
    else if (color_temp <=? 2700)%Z then (0%Z, total_white)
    else
      let ratio := inject_Z (color_temp - 2700) / inject_Z (6500 - 2700) in
      let cw := py_int (inject_Z total_white * ratio) in
      (cw, (total_white - cw)%Z) in
  if (w >? 0)%Z then (r - w, g - w, b - w, cw, ww)%Z else (r, g, b, cw, ww).

(** Named colors of the [colour] library (W3C names; a hex byte [x] is the
    component [x/255]). *)
Definition byte (x : Z) : Q := inject_Z x / 255.
Definition col_red := mkColor 1 0 0.
Definition col_orange := mkColor 1 (byte 165) 0.
Definition col_yellow := mkColor 1 1 0.
Definition col_green := mkColor 0 (byte 128) 0.
Definition col_blue := mkColor 0 0 1.
Definition col_indigo := mkColor (byte 75) 0 (byte 130).
Definition col_violet := mkColor (byte 238) (byte 130) (byte 238).

(** [ColorManager._init_default_palettes]. *)
Definition rainbow : Palette :=
  mkPalette "rainbow"
    [ mkColorPoint col_red 0;
      mkColorPoint col_orange (166 # 10);
      mkColorPoint col_yellow (333 # 10);
      mkColorPoint col_green 50;
      mkColorPoint col_blue (666 # 10);
      mkColorPoint col_indigo (833 # 10);
      mkColorPoint col_violet 100 ]
    "gradient" None.

Definition fire : Palette :=
  mkPalette "fire"
    [ mkColorPoint (mkColor 1 0 0) 0;
      mkColorPoint (mkColor 1 (byte 136) 0) 50;
      mkColorPoint (mkColor 1 1 0) 100 ]
    "dynamic" (Some [("variation"%string, 20%Z)]).

(** The [palettes] dict of a fresh [ColorManager]. *)
Definition default_palettes : dict Palette :=
  [("rainbow"%string, rainbow); ("fire"%string, fire)].

(** ** color_manager.py in binary64 floating point

    The colour path of [ColorManager] transcribed a second time, over
    Rocq's primitive binary64 floats ([float]), whose [+ - * /] and
    comparisons are those of IEEE 754 with rounding to nearest, as for
    Python floats. The rational model above is exact; this one keeps the
    rounding of every operation. A result [None] means that the call
    raises. *)

Module Binary64.

Import Floats.
Local Open Scope float_scope.

Local Notation "x <-o m ;; k" := (match m with Some x => k | None => None end)
  (at level 61, m at next level, right associativity).

(** A [colour.Color], by its RGB components. *)
Record Color := mkColor { red : float; green : float; blue : float }.

Record ColorPoint := mkColorPoint { cp_color : Color; position : float }.

Record Palette := mkPalette {
  pal_name : string;
  colors : list ColorPoint;
  type : string;
  parameters : option (dict Z)
}.

(** Python [x / y] on floats: [ZeroDivisionError] when [y == 0]. *)
Definition py_div (x y : float) : option float :=
  if y =? 0 then None else Some (x / y).

(** [max(a, b, c)] and [min(a, b, c)]: a later element replaces the current
    one only when it is [>] (resp. [<]). *)
Definition py_max3 (a b c : float) : float :=
  let m := if a <? b then b else a in if m <? c then c else m.
Definition py_min3 (a b c : float) : float :=
  let m := if b <? a then b else a in if c <? m then c else m.

(** [2 ** 52]: from there on every float is an integer. *)
Definition two52 : float := 4503599627370496.

(** C's [trunc] on [0 <= x < 2 ** 52]: [x + 2 ** 52] rounds [x] to an
    integer, which is lowered by one when it rounded up. *)
Definition trunc_small (x : float) : float :=
  let t := (x + two52) - two52 in if x <? t then t - 1 else t.

(** C's [trunc]: rounding toward zero. *)
Definition py_trunc (x : float) : float :=
  if negb (abs x <? two52) then x
  else if x <? 0 then - trunc_small (- x) else trunc_small x.

(** C's [fmod(x, 1.0)], which is exact: [x - trunc(x)], NaN for an
    infinite or NaN [x]. *)
Definition fmod1 (x : float) : float :=
  if is_nan x || is_infinity x then nan else x - py_trunc x.

(** Python's [x % 1.0] ([float_rem]): [mod = fmod(x, 1.0)]; a non-zero
    [mod] of the other sign than [1.0] gets [1.0] added; a zero one becomes
    [copysign(0.0, 1.0)]. *)
Definition py_mod1 (x : float) : float :=
  let m := fmod1 x in
  if negb (m =? 0) then (if m <? 0 then m + 1 else m) else 0.

(** The value of a float that is an integer, as a Python int. *)
Definition float_int_to_Z (x : float) : Z :=
  match Prim2SF x with
  | SpecFloat.S754_finite s m e =>
      let z := Z.shiftl (Zpos m) e in if s then (- z)%Z else z
  | _ => 0%Z
  end.

(** [int(x)]: truncation toward zero; [OverflowError] or [ValueError] for
    an infinite or NaN [x]. *)
Definition py_int (x : float) : option Z :=
  if is_nan x || is_infinity x then None else Some (float_int_to_Z (py_trunc x)).

(** [colorsys.rgb_to_hsv]. *)
Definition rgb_to_hsv (r g b : float) : option (float * float * float) :=
  let maxc := py_max3 r g b in
  let minc := py_min3 r g b in
  let rangec := maxc - minc in
  let v := maxc in
  if minc =? maxc then Some (0, 0, v) else
  s <-o py_div rangec maxc ;;
  rc <-o py_div (maxc - r) rangec ;;
  gc <-o py_div (maxc - g) rangec ;;
  bc <-o py_div (maxc - b) rangec ;;
  let h := if r =? maxc then bc - gc
           else if g =? maxc then 2 + rc - bc
           else 4 + gc - rc in
  Some (py_mod1 (h / 6), s, v).

(** [colorsys.hsv_to_rgb]; [f = (h*6.0) - i] subtracts [float(i)], which
    is [trunc(h*6.0)] exactly. *)
Definition hsv_to_rgb (h s v : float) : option (float * float * float) :=
  if s =? 0 then Some (v, v, v) else
  i <-o py_int (h * 6) ;;
  let f := (h * 6) - py_trunc (h * 6) in
  let p := v * (1 - s) in
  let q := v * (1 - s * f) in
  let t := v * (1 - s * (1 - f)) in
  match (i mod 6)%Z with
  | 0%Z => Some (v, t, p)
  | 1%Z => Some (q, v, p)
  | 2%Z => Some (p, v, t)
  | 3%Z => Some (p, q, v)
  | 4%Z => Some (t, p, v)
  | _ => Some (v, p, q)
  end.

(** [ColorManager._interpolate_hue]. *)
Definition interpolate_hue (h1 h2 ratio : float) : float :=
  let diff := h2 - h1 in
  let h2 := if 0.5 <? diff then h2 - 1
            else if diff <? - 0.5 then h2 + 1
            else h2 in
  let h := h1 + (h2 - h1) * ratio in
  if h <? 0 then h + 1
  else if 1 <? h then h - 1
  else h.

(** [ColorManager._interpolate_color]; [Color(rgb=rgb)] is the color with
    the components [rgb]. *)
Definition interpolate_color (color1 color2 : Color) (ratio : float) : option Color :=
  hsv1 <-o rgb_to_hsv (red color1) (green color1) (blue color1) ;;
  hsv2 <-o rgb_to_hsv (red color2) (green color2) (blue color2) ;;
  let '(h1, s1, v1) := hsv1 in
  let '(h2, s2, v2) := hsv2 in
  let h := interpolate_hue h1 h2 ratio in
  let s := s1 + (s2 - s1) * ratio in
  let v := v1 + (v2 - v1) * ratio in
  rgb <-o hsv_to_rgb h s v ;;
  let '(r, g, b) := rgb in
  Some (mkColor r g b).

(** [min(colors, key=lambda x: abs(x.position - position))]. *)
Fixpoint min_by_distance (pos : float) (best : ColorPoint) (l : list ColorPoint)
  : ColorPoint :=
  match l with
  | [] => best
  | x :: l' =>
      if abs (position x - pos) <? abs (position best - pos)
      then min_by_distance pos x l'
      else min_by_distance pos best l'
  end.

(** [sorted(colors, key=lambda x: x.position)], stable, comparing with
    [<]; it is the order Python's sort gives when no position is NaN. *)
Fixpoint insert_by_position (c : ColorPoint) (l : list ColorPoint) :=
  match l with
  | [] => [c]
  | d :: l' =>
      if position d <? position c then d :: insert_by_position c l'
      else c :: l
  end.

Fixpoint sort_by_position (l : list ColorPoint) : list ColorPoint :=
  match l with
  | [] => []
  | c :: l' => insert_by_position c (sort_by_position l')
  end.

(** The [for i in range(len(colors) - 1)] loop: [Some (Some c)] when it
    returns [c], [Some None] when it ends without returning, [None] when
    it raises. *)
Fixpoint gradient_scan (pos : float) (cs : list ColorPoint) : option (option Color) :=
  match cs with
  | c1 :: ((c2 :: _) as rest) =>
      if (position c1 <=? pos) && (pos <=? position c2) then
        let range_size := position c2 - position c1 in
        if range_size =? 0 then Some (Some (cp_color c1))
        else
          ratio <-o py_div (pos - position c1) range_size ;;
          c <-o interpolate_color (cp_color c1) (cp_color c2) ratio ;;
          Some (Some c)
      else gradient_scan pos rest
  | _ => Some None
  end.

(** [ColorManager.get_color_at_position]: [Some (Some c)] returns [c],
    [Some None] returns [None] (a palette neither static nor gradient),
    [None] raises. *)
Definition get_color_at_position (palettes : dict Palette) (palette_name : string)
  (pos : float) : option (option Color) :=
  match dict_get palette_name palettes with
  | None => None
  | Some palette =>
      if String.eqb (type palette) "static" then
        match colors palette with
        | [] => None
        | c :: l => Some (Some (cp_color (min_by_distance pos c l)))
        end
      else if String.eqb (type palette) "gradient" then
        let cs := sort_by_position (colors palette) in
        r <-o gradient_scan pos cs ;;
        match r with
        | Some c => Some (Some c)
        | None =>
            match last_opt cs, cs with
            | Some last, first :: _ =>
                Some (Some (if position last <? pos then cp_color last else cp_color first))
            | _, _ => None
            end
        end
      else Some None
  end.

End Binary64.

(** ** effect_engine.py: effects *)

(** [EffectConfig] (a dataclass; its fields take any int / str / bool). *)
Record EffectConfig := mkEffectConfig {
  speed : Z;
  intensity : Z;
  palette_name : string;
  reverse : bool;
  mirror : bool
}.

Definition default_config : EffectConfig := mkEffectConfig 50 100 "rainbow" false false.

(** A frame: [updates[light_id] = {"rgb_color": rgb}], keyed by light id;
    the value stored is the [rgb_color] list. *)
Definition frame := dict (list Z).

(** [[int(c * config.intensity / 100) for c in [color.red * 255, ...]]]. *)
Definition scale_rgb (intens : Z) (color : Color) : list Z :=
  map (fun c => py_int (c * inject_Z intens / 100))
    [red color * 255; green color * 255; blue color * 255].

(** [i / num_lights] for list indices. *)
Definition qdiv_nat (i n : nat) : Q := inject_Z (Z.of_nat i) / inject_Z (Z.of_nat n).

(** The palette position of light [i] in [RainbowEffect.generate_frame],
    [time_offset] being [(time.time() - self._start_time) * speed_factor]. *)
Definition rainbow_pos (config : EffectConfig) (num_lights i : nat) (time_offset : Q) : Q :=
  let pos := py_fmod (qdiv_nat i num_lights * 100 + time_offset * 20) 100 in
  if reverse config then 100 - pos else pos.

(** The [for i, light_id in enumerate(sequence.light_ids)] loop of
    [RainbowEffect.generate_frame]. *)
Fixpoint rainbow_loop (palettes : dict Palette) (config : EffectConfig)
  (light_ids : list string) (num_lights : nat) (time_offset : Q)
  (i : nat) (todo : list string) (updates : frame) : outcome frame :=
  match todo with
  | [] => Returns updates
  | light_id :: todo' =>
      match get_color_at_position palettes "rainbow"
              (rainbow_pos config num_lights i time_offset) with
      | Raises e => Raises e
      | Returns None => Raises AttributeError
      | Returns (Some color) =>
          let updates := dict_set light_id (scale_rgb (intensity config) color) updates in
          if mirror config && (Nat.div num_lights 2 <=? i)%nat then
            match nth_error light_ids (num_lights - 1 - i), dict_get light_id updates with
            | Some mirror_id, Some u =>
                rainbow_loop palettes config light_ids num_lights time_offset (S i) todo'
                  (dict_set mirror_id u updates)
            | None, _ => Raises IndexError
            | _, None => Raises KeyError
            end
          else rainbow_loop palettes config light_ids num_lights time_offset (S i) todo' updates
      end
  end.

(** [RainbowEffect.generate_frame]; [elapsed] is [time.time() - self._start_time]. *)
Definition rainbow_generate_frame (palettes : dict Palette) (light_ids : list string)
  (config : EffectConfig) (elapsed : Q) : outcome frame :=
  let num_lights := List.length light_ids in
  let speed_factor := inject_Z (speed config) / 50 in
  let time_offset := elapsed * speed_factor in
  rainbow_loop palettes config light_ids num_lights time_offset 0 light_ids [].

(** [active_lights] of [ColorWipeEffect.generate_frame]. *)
Definition wipe_active_lights (config : EffectConfig) (num_lights : nat) (elapsed : Q) : Z :=
  let speed_factor := inject_Z (speed config) / 50 in
  let time_offset := elapsed * speed_factor in
  py_int (py_fmod (time_offset * 2) (inject_Z (Z.of_nat num_lights + 1))).

(** The loop of [ColorWipeEffect.generate_frame]. *)
Fixpoint wipe_loop (palettes : dict Palette) (config : EffectConfig)
  (num_lights : nat) (active_lights : Z) (i : nat) (todo : list string)
  (updates : frame) : outcome frame :=
  match todo with
  | [] => Returns updates
  | light_id :: todo' =>
      let j := if reverse config then (num_lights - 1 - i)%nat else i in
      if (Z.of_nat j <? active_lights)%Z then
        match get_color_at_position palettes (palette_name config)
                (qdiv_nat j num_lights * 100) with
        | Raises e => Raises e
        | Returns None => Raises AttributeError
        | Returns (Some color) =>
            wipe_loop palettes config num_lights active_lights (S i) todo'
              (dict_set light_id (scale_rgb (intensity config) color) updates)
        end
      else
        wipe_loop palettes config num_lights active_lights (S i) todo'
          (dict_set light_id [0; 0; 0]%Z updates)
  end.

(** [ColorWipeEffect.generate_frame]. *)
Definition wipe_generate_frame (palettes : dict Palette) (light_ids : list string)
  (config : EffectConfig) (elapsed : Q) : outcome frame :=
  let num_lights := List.length light_ids in
  let active_lights := wipe_active_lights config num_lights elapsed in
  match dict_get (palette_name config) palettes with
  | None => Raises KeyError
  | Some _ => wipe_loop palettes config num_lights active_lights 0 light_ids []
  end.

(** [random.random()] draws, numbered in the order the program makes them;
    [random.uniform(0, 100)] is [0 + (100 - 0) * random.random()]. *)
Definition Draws := nat -> Q.

Definition py_uniform (rnd : Draws) (k : nat) (a b : Q) : Q := a + (b - a) * rnd k.

(** The first loop of [TwinkleEffect.generate_frame]: a light not yet in
    [self._twinkle_states] gets the state [0]. *)
Fixpoint twinkle_init (light_ids : list string) (states : dict Q) : dict Q :=
  match light_ids with
  | [] => states
  | light_id :: rest =>
      twinkle_init rest
        (match dict_get light_id states with
         | None => dict_set light_id 0 states
         | Some _ => states
         end)
  end.

(** The second loop of [TwinkleEffect.generate_frame]. It threads the shared
    [_twinkle_states] dict and the index [k] of the next random draw, and
    returns them with the outcome: a raised exception keeps the updates made
    to the states before it. *)
Fixpoint twinkle_loop (palettes : dict Palette) (config : EffectConfig)
  (speed_factor : Q) (rnd : Draws) (todo : list string) (states : dict Q)
  (k : nat) (updates : frame) : dict Q * nat * outcome frame :=
  match todo with
  | [] => (states, k, Returns updates)
  | light_id :: todo' =>
      match dict_get light_id states with
      | None => (states, k, Raises KeyError)
      | Some st =>
          if Qeq_bool st 0 then
            if Qltb (rnd k) ((1 # 10) * speed_factor) then
              let states := dict_set light_id 1 states in
              match get_color_at_position palettes (palette_name config)
                      (py_uniform rnd (S k) 0 100) with
              | Raises e => (states, S (S k), Raises e)
              | Returns None => (states, S (S k), Raises AttributeError)
              | Returns (Some color) =>
                  twinkle_loop palettes config speed_factor rnd todo' states (S (S k))
                    (dict_set light_id (scale_rgb (intensity config) color) updates)
              end
            else
              twinkle_loop palettes config speed_factor rnd todo' states (S k)
                (dict_set light_id [0; 0; 0]%Z updates)
          else
            let st' := st - (1 # 10) * speed_factor in
            let states := dict_set light_id st' states in
            if Qle_bool st' 0 then
              twinkle_loop palettes config speed_factor rnd todo'
                (dict_set light_id 0 states) k (dict_set light_id [0; 0; 0]%Z updates)
            else
              match get_color_at_position palettes (palette_name config)
                      (py_uniform rnd k 0 100) with
              | Raises e => (states, S k, Raises e)
              | Returns None => (states, S k, Raises AttributeError)
              | Returns (Some color) =>
                  let intens := st' * inject_Z (intensity config) / 100 in
                  twinkle_loop palettes config speed_factor rnd todo' states (S k)
                    (dict_set light_id
                       (map (fun c => py_int (c * intens))
                          [red color * 255; green color * 255; blue color * 255])
                       updates)
              end
      end
  end.

(** [TwinkleEffect.generate_frame] from the shared states and the index of
    the next random draw. *)
Definition twinkle_generate_frame (palettes : dict Palette) (light_ids : list string)
  (config : EffectConfig) (rnd : Draws) (states : dict Q) (k : nat)
  : dict Q * nat * outcome frame :=
  let speed_factor := inject_Z (speed config) / 50 in
  let states := twinkle_init light_ids states in
  twinkle_loop palettes config speed_factor rnd light_ids states k [].

(** ** light_manager.py *)

(** JSON values returned by the controller's REST API. *)
Inductive json :=
  | JNull
  | JBool (b : bool)
  | JNum (q : Q)
  | JStr (s : string)
  | JList (l : list json)
  | JObj (fields : dict json).

Definition obind {A B} (m : outcome A) (k : A -> outcome B) : outcome B :=
  match m with Returns a => k a | Raises e => Raises e end.

Declare Scope outcome_scope.
Notation "x <-? m ;; k" := (obind m (fun x => k))
  (at level 61, m at next level, right associativity) : outcome_scope.
Open Scope outcome_scope.

(** [obj.get(key, default)]: only dicts have [.get]. *)
Definition py_get (key : string) (obj : json) (default : json) : outcome json :=
  match obj with
  | JObj fields => Returns (match dict_get key fields with Some v => v | None => default end)
  | _ => Raises AttributeError
  end.

(** [key in obj] for a string [key]. *)
Definition py_in (key : string) (obj : json) : outcome bool :=
  match obj with
  | JList l => Returns (existsb (fun j => match j with JStr s => String.eqb s key | _ => false end) l)
  | JObj fields => Returns (match dict_get key fields with Some _ => true | None => false end)
  | JStr s => Returns (match String.index 0 key s with Some _ => true | None => false end)
  | _ => Raises TypeError
  end.

(** [tuple(obj)]. *)
Definition py_tuple (obj : json) : outcome (list json) :=
  match obj with
  | JList l => Returns l
  | JObj fields => Returns (map (fun kv => JStr (fst kv)) fields)
  | JStr s => Returns (map (fun c => JStr (String c EmptyString)) (list_ascii_of_string s))
  | _ => Raises TypeError
  end.

(** [LightCapabilities]; [None] attributes are [JNull]. *)
Record LightCapabilities := mkLightCapabilities {
  supports_rgb : bool;
  supports_rgbw : bool;
  supports_rgbww : bool;
  supports_color_temp : bool;
  min_mireds : json;
  max_mireds : json;
  supports_transition : bool;
  supports_brightness : bool
}.

(** [LightState]. *)
Record LightState := mkLightState {
  entity_id : string;
  state : json;
  brightness : json;
  rgb_color : option (list json);
  rgbw_color : option (list json);
  rgbww_color : option (list json);
  color_temp : json
}.

(** [LightSequence]. *)
Record LightSequence := mkLightSequence {
  seq_name : string;
  light_ids : list string;
  states : dict LightState;
  capabilities : dict LightCapabilities
}.

Definition new_sequence (name : string) (lights : list string) : LightSequence :=
  mkLightSequence name lights [] [].

(** The body of [_fetch_capabilities] after [get_state] returned [st]. *)
Definition parse_capabilities (st : json) : outcome LightCapabilities :=
  attributes <-? py_get "attributes" st (JObj []) ;;
  modes <-? py_get "supported_color_modes" attributes (JList []) ;;
  rgb <-? py_in "rgb_color" modes ;;
  modes <-? py_get "supported_color_modes" attributes (JList []) ;;
  rgbw <-? py_in "rgbw" modes ;;
  modes <-? py_get "supported_color_modes" attributes (JList []) ;;
  rgbww <-? py_in "rgbww" modes ;;
  modes <-? py_get "supported_color_modes" attributes (JList []) ;;
  ct <-? py_in "color_temp" modes ;;
  minm <-? py_get "min_mireds" attributes JNull ;;
  maxm <-? py_get "max_mireds" attributes JNull ;;
  tr <-? py_in "transition" attributes ;;
  br <-? py_in "brightness" attributes ;;
  Returns (mkLightCapabilities rgb rgbw rgbww ct minm maxm tr br).

(** [tuple(attributes[key]) if key in attributes else None]. *)
Definition opt_tuple (key : string) (attributes : json) : outcome (option (list json)) :=
  present <-? py_in key attributes ;;
  if present then
    v <-? py_get key attributes JNull ;;
    t <-? py_tuple v ;;
    Returns (Some t)
  else Returns None.

(** The body of [_fetch_state] after [get_state] returned [st]. *)
Definition parse_state (eid : string) (st : json) : outcome LightState :=
  attributes <-? py_get "attributes" st (JObj []) ;;
  s <-? py_get "state" st JNull ;;
  b <-? py_get "brightness" attributes JNull ;;
  rgb <-? opt_tuple "rgb_color" attributes ;;
  rgbw <-? opt_tuple "rgbw_color" attributes ;;
  rgbww <-? opt_tuple "rgbww_color" attributes ;;
  ct <-? py_get "color_temp" attributes JNull ;;
  Returns (mkLightState eid s b rgb rgbw rgbww ct).

(** The [LightManager] fields that the registry operations touch. *)
Record LightManager := mkLightManager {
  sequences : dict LightSequence;
  light_states : dict LightState
}.

(** The controller client seen by [LightManager]: the answer to the [k]-th
    [get_state] call, [None] when the call raises (HTTP status other than
    200, or a network error). *)
Definition StateApi := nat -> option json.

(** The registry's coroutines as a state-and-exception monad over the number
    of [get_state] calls made so far and the [LightManager]; an exception
    keeps the mutations done before it, as in Python. *)
Definition LM (A : Type) := nat * LightManager -> outcome A * (nat * LightManager).

Definition lm_ret {A} (a : A) : LM A := fun s => (Returns a, s).
Definition lm_raise {A} (e : py_exc) : LM A := fun s => (Raises e, s).
Definition lm_bind {A B} (m : LM A) (k : A -> LM B) : LM B :=
  fun s => match m s with
           | (Returns a, s') => k a s'
           | (Raises e, s') => (Raises e, s')
           end.
Definition lm_lift {A} (o : outcome A) : LM A := fun s => (o, s).
Definition lm_modify (f : LightManager -> LightManager) : LM unit :=
  fun '(k, lm) => (Returns tt, (k, f lm)).

Declare Scope lm_scope.
Notation "x <- m ;; k" := (lm_bind m (fun x => k))
  (at level 61, m at next level, right associativity) : lm_scope.
Open Scope lm_scope.

(** [await self.ha_api.get_state(entity_id)]. *)
Definition get_state (api : StateApi) (eid : string) : LM json :=
  fun '(k, lm) =>
    match api k with
    | Some j => (Returns j, (S k, lm))
    | None => (Raises ControllerError, (S k, lm))
    end.

(** [LightManager._fetch_capabilities]. *)
Definition fetch_capabilities (api : StateApi) (eid : string) (sequence : LightSequence)
  : LM LightSequence :=
  st <- get_state api eid ;;
  caps <- lm_lift (parse_capabilities st) ;;
  lm_ret (mkLightSequence (seq_name sequence) (light_ids sequence) (states sequence)
            (dict_set eid caps (capabilities sequence))).

(** [LightManager._fetch_state]. *)
Definition fetch_state (api : StateApi) (eid : string) (sequence : LightSequence)
  : LM LightSequence :=
  st <- get_state api eid ;;
  ls <- lm_lift (parse_state eid st) ;;
  _ <- lm_modify (fun lm => mkLightManager (sequences lm) (dict_set eid ls (light_states lm))) ;;
  lm_ret (mkLightSequence (seq_name sequence) (light_ids sequence)
            (dict_set eid ls (states sequence)) (capabilities sequence)).

(** The [for entity_id in light_ids] loop of [create_sequence]. *)
Fixpoint fetch_all (api : StateApi) (ids : list string) (sequence : LightSequence)
  : LM LightSequence :=
  match ids with
  | [] => lm_ret sequence
  | eid :: ids' =>
      sequence <- fetch_capabilities api eid sequence ;;
      sequence <- fetch_state api eid sequence ;;
      fetch_all api ids' sequence
  end.

(** [LightManager.create_sequence]. *)
Definition create_sequence (api : StateApi) (name : string) (ids : list string)
  : LM LightSequence :=
  sequence <- fetch_all api ids (new_sequence name ids) ;;
  _ <- lm_modify (fun lm => mkLightManager (dict_set name sequence (sequences lm))
                              (light_states lm)) ;;
  lm_ret sequence.

(** [LightManager.get_sequence]. *)
Definition get_sequence (lm : LightManager) (name : string) : option LightSequence :=
  dict_get name (sequences lm).

(** [entity_id in sequence.light_ids]. *)
Definition py_contains (x : string) (l : list string) : bool := existsb (String.eqb x) l.

Definition lm_get : LM LightManager := fun '(k, lm) => (Returns lm, (k, lm)).

(** The [for sequence in self.sequences.values()] loop of [update_light]:
    [_fetch_state] fills [sequence.states] of the sequence object held by
    [self.sequences]. *)
Fixpoint refresh_sequences (api : StateApi) (eid : string) (sqs : dict LightSequence)
  : LM unit :=
  match sqs with
  | [] => lm_ret tt
  | (name, sequence) :: rest =>
      if py_contains eid (light_ids sequence) then
        sequence <- fetch_state api eid sequence ;;
        _ <- lm_modify (fun lm => mkLightManager (dict_set name sequence (sequences lm))
                                    (light_states lm)) ;;
        refresh_sequences api eid rest
      else refresh_sequences api eid rest
  end.

(** [LightManager.update_light]; [service_ok] tells whether
    [ha_api.call_service('light', 'turn_on', ...)] returns (status 200) or
    raises. *)
Definition update_light (api : StateApi) (service_ok : bool) (eid : string) : LM unit :=
  _ <- (if service_ok then lm_ret tt else lm_raise ControllerError) ;;
  lm <- lm_get ;;
  refresh_sequences api eid (sequences lm).

(** ** effect_engine.py: the scheduler ([EffectEngine]) *)

(** The life of an [asyncio] task running [_run_effect]: [Cancelling] after
    [task.cancel()] until the task next resumes and raises [CancelledError];
    [Failed] once an exception other than cancellation (a failed
    [update_light]) escaped the loop. *)
Inductive task_status := Live | Cancelling | Cancelled | Failed.

Record Task := mkTask { task_id : nat; task_seq : string; status : task_status }.

(** Commands sent to the controller: a light update issued by the effect
    task [tid], or a [turn_off] of [turn_off_sequence]. *)
Inductive event :=
  | Frame (tid : nat) (light : string)
  | TurnOff (light : string).

(** The keys of [EffectEngine.effects]. *)
Definition effect_names : list string := ["rainbow"%string; "color_wipe"%string; "twinkle"%string].

Definition effect_known (e : string) : bool := existsb (String.eqb e) effect_names.

(** A [_running_effects] entry: [(effect, config, task)]. *)
Definition RunningEffect := (string * EffectConfig * nat)%type.

(** Where the one in-flight [start_effect] / [stop_effect] call stands.
    Service calls are served one at a time ([subscribe_to_events] awaits
    each callback before reading the next message, and [setup] awaits each
    call), so there is at most one. *)
Inductive caller :=
  | Idle
  | StartAwait (s e : string) (cfg : EffectConfig) (tid : nat)
  | StartTurnOff (s e : string) (cfg : EffectConfig)
  | StartInstall (s e : string) (cfg : EffectConfig)
  | StopAwait (s : string) (tid : nat)
  | StopTurnOff (s : string)
  | Finished (r : outcome unit).

Record Engine := mkEngine {
  running : dict RunningEffect;
  tasks : list Task;
  next_tid : nat;
  lm : LightManager;
  pc : caller;
  trace : list event   (* newest first *)
}.

Definition set_running (st : Engine) (r : dict RunningEffect) : Engine :=
  mkEngine r (tasks st) (next_tid st) (lm st) (pc st) (trace st).
Definition set_tasks (st : Engine) (ts : list Task) : Engine :=
  mkEngine (running st) ts (next_tid st) (lm st) (pc st) (trace st).
Definition set_pc (st : Engine) (c : caller) : Engine :=
  mkEngine (running st) (tasks st) (next_tid st) (lm st) c (trace st).
Definition set_trace (st : Engine) (tr : list event) : Engine :=
  mkEngine (running st) (tasks st) (next_tid st) (lm st) (pc st) tr.

Definition find_task (tid : nat) (ts : list Task) : option Task :=
  find (fun t => Nat.eqb (task_id t) tid) ts.

Definition set_status (tid : nat) (f : task_status -> task_status) (ts : list Task) : list Task :=
  map (fun t => if Nat.eqb (task_id t) tid then mkTask (task_id t) (task_seq t) (f (status t)) else t) ts.

(** [task.cancel()]: a no-op on a finished task. *)
Definition cancel_status (s : task_status) : task_status :=
  match s with Live => Cancelling | s => s end.

(** The synchronous prefix of [stop_effect] (up to the [await task]),
    continuing with [k] when no effect is recorded for [s]. *)
Definition stop_prefix (st : Engine) (s : string) (await_pc : nat -> caller) (k : caller)
  : Engine :=
  match dict_get s (running st) with
  | Some (_, _, tid) => set_pc (set_tasks st (set_status tid cancel_status (tasks st))) (await_pc tid)
  | None => set_pc st k
  end.

(** [start_effect(s, e, cfg)] called: [await self.stop_effect(s)] runs up
    to its first suspension. *)
Definition begin_start (st : Engine) (s e : string) (cfg : EffectConfig) : Engine :=
  stop_prefix st s (StartAwait s e cfg) (StartInstall s e cfg).

(** [stop_effect(s)] called. *)
Definition begin_stop (st : Engine) (s : string) : Engine :=
  stop_prefix st s (StopAwait s) (Finished (Returns tt)).

(** [await self.light_manager.turn_off_sequence(s)]: one [turn_off] command
    per light (a failing command is logged and skipped). *)
Definition turn_off_sequence (st : Engine) (s : string) (k : caller) : Engine :=
  match get_sequence (lm st) s with
  | None => set_pc st (Finished (Raises ValueError))
  | Some sq => set_pc (set_trace st (rev (map TurnOff (light_ids sq)) ++ trace st)) k
  end.

(** [await task] in [stop_effect], then [del self._running_effects[s]];
    blocked while the task has not finished; a task that died of another
    exception re-raises it here. *)
Definition await_task (st : Engine) (s : string) (tid : nat) (k : caller) : option Engine :=
  match find_task tid (tasks st) with
  | Some t =>
      match status t with
      | Cancelled =>
          match dict_get s (running st) with
          | Some _ => Some (set_pc (set_running st (dict_del s (running st))) k)
          | None => Some (set_pc st (Finished (Raises KeyError)))
          end
      | Failed => Some (set_pc st (Finished (Raises ControllerError)))
      | _ => None
      end
  | None => None
  end.

(** One step of the in-flight call, [None] while it is blocked on
    [await task] or when there is none. *)
Definition caller_step (st : Engine) : option Engine :=
  match pc st with
  | StartAwait s e cfg tid => await_task st s tid (StartTurnOff s e cfg)
  | StopAwait s tid => await_task st s tid (StopTurnOff s)
  | StartTurnOff s e cfg => Some (turn_off_sequence st s (StartInstall s e cfg))
  | StopTurnOff s => Some (turn_off_sequence st s (Finished (Returns tt)))
  | StartInstall s e cfg =>
      match get_sequence (lm st) s with
      | None => Some (set_pc st (Finished (Raises ValueError)))
      | Some _ =>
          if effect_known e then
            let tid := next_tid st in
            Some (mkEngine (dict_set s (e, cfg, tid) (running st))
                    (tasks st ++ [mkTask tid s Live]) (S tid) (lm st)
                    (Finished (Returns tt)) (trace st))
          else Some (set_pc st (Finished (Raises ValueError)))
      end
  | _ => None
  end.

Definition caller_idle (c : caller) : bool :=
  match c with Idle | Finished _ => true | _ => false end.

Definition set_lm (st : Engine) (l : LightManager) : Engine :=
  mkEngine (running st) (tasks st) (next_tid st) l (pc st) (trace st).

(** Steps of the effect tasks ([_run_effect]): a live task issues a light
    update of its current frame, or dies of a failed update; a cancelled
    task raises [CancelledError] when it resumes. *)
Inductive task_step : Engine -> Engine -> Prop :=
  | task_frame st t light :
      In t (tasks st) -> status t = Live ->
      task_step st (set_trace st (Frame (task_id t) light :: trace st))
  | task_fail st t :
      In t (tasks st) -> status t = Live ->
      task_step st (set_tasks st (set_status (task_id t) (fun _ => Failed) (tasks st)))
  | task_cancelled st t :
      In t (tasks st) -> status t = Cancelling ->
      task_step st (set_tasks st (set_status (task_id t) (fun _ => Cancelled) (tasks st))).

(** A new call: [start_effect] or [stop_effect] (from [setup] or
    [handle_service_call]), or [create_sequence] (from [setup]). *)
Inductive call_step : Engine -> Engine -> Prop :=
  | call_start st s e cfg :
      caller_idle (pc st) = true -> call_step st (begin_start st s e cfg)
  | call_stop st s :
      caller_idle (pc st) = true -> call_step st (begin_stop st s)
  | call_create st api k name ids r k' lm' :
      caller_idle (pc st) = true ->
      create_sequence api name ids (k, lm st) = (r, (k', lm')) ->
      call_step st (set_lm st lm').

(** Steps that do not begin a new call. *)
Inductive run_step (st st' : Engine) : Prop :=
  | run_task : task_step st st' -> run_step st st'
  | run_caller : caller_step st = Some st' -> run_step st st'.

Inductive engine_step (st st' : Engine) : Prop :=
  | step_run : run_step st st' -> engine_step st st'
  | step_call : call_step st st' -> engine_step st st'.

Inductive run_steps : Engine -> Engine -> Prop :=
  | run_refl st : run_steps st st
  | run_trans st st' st'' : run_step st st' -> run_steps st' st'' -> run_steps st st''.

(** A fresh [EffectEngine] over a fresh [LightManager]. *)
Definition init_engine : Engine := mkEngine [] [] 0 (mkLightManager [] []) Idle [].

Inductive reachable : Engine -> Prop :=
  | reach_init : reachable init_engine
  | reach_step st st' : reachable st -> engine_step st st' -> reachable st'.

(** The [config] object of a [start_effect] service call; [rq_unknown]
    lists keys that are not fields of [EffectConfig]. *)
Record ConfigRequest := mkConfigRequest {
  rq_speed : option Z;
  rq_intensity : option Z;
  rq_palette_name : option string;
  rq_reverse : option bool;
  rq_mirror : option bool;
  rq_unknown : list string
}.

Definition with_default {A} (d : A) (o : option A) : A :=
  match o with Some a => a | None => d end.

(** [EffectConfig] built from the keyword arguments
    [call['data'].get('config', {})] in [handle_service_call]. *)
Definition effect_config_of_request (rq : ConfigRequest) : outcome EffectConfig :=
  match rq_unknown rq with
  | _ :: _ => Raises TypeError
  | [] =>
      Returns (mkEffectConfig (with_default 50%Z (rq_speed rq))
                 (with_default 100%Z (rq_intensity rq))
                 (with_default "rainbow"%string (rq_palette_name rq))
                 (with_default false (rq_reverse rq))
                 (with_default false (rq_mirror rq)))
  end.

(** ** main.py *)

(** [obj[key]] for a string [key]: a missing key of a dict raises
    [KeyError]; lists and strings need integer indices and the other values
    are not subscriptable ([TypeError]). *)
Definition py_getitem (key : string) (obj : json) : outcome json :=
  match obj with
  | JObj fields =>
      match dict_get key fields with Some v => Returns v | None => Raises KeyError end
  | _ => Raises TypeError
  end.

(** [try: m except Exception as e: handler(e)]; [asyncio.CancelledError] is
    not an [Exception] and passes through. *)
Definition lm_try (m : LM unit) (handler : py_exc -> LM unit) : LM unit :=
  fun s => match m s with
           | (Raises CancelledError, s') => (Raises CancelledError, s')
           | (Raises e, s') => handler e s'
           | (Returns a, s') => (Returns a, s')
           end.

Section Setup.

(** The rest of the [try] body of [LightFX.setup] once [seq_config['name']]
    and [seq_config['lights']] are read: [create_sequence], the log line and
    the default effect; the theorems hold for any behaviour of it. *)
Variable create_and_start : json -> json -> json -> LM unit.

(** The body of the [for seq_config in ...] loop of [LightFX.setup]; the
    [except] handler formats [seq_config['name']] into its log line. *)
Definition setup_entry (seq_config : json) : LM unit :=
  lm_try
    (name <- lm_lift (py_getitem "name" seq_config) ;;
     lights <- lm_lift (py_getitem "lights" seq_config) ;;
     create_and_start name lights seq_config)
    (fun _ => _ <- lm_lift (py_getitem "name" seq_config) ;; lm_ret tt).

Fixpoint setup_loop (entries : list json) : LM unit :=
  match entries with
  | [] => lm_ret tt
  | seq_config :: rest => _ <- setup_entry seq_config ;; setup_loop rest
  end.

(** [LightFX.setup]: [for seq_config in self.config.get('sequences', [])]. *)
Definition setup (config : json) : LM unit :=
  seqs <- lm_lift (py_get "sequences" config (JList [])) ;;
  entries <- lm_lift (py_tuple seqs) ;;
  setup_loop entries.

End Setup.

(** ** Auxiliary definitions for the proofs *)

(** The color [get_color_at_position] returns, [col_red] where it returns
    none (used only where it is known to return one). *)
Definition color_or_red (o : outcome (option Color)) : Color :=
  match o with Returns (Some c) => c | _ => col_red end.

(** After the first [m] iterations of the rainbow loop, the index of the
    iteration whose update light [j] holds: the direct write of iteration
    [j], or the mirrored write of iteration [n - 1 - j], whichever came
    last. *)
Definition rainbow_writer (mr : bool) (n m j : nat) : option nat :=
  let direct := if (j <? m)%nat then Some j else None in
  let mirrored :=
    if mr && (Nat.div n 2 <=? n - 1 - j)%nat && (n - 1 - j <? m)%nat
    then Some (n - 1 - j)%nat else None in
  match direct, mirrored with
  | Some a, Some b => Some (Nat.max a b)
  | Some a, None => Some a
  | None, Some b => Some b
  | None, None => None
  end.

(** * Proofs *)

(** Both entries of a light are present in a sequence object. *)
Definition fetched (sq : LightSequence) (eid : string) : Prop :=
  (exists caps, dict_get eid (capabilities sq) = Some caps) /\
  (exists ls, dict_get eid (states sq) = Some ls).

(** A controller that answers the first [get_state] call and fails the
    second. *)
Definition api_fail_second : StateApi :=
  fun k => match k with O => Some (JObj []) | _ => None end.

(** The in-flight call is blocked in [await task] on task [tid] of
    sequence [s]. *)
Definition awaiting (c : caller) (s : string) (tid : nat) : Prop :=
  match c with
  | StartAwait s' _ _ tid' | StopAwait s' tid' => s' = s /\ tid' = tid
  | _ => False
  end.

(** What the in-flight call knows of [_running_effects]: the record it
    awaits is present; past the [del], the record is gone. *)
Definition pc_ok (c : caller) (rn : dict RunningEffect) : Prop :=
  match c with
  | StartAwait s _ _ tid | StopAwait s tid => exists e cfg, dict_get s rn = Some (e, cfg, tid)
  | StartTurnOff s _ _ | StartInstall s _ _ | StopTurnOff s => dict_get s rn = None
  | _ => True
  end.

(** Light updates are issued in task order within a sequence: when an
    update of task [t1] follows (is newer than) an update of task [t2] of
    the same sequence, [t1] is not the older task. *)
Definition trace_ordered (st : Engine) : Prop :=
  forall l1 l2 t1 t2 x y T1 T2,
  trace st = l1 ++ Frame t1 x :: l2 -> In (Frame t2 y) l2 ->
  In T1 (tasks st) -> In T2 (tasks st) -> task_id T1 = t1 -> task_id T2 = t2 ->
  task_seq T1 = task_seq T2 -> (t2 <= t1)%nat.

(** The scheduler invariant. *)
Record engine_inv (st : Engine) : Prop := {
  inv_ids_nodup : NoDup (map task_id (tasks st));
  inv_ids_fresh : forall T, In T (tasks st) -> (task_id T < next_tid st)%nat;
  inv_keys_nodup : NoDup (map fst (running st));
  inv_live_recorded : forall T, In T (tasks st) -> status T = Live ->
    exists e cfg, dict_get (task_seq T) (running st) = Some (e, cfg, task_id T);
  inv_cancelling : forall T, In T (tasks st) -> status T = Cancelling ->
    awaiting (pc st) (task_seq T) (task_id T);
  inv_older_done : forall T1 T2, In T1 (tasks st) -> In T2 (tasks st) ->
    task_seq T1 = task_seq T2 -> (task_id T1 < task_id T2)%nat ->
    status T1 = Cancelled \/ status T1 = Failed;
  inv_record_task : forall s e cfg tid, dict_get s (running st) = Some (e, cfg, tid) ->
    exists T, In T (tasks st) /\ task_id T = tid /\ task_seq T = s;
  inv_record_seq : forall s r, dict_get s (running st) = Some r -> get_sequence (lm st) s <> None;
  inv_pc : pc_ok (pc st) (running st);
  inv_frames : forall t x, In (Frame t x) (trace st) -> exists T, In T (tasks st) /\ task_id T = t;
  inv_trace : trace_ordered st
}.

(** In a run of [start_effect(s, e, cfg)] that stops the effect of task
    [tid]: the task has been cancelled and awaited, its record deleted. *)
Definition stopped (s : string) (tid : nat) (st : Engine) : Prop :=
  dict_get s (running st) = None /\
  exists T, find_task tid (tasks st) = Some T /\ status T = Cancelled.

(** Every light of [sq] has been sent a [turn_off]. *)
Definition turned_off (sq : LightSequence) (st : Engine) : Prop :=
  forall l, In l (light_ids sq) -> In (TurnOff l) (trace st).

(** Where a run of [start_effect(s, e, cfg)] with an unknown effect [e]
    stands, started while task [tid] ran the effect of [s], over the
    registry [lm0] in which [s] is the sequence [sq]. *)
Definition start_stage (lm0 : LightManager) (s e : string) (cfg : EffectConfig)
  (tid : nat) (sq : LightSequence) (st : Engine) : Prop :=
  engine_inv st /\ lm st = lm0 /\
  ((pc st = StartAwait s e cfg tid /\
      exists T, find_task tid (tasks st) = Some T /\
                (status T = Cancelling \/ status T = Cancelled)) \/
   (pc st = StartTurnOff s e cfg /\ stopped s tid st) \/
   ((pc st = StartInstall s e cfg \/ pc st = Finished (Raises ValueError)) /\
      stopped s tid st /\ turned_off sq st)).

(** Componentwise equality of RGB or HSV triples. *)
Definition triple_eq (x y : Q * Q * Q) : Prop :=
  let '(a, b, c) := x in let '(a', b', c') := y in a == a' /\ b == b' /\ c == c'.

(** The six-way [if i == ...] of [colorsys.hsv_to_rgb] for the sector [k]
    and the fractional part [f]. *)
Definition hsv_sector (k : Z) (f s v : Q) : Q * Q * Q :=
  let p := v * (1 - s) in
  let q := v * (1 - s * f) in
  let t := v * (1 - s * (1 - f)) in
  match k with
  | 0%Z => (v, t, p)
  | 1%Z => (q, v, p)
  | 2%Z => (p, v, t)
  | 3%Z => (p, q, v)
  | 4%Z => (t, p, v)
  | _ => (v, p, q)
  end.

(** The components of a color are non-negative. *)
Definition color_nonneg (c : Color) : Prop :=
  0 <= red c /\ 0 <= green c /\ 0 <= blue c.

Definition color_unit (c : Color) : Prop :=
  0 <= red c <= 1 /\ 0 <= green c <= 1 /\ 0 <= blue c <= 1.

Definition palette_unit (pal : Palette) : Prop :=
  Forall (fun cp => color_unit (cp_color cp)) (colors pal).

Definition rgb_bytes (rgb : list Z) : Prop :=
  List.length rgb = 3%nat /\ Forall (fun x => 0 <= x <= 255)%Z rgb.

Definition frame_bytes (fr : frame) : Prop :=
  forall k v, dict_get k fr = Some v -> rgb_bytes v.

Definition states_unit (states : dict Q) : Prop :=
  forall id s, dict_get id states = Some s -> 0 <= s <= 1.

(** What [update_light] may change in a sequence: only the state of [eid]. *)
Definition refreshed_from (eid : string) (sq sq' : LightSequence) : Prop :=
  seq_name sq' = seq_name sq /\ light_ids sq' = light_ids sq /\
  capabilities sq' = capabilities sq /\
  (forall e, e <> eid -> dict_get e (states sq') = dict_get e (states sq)) /\
  (In eid (light_ids sq) -> exists ls, dict_get eid (states sq') = Some ls /\ entity_id ls = eid).

(** Inputs of the witnesses below. *)

Definition twinkle_draws : Draws := fun _ => 1 # 20.

Definition static_demo : Palette :=
  mkPalette "demo"%string [mkColorPoint col_red 0; mkColorPoint col_blue 40;
                    mkColorPoint col_green 60; mkColorPoint col_yellow 100] "static"%string None.

Definition demo_state_api : StateApi :=
  fun _ => Some (JObj [("state"%string, JStr "on");
                       ("attributes"%string, JObj [("brightness"%string, JNum 128)])]).

Definition demo_manager : LightManager :=
  mkLightManager [("s1"%string, new_sequence "s1" ["a"; "b"]%string);
                  ("s2"%string, new_sequence "s2" ["c"]%string)] [].

Definition out_frame (o : outcome frame) : frame :=
  match o with Returns fr => fr | Raises _ => [] end.

(** A run of the engine that replaces a running effect: the sequence "s"
    of one light "a" is created, "rainbow" is started on it and its task
    sends a frame, then "twinkle" is started, which cancels and awaits that
    task and turns the light off before installing its own. *)
Definition step_or_stay (st : Engine) : Engine :=
  match caller_step st with Some st' => st' | None => st end.

Definition c2_created : Engine :=
  set_lm init_engine
    (snd (snd (create_sequence demo_state_api "s" ["a"%string] (0%nat, lm init_engine)))).

Definition c2_installed : Engine :=
  step_or_stay (begin_start c2_created "s" "rainbow" default_config).

Definition c2_framed : Engine :=
  set_trace c2_installed (Frame 0 "a" :: trace c2_installed).

Definition c2_stopping : Engine := begin_start c2_framed "s" "twinkle" default_config.

Definition c2_cancelled : Engine :=
  set_tasks c2_stopping (set_status 0 (fun _ => Cancelled) (tasks c2_stopping)).

Definition c2_turned_off : Engine := step_or_stay (step_or_stay c2_cancelled).

Definition c2_replaced : Engine := step_or_stay c2_turned_off.

(** ** Dictionaries *)

Lemma dict_get_set_eq {V} (k : string) (v : V) (d : dict V) :
  dict_get k (dict_set k v d) = Some v.
Proof.
  induction d as [|[k' v'] d IH]; simpl.
  - now rewrite String.eqb_refl.
  - destruct (String.eqb_spec k k') as [->|Hne]; simpl.
    + now rewrite String.eqb_refl.
    + apply String.eqb_neq in Hne. now rewrite Hne.
Qed.

Lemma dict_get_set_ne {V} (k k' : string) (v : V) (d : dict V) :
  k <> k' -> dict_get k' (dict_set k v d) = dict_get k' d.
Proof.
  intros Hne. induction d as [|[k0 v0] d IH]; simpl.
  - apply String.eqb_neq in Hne. rewrite String.eqb_sym. now rewrite Hne.
  - destruct (String.eqb_spec k k0) as [->|Hne0]; simpl.
    + apply String.eqb_neq in Hne. rewrite String.eqb_sym in Hne. now rewrite Hne.
    + now rewrite IH.
Qed.

Lemma dict_get_notin {V} (k : string) (d : dict V) :
  ~ In k (map fst d) -> dict_get k d = None.
Proof.
  induction d as [|[k0 v0] d IH]; simpl; intros Hnin; [reflexivity|].
  destruct (String.eqb_spec k k0) as [->|]; [tauto|]. apply IH. tauto.
Qed.

Lemma dict_get_del_eq {V} (k : string) (d : dict V) :
  NoDup (map fst d) -> dict_get k (dict_del k d) = None.
Proof.
  induction d as [|[k0 v0] d IH]; simpl; intros Hnd; [reflexivity|].
  inversion Hnd as [|? ? Hnin Hnd']; subst.
  destruct (String.eqb_spec k k0) as [->|Hne].
  - now apply dict_get_notin.
  - simpl. apply String.eqb_neq in Hne. rewrite Hne. now apply IH.
Qed.

Lemma dict_get_del_ne {V} (k k' : string) (d : dict V) :
  k <> k' -> dict_get k' (dict_del k d) = dict_get k' d.
Proof.
  intros Hne. induction d as [|[k0 v0] d IH]; simpl; [reflexivity|].
  destruct (String.eqb_spec k k0) as [->|Hne0].
  - apply String.eqb_neq in Hne. rewrite String.eqb_sym in Hne. now rewrite Hne.
  - simpl. now rewrite IH.
Qed.

Lemma dict_keys_set {V} (k : string) (v : V) (d : dict V) :
  NoDup (map fst d) -> NoDup (map fst (dict_set k v d)).
Proof.
  induction d as [|[k0 v0] d IH]; simpl; intros Hnd.
  - constructor; [simpl; tauto | constructor].
  - inversion Hnd as [|? ? Hnin Hnd']; subst.
    destruct (String.eqb_spec k k0) as [->|Hne]; simpl; [constructor; assumption|].
    constructor; [|now apply IH].
    clear IH Hnd Hnd'. induction d as [|[k1 v1] d IH']; simpl in *.
    + intuition.
    + destruct (String.eqb_spec k k1); simpl; intuition.
Qed.

Lemma dict_keys_del {V} (k : string) (d : dict V) :
  NoDup (map fst d) -> NoDup (map fst (dict_del k d)).
Proof.
  induction d as [|[k0 v0] d IH]; simpl; intros Hnd; [constructor|].
  inversion Hnd as [|? ? Hnin Hnd']; subst.
  destruct (String.eqb k k0); [assumption|]. simpl. constructor; [|now apply IH].
  clear IH Hnd Hnd'. induction d as [|[k1 v1] d IH']; simpl in *; [tauto|].
  destruct (String.eqb k k1); simpl; intuition.
Qed.

Lemma dict_get_in {V} (k : string) (v : V) (d : dict V) :
  dict_get k d = Some v -> In (k, v) d.
Proof.
  induction d as [|[k0 v0] d IH]; simpl; [discriminate|].
  destruct (String.eqb_spec k k0) as [->|]; [intros [= ->]; now left|].
  intros H. right. now apply IH.
Qed.

(** ** C10: the rainbow effect does not read [config.palette_name] *)

Lemma rainbow_loop_palette_name palettes sp it p1 p2 rv mr ids n toff :
  forall todo i updates,
  rainbow_loop palettes (mkEffectConfig sp it p1 rv mr) ids n toff i todo updates =
  rainbow_loop palettes (mkEffectConfig sp it p2 rv mr) ids n toff i todo updates.
Proof.
  induction todo as [|lid todo IH]; intros i updates; simpl; [reflexivity|].
  unfold rainbow_pos; simpl.
  destruct (get_color_at_position _ _ _) as [[color|]|e]; [|reflexivity|reflexivity].
  destruct (mr && _)%bool; [|apply IH].
  rewrite dict_get_set_eq. destruct (nth_error ids _); [apply IH|reflexivity].
Qed.

(** C10. [RainbowEffect.generate_frame] gives the same updates for any two
    configurations that differ only in [palette_name]: it always queries
    the hard-coded ["rainbow"] palette. *)
Theorem rainbow_frame_independent_of_palette_name :
  forall palettes light_ids sp it rv mr p1 p2 elapsed,
  rainbow_generate_frame palettes light_ids (mkEffectConfig sp it p1 rv mr) elapsed =
  rainbow_generate_frame palettes light_ids (mkEffectConfig sp it p2 rv mr) elapsed.
Proof.
  intros. unfold rainbow_generate_frame. simpl. apply rainbow_loop_palette_name.
Qed.

(** ** C1: the builtin dynamic palette *)

(** C1. The builtin ["fire"] palette has type ["dynamic"]; neither branch of
    [get_color_at_position] handles that type, so the call falls off the end
    and returns [None] for every position, e.g. 0, 50 and 100. *)
Theorem fire_palette_color_is_None :
  get_color_at_position default_palettes "fire" 0 = Returns None /\
  get_color_at_position default_palettes "fire" 50 = Returns None /\
  get_color_at_position default_palettes "fire" 100 = Returns None.
Proof. repeat split; reflexivity. Qed.

(** ** C3: hue interpolation *)

(** C3. [_interpolate_hue(0.8, 0.2, 0.5)] returns 1.0: the hue difference
    -0.6 is wrapped to +0.4 and the result 1.0 is left unwrapped (only
    [h > 1] is wrapped), so it lies outside [0,1).  The documented example
    (0.05, 0.95, 0.5) returns 0.0. *)
Theorem interpolate_hue_returns_one :
  interpolate_hue (4 # 5) (1 # 5) (1 # 2) == 1 /\
  ~ interpolate_hue (4 # 5) (1 # 5) (1 # 2) < 1 /\
  interpolate_hue (5 # 100) (95 # 100) (1 # 2) == 0.
Proof.
  vm_compute. split; [reflexivity|]. split; [discriminate|reflexivity].
Qed.

(** ** C8: [create_sequence] is all-or-nothing on the sequence map *)

Lemma fetch_capabilities_spec api eid sq k lm r k' lm' :
  fetch_capabilities api eid sq (k, lm) = (r, (k', lm')) ->
  lm' = lm /\
  forall sq', r = Returns sq' ->
    seq_name sq' = seq_name sq /\ light_ids sq' = light_ids sq /\
    states sq' = states sq /\
    exists caps, capabilities sq' = dict_set eid caps (capabilities sq).
Proof.
  unfold fetch_capabilities, lm_bind, get_state, lm_lift, lm_ret.
  destruct (api k) as [j|]; [|intros [= <- _ <-]; split; [reflexivity|discriminate]].
  destruct (parse_capabilities j) as [caps|e]; intros [= <- _ <-];
    split; try reflexivity; [|discriminate].
  intros sq' [= <-]. simpl. repeat split. now exists caps.
Qed.

Lemma fetch_state_spec api eid sq k lm r k' lm' :
  fetch_state api eid sq (k, lm) = (r, (k', lm')) ->
  sequences lm' = sequences lm /\
  forall sq', r = Returns sq' ->
    seq_name sq' = seq_name sq /\ light_ids sq' = light_ids sq /\
    capabilities sq' = capabilities sq /\
    exists ls, states sq' = dict_set eid ls (states sq).
Proof.
  unfold fetch_state, lm_bind, get_state, lm_lift, lm_ret, lm_modify.
  destruct (api k) as [j|]; [|intros [= <- _ <-]; split; [reflexivity|discriminate]].
  destruct (parse_state eid j) as [ls|e]; intros [= <- _ <-];
    split; try reflexivity; [|discriminate].
  intros sq' [= <-]. simpl. repeat split. now exists ls.
Qed.

Lemma dict_get_set_some {V} (k k' : string) (v : V) (d : dict V) :
  (exists w, dict_get k d = Some w) -> exists w, dict_get k (dict_set k' v d) = Some w.
Proof.
  intros [w Hw]. destruct (String.eqb_spec k' k) as [->|Hne].
  - exists v. apply dict_get_set_eq.
  - exists w. now rewrite dict_get_set_ne.
Qed.

Lemma fetch_all_spec api :
  forall ids sq k lm r k' lm',
  fetch_all api ids sq (k, lm) = (r, (k', lm')) ->
  sequences lm' = sequences lm /\
  forall sq', r = Returns sq' ->
    seq_name sq' = seq_name sq /\ light_ids sq' = light_ids sq /\
    forall eid, In eid ids \/ fetched sq eid -> fetched sq' eid.
Proof.
  induction ids as [|eid ids IH]; intros sq k lm r k' lm' Hrun.
  - simpl in Hrun. unfold lm_ret in Hrun. injection Hrun as <- <- <-.
    split; [reflexivity|]. intros sq' [= <-]. split; [reflexivity|split; [reflexivity|]].
    intros x [[]|Hx]; exact Hx.
  - simpl in Hrun. unfold lm_bind at 1 in Hrun.
    destruct (fetch_capabilities api eid sq (k, lm)) as [r1 [k1 lm1]] eqn:H1.
    apply fetch_capabilities_spec in H1 as [-> Hc].
    destruct r1 as [sq1|e1]; [|injection Hrun as <- <- <-; split; [reflexivity|discriminate]].
    unfold lm_bind in Hrun.
    destruct (fetch_state api eid sq1 (k1, lm)) as [r2 [k2 lm2]] eqn:H2.
    apply fetch_state_spec in H2 as [Hs2 Hs].
    destruct r2 as [sq2|e2]; [|injection Hrun as <- <- <-; split; [exact Hs2|discriminate]].
    apply IH in Hrun as [Hs3 Hr]. split; [congruence|].
    intros sq' Hsq'. specialize (Hr sq' Hsq') as (Hn & Hl & Hf).
    destruct (Hc sq1 eq_refl) as (Hn1 & Hl1 & Hst1 & caps & Hcap1).
    destruct (Hs sq2 eq_refl) as (Hn2 & Hl2 & Hcap2 & ls & Hst2).
    split; [congruence|split; [congruence|]].
    intros x Hx. apply Hf.
    destruct (String.eqb_spec eid x) as [->|Hne].
    + right. split.
      * exists caps. rewrite Hcap2, Hcap1. apply dict_get_set_eq.
      * exists ls. rewrite Hst2. apply dict_get_set_eq.
    + destruct Hx as [[Heq|Hin]|[Hfc Hfs]]; [congruence|now left|].
      right. split.
      * rewrite Hcap2, Hcap1. now apply dict_get_set_some.
      * rewrite Hst2, Hst1. now apply dict_get_set_some.
Qed.

(** C8. [create_sequence] either fails and leaves the registry's sequence
    map exactly as it was (no new or partially initialised sequence becomes
    visible), or succeeds after fetching the capabilities and the state of
    every light, and only then registers the sequence under its name. *)
Theorem create_sequence_all_or_nothing :
  forall api name ids k lm r k' lm',
  create_sequence api name ids (k, lm) = (r, (k', lm')) ->
  (forall e, r = Raises e -> sequences lm' = sequences lm) /\
  (forall sq, r = Returns sq ->
     sequences lm' = dict_set name sq (sequences lm) /\
     seq_name sq = name /\ light_ids sq = ids /\
     forall eid, In eid ids -> fetched sq eid).
Proof.
  intros api name ids k lm r k' lm' Hrun.
  unfold create_sequence, lm_bind in Hrun.
  destruct (fetch_all api ids (new_sequence name ids) (k, lm)) as [r1 [k1 lm1]] eqn:H1.
  apply fetch_all_spec in H1 as [Hs1 Hf].
  destruct r1 as [sq1|e1].
  - unfold lm_modify, lm_ret in Hrun. injection Hrun as <- <- <-.
    split; [intros ? [=]|]. intros sq [= <-]. simpl.
    destruct (Hf sq1 eq_refl) as (Hn & Hl & Hall).
    rewrite Hs1. split; [reflexivity|split; [assumption|split; [assumption|]]].
    intros eid Hin. apply Hall. now left.
  - injection Hrun as <- <- <-. split; [intros; assumption|intros ? [=]].
Qed.

(** A witness for C8: the second [get_state] call fails. *)
Lemma create_sequence_all_or_nothing_witness :
  exists r k' lm',
  create_sequence api_fail_second "s" ["a"%string] (0%nat, mkLightManager [] []) = (r, (k', lm')) /\
  r = Raises ControllerError /\
  ((forall e, r = Raises e -> sequences lm' = sequences (mkLightManager [] [])) /\
   (forall sq, r = Returns sq ->
      sequences lm' = dict_set "s" sq (sequences (mkLightManager [] [])) /\
      seq_name sq = "s"%string /\ light_ids sq = ["a"%string] /\
      forall eid, In eid ["a"%string] -> fetched sq eid)).
Proof.
  do 3 eexists. split; [reflexivity|]. split; [reflexivity|].
  eapply (create_sequence_all_or_nothing api_fail_second "s" ["a"%string] 0%nat). reflexivity.
Defined.

(** ** Arithmetic of the Python helpers *)

Lemma Qltb_iff a b : Qltb a b = true <-> a < b.
Proof.
  unfold Qltb. rewrite Bool.negb_true_iff. split.
  - intros H. apply Qnot_le_lt. intros Hle. apply Qle_bool_iff in Hle. congruence.
  - intros H. destruct (Qle_bool b a) eqn:E; [|reflexivity].
    apply Qle_bool_iff in E. exfalso. apply (Qlt_not_le a b H E).
Qed.

Lemma Qltb_false_iff a b : Qltb a b = false <-> b <= a.
Proof.
  unfold Qltb. rewrite Bool.negb_false_iff. apply Qle_bool_iff.
Qed.

Lemma Qltb_comp a a' b b' : a == a' -> b == b' -> Qltb a b = Qltb a' b'.
Proof.
  intros Ha Hb. destruct (Qltb a b) eqn:E1, (Qltb a' b') eqn:E2; try reflexivity.
  - apply Qltb_iff in E1. apply Qltb_false_iff in E2. rewrite Ha, Hb in E1.
    exfalso. apply (Qlt_not_le _ _ E1 E2).
  - apply Qltb_false_iff in E1. apply Qltb_iff in E2. rewrite Ha, Hb in E1.
    exfalso. apply (Qlt_not_le _ _ E2 E1).
Qed.

Lemma py_int_comp x y : x == y -> py_int x = py_int y.
Proof.
  intros H. unfold py_int. rewrite (Qltb_comp x y 0 0 H (Qeq_refl 0)).
  destruct (Qltb y 0).
  - f_equal. apply Qfloor_comp. now rewrite H.
  - now apply Qfloor_comp.
Qed.

(** [int(c * intensity / 100)] is [int(c * (intensity / 100))]. *)
Lemma scale_rgb_spec intens color :
  scale_rgb intens color =
  map (fun c => py_int (c * (inject_Z intens / 100)))
    [red color * 255; green color * 255; blue color * 255].
Proof.
  unfold scale_rgb. simpl. f_equal; [|f_equal; [|f_equal]];
    apply py_int_comp; field.
Qed.

(** ** Totality of palette lookups for non-empty static and gradient palettes *)

Lemma insert_by_position_length c l :
  List.length (insert_by_position c l) = S (List.length l).
Proof.
  induction l as [|d l IH]; simpl; [reflexivity|].
  destruct (Qle_bool _ _); simpl; congruence.
Qed.

Lemma sort_by_position_length l : List.length (sort_by_position l) = List.length l.
Proof.
  induction l as [|c l IH]; simpl; [reflexivity|].
  now rewrite insert_by_position_length, IH.
Qed.

Lemma last_opt_cons {A} (x : A) l : exists y, last_opt (x :: l) = Some y.
Proof.
  revert x. induction l as [|y l IH]; intros x; [now exists x|].
  destruct (IH y) as [z Hz]. exists z. exact Hz.
Qed.

(** A static or gradient palette with at least one stop answers every
    query with a color. *)
Lemma get_color_total palettes name pal pos :
  dict_get name palettes = Some pal ->
  (type pal = "static"%string \/ type pal = "gradient"%string) ->
  colors pal <> [] ->
  exists c, get_color_at_position palettes name pos = Returns (Some c).
Proof.
  intros Hget Hty Hne. unfold get_color_at_position. rewrite Hget.
  destruct Hty as [Ht|Ht]; rewrite Ht; simpl.
  - destruct (colors pal) as [|c l]; [congruence|]. eexists; reflexivity.
  - destruct (gradient_scan pos (sort_by_position (colors pal))) as [c|];
      [eexists; reflexivity|].
    destruct (sort_by_position (colors pal)) as [|c0 l] eqn:Hs.
    + apply (f_equal (@List.length _)) in Hs. rewrite sort_by_position_length in Hs.
      destruct (colors pal); [congruence|discriminate].
    + destruct (last_opt_cons c0 l) as [cl Hcl]. rewrite Hcl. eexists; reflexivity.
Qed.

Lemma rainbow_total pos :
  exists c, get_color_at_position default_palettes "rainbow" pos = Returns (Some c).
Proof.
  apply (get_color_total _ _ rainbow); [reflexivity|now right|discriminate].
Qed.

(** ** C5: the rainbow frame *)

Lemma skipn_cons_nth {A} (l : list A) m x r d :
  skipn m l = x :: r -> nth m l d = x /\ skipn (S m) l = r /\ (m < List.length l)%nat.
Proof.
  revert m. induction l as [|y l IH]; intros m H.
  - destruct m; discriminate.
  - destruct m as [|m]; simpl in H.
    + injection H as -> ->. simpl. split; [reflexivity|split; [reflexivity|lia]].
    + apply IH in H as (H1 & H2 & H3). simpl. split; [exact H1|split; [exact H2|lia]].
Qed.

Ltac nat_cases :=
  repeat match goal with
  | |- context [(?a <? ?b)%nat] => destruct (Nat.ltb_spec a b)
  | |- context [(?a <=? ?b)%nat] => destruct (Nat.leb_spec a b)
  | |- context [Nat.max ?a ?b] => destruct (Nat.max_spec a b) as [[? ->]|[? ->]]
  end.

Lemma half_bounds n : (2 * Nat.div n 2 <= n <= 2 * Nat.div n 2 + 1)%nat.
Proof.
  pose proof (Nat.div_mod_eq n 2). pose proof (Nat.mod_upper_bound n 2). lia.
Qed.

Lemma writer_direct mr n m :
  (m < n)%nat -> rainbow_writer mr n (S m) m = Some m.
Proof.
  intros Hm. pose proof (half_bounds n). unfold rainbow_writer.
  remember (Nat.div n 2) as q eqn:Hq; clear Hq.
  destruct mr; simpl; repeat (nat_cases; simpl); try reflexivity; try lia;
    f_equal; lia.
Qed.

Lemma writer_mirrored n m :
  (Nat.div n 2 <= m < n)%nat -> rainbow_writer true n (S m) (n - 1 - m) = Some m.
Proof.
  intros Hm. pose proof (half_bounds n). unfold rainbow_writer.
  remember (Nat.div n 2) as q eqn:Hq; clear Hq. simpl.
  repeat (nat_cases; simpl); try lia; f_equal; lia.
Qed.

Lemma writer_other mr n m j :
  (m < n)%nat -> (j < n)%nat -> j <> m ->
  (mr && (Nat.div n 2 <=? m)%nat = false \/ j <> (n - 1 - m)%nat) ->
  rainbow_writer mr n (S m) j = rainbow_writer mr n m j.
Proof.
  intros Hm Hj Hjm Hor. pose proof (half_bounds n). unfold rainbow_writer.
  remember (Nat.div n 2) as q eqn:Hq; clear Hq.
  destruct mr; simpl in *; repeat (nat_cases; simpl); try reflexivity; try lia;
    destruct Hor as [Hf|Hf]; try discriminate; try lia.
  all: apply Nat.leb_gt in Hf; lia.
Qed.

Lemma writer_final_direct mr n i :
  (i < n)%nat -> (mr = false \/ (Nat.div n 2 <= i)%nat) -> rainbow_writer mr n n i = Some i.
Proof.
  intros Hi Hor. pose proof (half_bounds n). unfold rainbow_writer.
  remember (Nat.div n 2) as q eqn:Hq; clear Hq.
  destruct mr; simpl; repeat (nat_cases; simpl); try reflexivity; try lia;
    destruct Hor; try discriminate; f_equal; lia.
Qed.

Lemma writer_final_mirror n i :
  (Nat.div n 2 <= i < n)%nat -> rainbow_writer true n n (n - 1 - i) = Some i.
Proof.
  intros Hi. pose proof (half_bounds n). unfold rainbow_writer.
  remember (Nat.div n 2) as q eqn:Hq; clear Hq. simpl.
  repeat (nat_cases; simpl); try lia; f_equal; lia.
Qed.

Lemma writer_zero mr n j : rainbow_writer mr n 0 j = None.
Proof.
  unfold rainbow_writer. destruct (j <? 0)%nat eqn:E; [apply Nat.ltb_lt in E; lia|].
  rewrite Bool.andb_comm. simpl. reflexivity.
Qed.

Lemma nth_inj_nodup (ids : list string) i j :
  NoDup ids -> (i < List.length ids)%nat -> (j < List.length ids)%nat -> i <> j ->
  nth i ids ""%string <> nth j ids ""%string.
Proof.
  intros Hnd Hi Hj Hij Heq. apply Hij. now apply (proj1 (NoDup_nth ids ""%string) Hnd).
Qed.

Section RainbowLoop.

Variables (ids : list string) (config : EffectConfig) (toff : Q).
Hypothesis Hnd : NoDup ids.

Local Notation N := (List.length ids).
Local Notation rb_update j :=
  (scale_rgb (intensity config)
     (color_or_red (get_color_at_position default_palettes "rainbow"
                      (rainbow_pos config (List.length ids) j toff)))).

Lemma rainbow_loop_inv :
  forall todo m d,
  (m <= N)%nat -> skipn m ids = todo ->
  (forall j, (j < N)%nat ->
     dict_get (nth j ids ""%string) d =
     option_map (fun w => rb_update w) (rainbow_writer (mirror config) N m j)) ->
  exists d', rainbow_loop default_palettes config ids N toff m todo d = Returns d' /\
  forall j, (j < N)%nat ->
     dict_get (nth j ids ""%string) d' =
     option_map (fun w => rb_update w) (rainbow_writer (mirror config) N N j).
Proof.
  induction todo as [|lid todo IH]; intros m d Hm Hskip Hinv.
  - exists d. split; [reflexivity|].
    assert (m = N) as ->; [|exact Hinv].
    apply (f_equal (@List.length _)) in Hskip. rewrite length_skipn in Hskip. simpl in Hskip. lia.
  - destruct (skipn_cons_nth ids m lid todo ""%string Hskip) as (Hlid & Hskip' & HmN).
    cbn [rainbow_loop]. destruct (rainbow_total (rainbow_pos config N m toff)) as [c Hc]. rewrite Hc.
    set (u := scale_rgb (intensity config) c).
    assert (Hu : rb_update m = u) by (unfold u; now rewrite Hc).
    destruct (mirror config && (Nat.div N 2 <=? m)%nat) eqn:Em.
    + apply Bool.andb_true_iff in Em as [Emr Ele]. apply Nat.leb_le in Ele.
      rewrite (nth_error_nth' ids) with (n := (N - 1 - m)%nat) (d := ""%string) by lia.
      rewrite dict_get_set_eq. apply IH; [lia|exact Hskip'|].
      intros j Hj. rewrite Emr.
      destruct (Nat.eq_dec j (N - 1 - m)%nat) as [->|Hj1].
      * rewrite dict_get_set_eq, writer_mirrored by lia. simpl. now rewrite Hu.
      * rewrite dict_get_set_ne by (apply nth_inj_nodup; [assumption|lia|lia|congruence]).
        destruct (Nat.eq_dec j m) as [->|Hjm].
        -- rewrite <- Hlid, dict_get_set_eq, writer_direct by lia. simpl. now rewrite Hu.
        -- rewrite <- Hlid, dict_get_set_ne by (apply nth_inj_nodup; [assumption|lia|lia|congruence]).
           rewrite writer_other by (try lia; right; exact Hj1).
           rewrite Emr in Hinv. now apply Hinv.
    + apply IH; [lia|exact Hskip'|].
      intros j Hj. destruct (Nat.eq_dec j m) as [->|Hjm].
      * rewrite <- Hlid, dict_get_set_eq, writer_direct by lia. simpl. now rewrite Hu.
      * rewrite <- Hlid, dict_get_set_ne by (apply nth_inj_nodup; [assumption|lia|lia|congruence]).
        rewrite writer_other by (try lia; left; exact Em).
        now apply Hinv.
Qed.

End RainbowLoop.

(** C5: for N distinct lights, every config and every elapsed time, the
    rainbow frame gives light i the palette color at position
    ((i/N)*100 + elapsed*(speed/50)*20) mod 100 (100 minus that when
    [reverse] is set), each channel scaled by intensity/100 and truncated;
    when [mirror] is set, light N-1-i gets the same update as light i for
    every i >= N/2 (floor). For N = 4, speed 50, elapsed 0 the positions
    are 0, 25, 50, 75, with red exactly at 0 and green exactly at 50. *)
Theorem rainbow_frame_spec (ids : list string) (config : EffectConfig) (elapsed : Q) :
  NoDup ids ->
  (exists d, rainbow_generate_frame default_palettes ids config elapsed = Returns d /\
   forall i, (i < List.length ids)%nat ->
   let N := List.length ids in
   let p := py_fmod (qdiv_nat i N * 100 + elapsed * (inject_Z (speed config) / 50) * 20) 100 in
   exists c,
     get_color_at_position default_palettes "rainbow" (if reverse config then 100 - p else p)
       = Returns (Some c) /\
     let u := map (fun x => py_int (x * (inject_Z (intensity config) / 100)))
                [red c * 255; green c * 255; blue c * 255] in
     (mirror config = false -> dict_get (nth i ids ""%string) d = Some u) /\
     (mirror config = true -> (Nat.div N 2 <= i)%nat ->
        dict_get (nth i ids ""%string) d = Some u /\
        dict_get (nth (N - 1 - i) ids ""%string) d = Some u)) /\
  (forall i, (i < 4)%nat ->
     py_fmod (qdiv_nat i 4 * 100 + 0 * (inject_Z 50 / 50) * 20) 100 == inject_Z (25 * Z.of_nat i)) /\
  (exists c, get_color_at_position default_palettes "rainbow" 0 = Returns (Some c) /\
     color_eq c col_red) /\
  (exists c, get_color_at_position default_palettes "rainbow" 50 = Returns (Some c) /\
     color_eq c col_green).
Proof.
  intros Hnd. split; [|split; [|split]].
  - unfold rainbow_generate_frame.
    set (toff := elapsed * (inject_Z (speed config) / 50)).
    destruct (rainbow_loop_inv ids config toff Hnd ids 0 [] (Nat.le_0_l _) eq_refl)
      as [d [Hd Hall]].
    { intros j Hj. now rewrite writer_zero. }
    exists d. split; [exact Hd|]. intros i Hi.
    destruct (rainbow_total (rainbow_pos config (List.length ids) i toff)) as [c Hc].
    exists c. split; [exact Hc|].
    assert (Hu : option_map (fun w => scale_rgb (intensity config)
              (color_or_red (get_color_at_position default_palettes "rainbow"
                 (rainbow_pos config (List.length ids) w toff)))) (Some i) =
              Some (map (fun x => py_int (x * (inject_Z (intensity config) / 100)))
                [red c * 255; green c * 255; blue c * 255]))
      by (simpl; rewrite Hc; now rewrite scale_rgb_spec).
    split.
    + intros Hm. rewrite Hall by exact Hi.
      now rewrite writer_final_direct by (try exact Hi; now left).
    + intros Hm Hle. split.
      * rewrite Hall by exact Hi.
        now rewrite writer_final_direct by (try exact Hi; now right).
      * rewrite Hall by lia. rewrite Hm.
        now rewrite writer_final_mirror by lia.
  - intros i Hi. do 4 (destruct i as [|i]; [vm_compute; reflexivity|]). lia.
  - eexists. split; [vm_compute; reflexivity|]. vm_compute. repeat split; reflexivity.
  - eexists. split; [vm_compute; reflexivity|]. vm_compute. repeat split; reflexivity.
Qed.

(** Witness for C5: three distinct lights with [mirror] set. *)
Lemma rainbow_frame_spec_witness :
  NoDup ["a"; "b"; "c"]%string /\
  exists d, rainbow_generate_frame default_palettes ["a"; "b"; "c"]%string
              (mkEffectConfig 50 100 "rainbow" false true) 1 = Returns d.
Proof.
  assert (H : NoDup ["a"; "b"; "c"]%string) by
    (repeat constructor; simpl; intros Hin; repeat destruct Hin as [Hin|Hin]; discriminate || contradiction).
  split; [exact H|].
  destruct (rainbow_frame_spec ["a"; "b"; "c"]%string (mkEffectConfig 50 100 "rainbow" false true) 1 H)
    as [[d [Hd _]] _].
  exists d. exact Hd.
Defined.

(** ** C6: the color wipe frame *)

Lemma Qfloor_unique (z : Z) (q : Q) :
  inject_Z z <= q -> q < inject_Z (z + 1) -> Qfloor q = z.
Proof.
  intros H1 H2. apply Qfloor_resp_le in H1. rewrite Qfloor_Z in H1.
  assert (H3 : inject_Z (Qfloor q) < inject_Z (z + 1))
    by (eapply Qle_lt_trans; [apply Qfloor_le|exact H2]).
  rewrite <- Zlt_Qlt in H3. lia.
Qed.

(** [int(x % m)] for a positive integer [m] is [floor(x) mod m]. *)
Lemma py_int_fmod (x : Q) (m : positive) :
  py_int (py_fmod x (inject_Z (Zpos m))) = (Qfloor x mod Zpos m)%Z.
Proof.
  unfold py_fmod. set (k := Qfloor (x / inject_Z (Zpos m))). set (f := Qfloor x).
  assert (Hm : 0 < inject_Z (Zpos m)) by (unfold Qlt; simpl; lia).
  assert (Hxm : x / inject_Z (Zpos m) * inject_Z (Zpos m) == x)
    by (field; intros E; rewrite E in Hm; discriminate).
  assert (Hk1 : inject_Z k * inject_Z (Zpos m) <= x).
  { rewrite <- Hxm. apply Qmult_le_compat_r; [apply Qfloor_le|now apply Qlt_le_weak]. }
  assert (Hk2 : x < (inject_Z k + 1) * inject_Z (Zpos m)).
  { rewrite <- Hxm. apply Qmult_lt_compat_r; [exact Hm|].
    pose proof (Qlt_floor (x / inject_Z (Zpos m))) as H. fold k in H.
    rewrite inject_Z_plus in H. exact H. }
  assert (Hf1 : inject_Z f <= x) by apply Qfloor_le.
  assert (Hf2 : x < inject_Z (f + 1)) by apply Qlt_floor.
  rewrite inject_Z_plus in Hf2.
  assert (Hy : Qfloor (x - inject_Z (Zpos m) * inject_Z k) = (f - Zpos m * k)%Z).
  { apply Qfloor_unique; unfold Z.sub; rewrite ?inject_Z_plus, ?inject_Z_opp, ?inject_Z_mult; lra. }
  unfold py_int.
  replace (Qltb (x - inject_Z (Zpos m) * inject_Z k) 0) with false
    by (symmetry; apply Qltb_false_iff; lra).
  rewrite Hy.
  assert (Hr : (0 <= f - Zpos m * k < Zpos m)%Z).
  { split.
    - rewrite <- Hy. change 0%Z with (Qfloor 0). apply Qfloor_resp_le. lra.
    - rewrite <- Hy. rewrite Zlt_Qlt.
      eapply Qle_lt_trans; [apply Qfloor_le|]. lra. }
  apply (Z.mod_unique_pos _ _ k); lia.
Qed.

Lemma wipe_active_spec config n elapsed :
  wipe_active_lights config n elapsed =
  (Qfloor (elapsed * (inject_Z (speed config) / 50) * 2) mod (Z.of_nat n + 1))%Z.
Proof.
  unfold wipe_active_lights.
  replace (Z.of_nat n + 1)%Z with (Zpos (Pos.of_succ_nat n)) by (rewrite Zpos_P_of_succ_nat; lia).
  apply py_int_fmod.
Qed.

Section WipeLoop.

Variables (palettes : dict Palette) (config : EffectConfig) (pal : Palette)
  (ids : list string) (active : Z).
Hypothesis Hnd : NoDup ids.
Hypothesis Hget : dict_get (palette_name config) palettes = Some pal.
Hypothesis Hty : type pal = "static"%string \/ type pal = "gradient"%string.
Hypothesis Hne : colors pal <> [].

Local Notation N := (List.length ids).
Local Notation wj i := (if reverse config then (List.length ids - 1 - i)%nat else i).
Local Notation wipe_val i :=
  (if (Z.of_nat (wj i) <? active)%Z
   then scale_rgb (intensity config)
          (color_or_red (get_color_at_position palettes (palette_name config)
                           (qdiv_nat (wj i) (List.length ids) * 100)))
   else [0; 0; 0]%Z).

Lemma wipe_loop_inv :
  forall todo m d,
  (m <= N)%nat -> skipn m ids = todo ->
  (forall j, (j < N)%nat ->
     dict_get (nth j ids ""%string) d = if (j <? m)%nat then Some (wipe_val j) else None) ->
  exists d', wipe_loop palettes config N active m todo d = Returns d' /\
  forall j, (j < N)%nat -> dict_get (nth j ids ""%string) d' = Some (wipe_val j).
Proof.
  induction todo as [|lid todo IH]; intros m d Hm Hskip Hinv.
  - exists d. split; [reflexivity|].
    assert (m = N) as ->.
    { apply (f_equal (@List.length _)) in Hskip. rewrite length_skipn in Hskip. simpl in Hskip. lia. }
    intros j Hj. rewrite Hinv by exact Hj. now rewrite (proj2 (Nat.ltb_lt j N) Hj).
  - destruct (skipn_cons_nth ids m lid todo ""%string Hskip) as (Hlid & Hskip' & HmN).
    assert (Hstep : forall v, v = wipe_val m ->
      forall j, (j < N)%nat ->
      dict_get (nth j ids ""%string) (dict_set lid v d) =
      if (j <? S m)%nat then Some (wipe_val j) else None).
    { intros v Hv j Hj. destruct (Nat.eq_dec j m) as [->|Hjm].
      - rewrite <- Hlid, dict_get_set_eq, Hv. now rewrite (proj2 (Nat.ltb_lt m (S m)) (Nat.lt_succ_diag_r m)).
      - rewrite <- Hlid, dict_get_set_ne by (apply nth_inj_nodup; [assumption|lia|lia|congruence]).
        rewrite Hinv by exact Hj.
        destruct (Nat.ltb_spec j m), (Nat.ltb_spec j (S m)); try reflexivity; lia. }
    cbn [wipe_loop].
    destruct (Z.of_nat (wj m) <? active)%Z eqn:Ea.
    + destruct (get_color_total palettes (palette_name config) pal
                  (qdiv_nat (wj m) N * 100) Hget Hty Hne) as [c Hc].
      rewrite Hc. apply IH; [lia|exact Hskip'|]. apply Hstep. now rewrite Hc.
    + apply IH; [lia|exact Hskip'|]. now apply Hstep.
Qed.

End WipeLoop.

(** C6 (amended). For N distinct lights, a config whose palette is
    registered, of type static or gradient, with at least one stop, and
    every elapsed time, the color wipe frame exists; with
    activeCount = floor(elapsed*(speed/50)*2) mod (N+1), light i, with index
    j = i (or N-1-i when [reverse] is set), gets the palette color at
    position (j/N)*100 scaled by intensity/100 (truncated) when
    j < activeCount, and [0;0;0] otherwise. For N = 5, speed 50 and
    elapsed 1 second, activeCount is 2. Any config whose palette_name is
    not a registered palette makes the frame raise [KeyError], for every
    list of lights and elapsed time. *)
Theorem wipe_frame_spec (palettes : dict Palette) (pal : Palette) (ids : list string)
  (config : EffectConfig) (elapsed : Q) :
  NoDup ids ->
  dict_get (palette_name config) palettes = Some pal ->
  (type pal = "static"%string \/ type pal = "gradient"%string) ->
  colors pal <> [] ->
  (exists d, wipe_generate_frame palettes ids config elapsed = Returns d /\
   forall i, (i < List.length ids)%nat ->
   let N := List.length ids in
   let active := (Qfloor (elapsed * (inject_Z (speed config) / 50) * 2) mod (Z.of_nat N + 1))%Z in
   let j := if reverse config then (N - 1 - i)%nat else i in
   ((Z.of_nat j < active)%Z ->
      exists c,
        get_color_at_position palettes (palette_name config) (qdiv_nat j N * 100)
          = Returns (Some c) /\
        dict_get (nth i ids ""%string) d =
          Some (map (fun x => py_int (x * (inject_Z (intensity config) / 100)))
                  [red c * 255; green c * 255; blue c * 255])) /\
   ((active <= Z.of_nat j)%Z -> dict_get (nth i ids ""%string) d = Some [0; 0; 0]%Z)) /\
  (forall intens p r m, wipe_active_lights (mkEffectConfig 50 intens p r m) 5 1 = 2%Z) /\
  (forall config' ids' elapsed', dict_get (palette_name config') palettes = None ->
     wipe_generate_frame palettes ids' config' elapsed' = Raises KeyError).
Proof.
  intros Hnd Hget Hty Hne. split; [|split].
  - unfold wipe_generate_frame. rewrite Hget.
    destruct (wipe_loop_inv palettes config pal ids (wipe_active_lights config (List.length ids) elapsed)
                Hnd Hget Hty Hne ids 0 [] (Nat.le_0_l _) eq_refl) as [d [Hd Hall]].
    { intros j Hj. reflexivity. }
    exists d. split; [exact Hd|]. intros i Hi. rewrite Hall by exact Hi.
    rewrite wipe_active_spec. split.
    + intros Hlt. apply Z.ltb_lt in Hlt. rewrite Hlt.
      destruct (get_color_total palettes (palette_name config) pal
        (qdiv_nat (if reverse config then (List.length ids - 1 - i)%nat else i) (List.length ids) * 100)
        Hget Hty Hne) as [c Hc].
      exists c. split; [exact Hc|]. rewrite Hc. simpl. now rewrite scale_rgb_spec.
    + intros Hge. apply Z.ltb_ge in Hge. now rewrite Hge.
  - intros. vm_compute. reflexivity.
  - intros config' ids' elapsed' Hnone. unfold wipe_generate_frame. now rewrite Hnone.
Qed.

(** Witness for C6: three distinct lights with the builtin rainbow palette. *)
Lemma wipe_frame_spec_witness :
  NoDup ["a"; "b"; "c"]%string /\
  exists d, wipe_generate_frame default_palettes ["a"; "b"; "c"]%string
              (mkEffectConfig 50 100 "rainbow" true false) 1 = Returns d.
Proof.
  assert (H : NoDup ["a"; "b"; "c"]%string) by
    (repeat constructor; simpl; intros Hin; repeat destruct Hin as [Hin|Hin]; discriminate || contradiction).
  split; [exact H|].
  destruct (wipe_frame_spec default_palettes rainbow ["a"; "b"; "c"]%string
              (mkEffectConfig 50 100 "rainbow" true false) 1 H eq_refl
              (or_intror eq_refl) ltac:(discriminate)) as [[d [Hd _]] _].
  exists d. exact Hd.
Defined.

(** Counterexample for C6: a config naming the unregistered palette
    "ocean" makes the color wipe raise [KeyError] instead of producing a
    frame. *)
Lemma wipe_unknown_palette_raises :
  wipe_generate_frame default_palettes ["a"; "b"]%string
    (mkEffectConfig 50 100 "ocean" false false) 1 = Raises KeyError.
Proof. vm_compute. reflexivity. Qed.

(** ** C7: out-of-range speed and intensity *)

(** C7 (amended). No clamping takes place: a [start_effect] request with no
    unknown keys yields the config with the raw speed and intensity (50 and
    100 when absent), and the step of [start_effect] that installs the
    effect succeeds exactly when the sequence and the effect exist, for any
    config values, recording the config unchanged. *)
Theorem start_effect_config_unclamped (rq : ConfigRequest) :
  rq_unknown rq = [] ->
  exists cfg, effect_config_of_request rq = Returns cfg /\
    speed cfg = with_default 50%Z (rq_speed rq) /\
    intensity cfg = with_default 100%Z (rq_intensity rq) /\
    forall st st' s e,
      pc st = StartInstall s e cfg -> caller_step st = Some st' ->
      (pc st' = Finished (Returns tt) <->
         get_sequence (lm st) s <> None /\ effect_known e = true) /\
      (pc st' = Finished (Returns tt) ->
         dict_get s (running st') = Some (e, cfg, next_tid st)).
Proof.
  intros Hu. unfold effect_config_of_request. rewrite Hu.
  eexists. split; [reflexivity|]. split; [reflexivity|]. split; [reflexivity|].
  intros st st' s e Hpc Hstep. unfold caller_step in Hstep. rewrite Hpc in Hstep.
  destruct (get_sequence (lm st) s) as [sq|] eqn:Hs.
  - destruct (effect_known e) eqn:He; injection Hstep as <-; simpl.
    + split; [split; [intros _; split; [discriminate|reflexivity]|reflexivity]|].
      intros _. apply dict_get_set_eq.
    + split; [|discriminate]. split; [discriminate|]. intros [_ H]; discriminate.
  - injection Hstep as <-. simpl. split; [|discriminate].
    split; [discriminate|]. intros [H _]. congruence.
Qed.

(** Witness for C7: a request with speed and intensity 200. *)
Lemma start_effect_config_unclamped_witness :
  exists cfg, effect_config_of_request
                (mkConfigRequest (Some 200%Z) (Some 200%Z) None None None []) = Returns cfg /\
              speed cfg = 200%Z.
Proof.
  destruct (start_effect_config_unclamped
              (mkConfigRequest (Some 200%Z) (Some 200%Z) None None None []) eq_refl)
    as (cfg & Hcfg & Hsp & _).
  exists cfg. split; [exact Hcfg|exact Hsp].
Defined.

(** Counterexample for C7: from a fresh engine, registering sequence ["s"]
    and starting ["rainbow"] with a request of speed 200 and intensity 200
    succeeds and installs the config unchanged, and its frames drive a
    channel to 510, past the 0-255 range. *)
Lemma unclamped_request_installed :
  effect_config_of_request (mkConfigRequest (Some 200%Z) (Some 200%Z) None None None [])
    = Returns (mkEffectConfig 200 200 "rainbow" false false) /\
  exists st, reachable st /\ pc st = Finished (Returns tt) /\
    dict_get "s"%string (running st) = Some ("rainbow"%string, mkEffectConfig 200 200 "rainbow" false false, 0%nat) /\
    rainbow_generate_frame default_palettes ["a"%string] (mkEffectConfig 200 200 "rainbow" false false) 0
      = Returns [("a"%string, [510; 0; 0]%Z)].
Proof.
  split; [reflexivity|].
  pose (cfg := mkEffectConfig 200 200 "rainbow" false false).
  pose (lm1 := mkLightManager [("s"%string, new_sequence "s" [])] []).
  pose (st1 := set_lm init_engine lm1).
  pose (st2 := begin_start st1 "s" "rainbow" cfg).
  exists (mkEngine [("s"%string, ("rainbow"%string, cfg, 0%nat))] [mkTask 0 "s" Live] 1 lm1
            (Finished (Returns tt)) []).
  split; [|split; [reflexivity|split; [reflexivity|vm_compute; reflexivity]]].
  apply (reach_step st2); [apply (reach_step st1); [apply (reach_step init_engine); [constructor|]|]|].
  - apply step_call.
    apply (call_create init_engine (fun _ => None) 0 "s" [] (Returns (new_sequence "s" [])) 0 lm1);
      reflexivity.
  - apply step_call. apply call_start. reflexivity.
  - apply step_run, run_caller. reflexivity.
Qed.

(** ** The scheduler invariant *)

Lemma find_task_some tid ts t : find_task tid ts = Some t -> In t ts /\ task_id t = tid.
Proof.
  unfold find_task. intros H. apply find_some in H as [Hin Heq].
  apply Nat.eqb_eq in Heq. now split.
Qed.

Lemma task_unique ts T1 T2 :
  NoDup (map task_id ts) -> In T1 ts -> In T2 ts -> task_id T1 = task_id T2 -> T1 = T2.
Proof.
  induction ts as [|T ts IH]; simpl; [tauto|]. intros Hnd H1 H2 Heq.
  inversion Hnd as [|? ? Hnotin Hnd']; subst.
  destruct H1 as [<-|H1], H2 as [<-|H2]; try reflexivity.
  - exfalso. apply Hnotin. rewrite Heq. now apply in_map.
  - exfalso. apply Hnotin. rewrite <- Heq. now apply in_map.
  - now apply IH.
Qed.

Lemma find_task_in tid ts T :
  NoDup (map task_id ts) -> In T ts -> task_id T = tid -> find_task tid ts = Some T.
Proof.
  intros Hnd Hin Hid. destruct (find_task tid ts) as [t|] eqn:Hf.
  - apply find_task_some in Hf as [Ht Htid]. f_equal. apply (task_unique ts); congruence.
  - exfalso. unfold find_task in Hf. apply (find_none _ _ Hf) in Hin.
    rewrite Hid, Nat.eqb_refl in Hin. discriminate.
Qed.

Lemma map_id_set_status tid f ts : map task_id (set_status tid f ts) = map task_id ts.
Proof.
  unfold set_status. rewrite map_map. apply map_ext. intros t.
  now destruct (Nat.eqb (task_id t) tid).
Qed.

Lemma in_set_status tid f ts T' :
  In T' (set_status tid f ts) ->
  exists T, In T ts /\ task_id T' = task_id T /\ task_seq T' = task_seq T /\
    ((task_id T = tid /\ status T' = f (status T)) \/ (task_id T <> tid /\ T' = T)).
Proof.
  unfold set_status. intros H. apply in_map_iff in H as [T [<- Hin]].
  exists T. split; [exact Hin|].
  destruct (Nat.eqb_spec (task_id T) tid); simpl; repeat split; auto.
Qed.

Lemma in_set_status_inv tid f ts T :
  In T ts ->
  exists T', In T' (set_status tid f ts) /\ task_id T' = task_id T /\ task_seq T' = task_seq T /\
    (task_id T = tid -> status T' = f (status T)) /\ (task_id T <> tid -> T' = T).
Proof.
  intros Hin. unfold set_status.
  exists (if Nat.eqb (task_id T) tid then mkTask (task_id T) (task_seq T) (f (status T)) else T).
  split; [apply in_map_iff; eauto|].
  destruct (Nat.eqb_spec (task_id T) tid); simpl; repeat split; auto; congruence.
Qed.

Lemma find_task_set_status tid tid' f ts :
  find_task tid (set_status tid' f ts) =
  option_map (fun t => if Nat.eqb (task_id t) tid' then mkTask (task_id t) (task_seq t) (f (status t)) else t)
    (find_task tid ts).
Proof.
  induction ts as [|t ts IH]; [reflexivity|]. unfold find_task in *. simpl.
  destruct (Nat.eqb (task_id t) tid') eqn:E1; simpl;
    destruct (Nat.eqb (task_id t) tid) eqn:E2; simpl; rewrite ?E1; auto.
Qed.

Lemma trace_prefix_frame (E tr l1 l2 : list event) t1 x :
  (forall ev, In ev E -> forall t y, ev <> Frame t y) ->
  E ++ tr = l1 ++ Frame t1 x :: l2 -> exists l1', tr = l1' ++ Frame t1 x :: l2.
Proof.
  revert l1. induction E as [|ev E IH]; intros l1 HE Heq; [now exists l1|].
  destruct l1 as [|ev' l1]; simpl in Heq; injection Heq as Hev Heq.
  - exfalso. apply (HE ev (or_introl eq_refl) t1 x Hev).
  - apply (IH l1); [intros ev0 Hin; apply HE; now right|exact Heq].
Qed.

Lemma inv_init : engine_inv init_engine.
Proof.
  constructor; simpl; try tauto; try (intros; discriminate); try constructor.
  intros l1 l2 t1 t2 x y T1 T2 _ _ [].
Qed.

(** A step that ends a task ([task_fail], [task_cancelled]). *)
Lemma inv_task_done st tid f :
  engine_inv st -> (forall x, f x = Cancelled \/ f x = Failed) ->
  engine_inv (set_tasks st (set_status tid f (tasks st))).
Proof.
  intros Hi Hf. destruct Hi. constructor; simpl.
  - now rewrite map_id_set_status.
  - intros T' H. apply in_set_status in H as (T & Hin & -> & _). auto.
  - assumption.
  - intros T' H Hl. apply in_set_status in H as (T & Hin & -> & -> & [[_ Hs]|[_ ->]]).
    + destruct (Hf (status T)); congruence.
    + auto.
  - intros T' H Hl. apply in_set_status in H as (T & Hin & -> & -> & [[_ Hs]|[_ ->]]).
    + destruct (Hf (status T)); congruence.
    + auto.
  - intros T1' T2' H1 H2 Hs Hlt.
    apply in_set_status in H1 as (T1 & Hin1 & Hid1 & Hs1 & [[_ ->]|[_ ->]]); [apply Hf|].
    apply in_set_status in H2 as (T2 & Hin2 & Hid2 & Hs2 & _).
    apply (inv_older_done0 T1 T2); congruence.
  - intros s e cfg t H. destruct (inv_record_task0 s e cfg t H) as (T & Hin & Hid & Hs).
    destruct (in_set_status_inv tid f _ T Hin) as (T' & Hin' & Hid' & Hs' & _).
    exists T'. repeat split; congruence.
  - assumption.
  - assumption.
  - intros t x H. destruct (inv_frames0 t x H) as (T & Hin & Hid).
    destruct (in_set_status_inv tid f _ T Hin) as (T' & Hin' & Hid' & _).
    exists T'. split; congruence.
  - intros l1 l2 t1 t2 x y T1' T2' Htr Hin H1 H2 Hid1 Hid2 Hs.
    apply in_set_status in H1 as (T1 & Hin1 & Hi1 & Hs1 & _).
    apply in_set_status in H2 as (T2 & Hin2 & Hi2 & Hs2 & _).
    apply (inv_trace0 l1 l2 t1 t2 x y T1 T2); auto; congruence.
Qed.

Lemma inv_task_frame st T light :
  engine_inv st -> In T (tasks st) -> status T = Live ->
  engine_inv (set_trace st (Frame (task_id T) light :: trace st)).
Proof.
  intros Hi HT HL. destruct Hi. constructor; simpl; try assumption.
  - intros t x [H|H].
    + injection H as <- _. eauto.
    + eauto.
  - intros l1 l2 t1 t2 x y T1 T2 Htr Hin H1 H2 Hid1 Hid2 Hs. simpl in *.
    destruct l1 as [|ev l1]; simpl in Htr.
    + injection Htr as <- _ Htr. subst l2.
      assert (T1 = T) as -> by (apply (task_unique (tasks st)); congruence).
      destruct (Nat.le_gt_cases t2 (task_id T)) as [Hle|Hgt]; [exact Hle|exfalso].
      destruct (inv_older_done0 T T2) as [Hc|Hc]; auto; congruence.
    + injection Htr as _ Htr. apply (inv_trace0 l1 l2 t1 t2 x y T1 T2); auto.
Qed.

Lemma awaiting_det c s tid s' tid' :
  awaiting c s tid -> awaiting c s' tid' -> s = s' /\ tid = tid'.
Proof. destruct c; simpl; intuition congruence. Qed.

(** Once the awaited task is no longer [Cancelling], no task is. *)
Lemma no_cancelling st s tid t :
  engine_inv st -> awaiting (pc st) s tid -> find_task tid (tasks st) = Some t ->
  status t <> Cancelling -> forall T, In T (tasks st) -> status T <> Cancelling.
Proof.
  intros Hi Haw Hf Hs T Hin Hc.
  destruct (awaiting_det _ _ _ _ _ Haw (inv_cancelling st Hi T Hin Hc)) as [_ Hid].
  apply find_task_some in Hf as [Hint Htid].
  assert (T = t) as -> by (apply (task_unique (tasks st)); [apply Hi|assumption|assumption|congruence]).
  contradiction.
Qed.

Lemma no_cancelling_idle st :
  engine_inv st -> (forall s tid, ~ awaiting (pc st) s tid) ->
  forall T, In T (tasks st) -> status T <> Cancelling.
Proof.
  intros Hi Hn T Hin Hc. exact (Hn _ _ (inv_cancelling st Hi T Hin Hc)).
Qed.

(** A move of the in-flight call that changes nothing else. *)
Lemma inv_set_pc st c :
  engine_inv st -> (forall T, In T (tasks st) -> status T <> Cancelling) ->
  pc_ok c (running st) -> engine_inv (set_pc st c).
Proof.
  intros Hi Hn Hpc. destruct Hi. constructor; simpl; try assumption.
  intros T Hin Hc. exfalso. exact (Hn T Hin Hc).
Qed.

(** Commands other than light updates added to the trace. *)
Lemma inv_prepend st E :
  engine_inv st -> (forall ev, In ev E -> forall t y, ev <> Frame t y) ->
  engine_inv (set_trace st (E ++ trace st)).
Proof.
  intros Hi HE. destruct Hi. constructor; simpl; try assumption.
  - intros t x H. apply in_app_or in H as [H|H].
    + exfalso. exact (HE _ H t x eq_refl).
    + eauto.
  - intros l1 l2 t1 t2 x y T1 T2 Htr Hin H1 H2 Hid1 Hid2 Hs. simpl in *.
    destruct (trace_prefix_frame E (trace st) l1 l2 t1 x HE Htr) as [l1' Htr'].
    apply (inv_trace0 l1' l2 t1 t2 x y T1 T2); auto.
Qed.

Lemma inv_turn_off st s k :
  engine_inv st -> (forall T, In T (tasks st) -> status T <> Cancelling) ->
  pc_ok k (running st) -> engine_inv (turn_off_sequence st s k).
Proof.
  intros Hi Hn Hpc. unfold turn_off_sequence.
  destruct (get_sequence (lm st) s) as [sq|].
  - apply (inv_set_pc (set_trace st (rev (map TurnOff (light_ids sq)) ++ trace st)));
      [apply inv_prepend; [exact Hi|]|exact Hn|exact Hpc].
    intros ev Hin t y ->. apply in_rev, in_map_iff in Hin as [l [Hl _]]. discriminate.
  - apply inv_set_pc; simpl; auto.
Qed.

(** [await task] returned and the record was deleted. *)
Lemma inv_await_del st s tid t k :
  engine_inv st -> awaiting (pc st) s tid -> find_task tid (tasks st) = Some t ->
  status t = Cancelled -> (forall rn, dict_get s rn = None -> pc_ok k rn) ->
  engine_inv (set_pc (set_running st (dict_del s (running st))) k).
Proof.
  intros Hi Haw Hf Hst Hk.
  pose proof (no_cancelling st s tid t Hi Haw Hf ltac:(congruence)) as Hn.
  assert (Hrec : exists e cfg, dict_get s (running st) = Some (e, cfg, tid)).
  { pose proof (inv_pc st Hi) as Hp. destruct (pc st); simpl in Haw, Hp; try contradiction;
      destruct Haw as [<- <-]; exact Hp. }
  apply find_task_some in Hf as [Hint Htid].
  destruct Hi. constructor; simpl; try assumption.
  - now apply dict_keys_del.
  - intros T Hin Hl. destruct (String.eqb_spec s (task_seq T)) as [Hs|Hs].
    + exfalso. destruct (inv_live_recorded0 T Hin Hl) as (e & cfg & Hr).
      destruct Hrec as (e' & cfg' & Hr'). rewrite <- Hs in Hr. rewrite Hr in Hr'.
      injection Hr' as _ _ Hid.
      assert (T = t) as -> by (apply (task_unique (tasks st)); congruence). congruence.
    + rewrite dict_get_del_ne by exact Hs. auto.
  - intros T Hin Hc. exfalso. exact (Hn T Hin Hc).
  - intros s' e cfg t' H. destruct (String.eqb_spec s s') as [<-|Hs].
    + rewrite dict_get_del_eq in H by assumption. discriminate.
    + rewrite dict_get_del_ne in H by exact Hs. eauto.
  - intros s' r H. destruct (String.eqb_spec s s') as [<-|Hs].
    + rewrite dict_get_del_eq in H by assumption. discriminate.
    + rewrite dict_get_del_ne in H by exact Hs. eauto.
  - apply Hk. now apply dict_get_del_eq.
Qed.

Lemma nodup_snoc {A} (l : list A) x : NoDup l -> ~ In x l -> NoDup (l ++ [x]).
Proof.
  induction l as [|a l IH]; simpl; intros Hnd Hx.
  - constructor; [tauto|constructor].
  - inversion Hnd; subst. constructor.
    + rewrite in_app_iff. simpl. intuition.
    + apply IH; tauto.
Qed.

Lemma frame_in_trace st l1 l2 t x : trace st = l1 ++ Frame t x :: l2 -> In (Frame t x) (trace st).
Proof. intros ->. apply in_or_app. simpl. tauto. Qed.

Lemma frame_in_tail st l1 l2 t x ev : trace st = l1 ++ ev :: l2 -> In (Frame t x) l2 -> In (Frame t x) (trace st).
Proof. intros -> H. apply in_or_app. simpl. tauto. Qed.

(** The install step of [start_effect]: [asyncio.create_task] and the new
    [_running_effects] record. *)
Lemma inv_install st s e cfg sq :
  engine_inv st -> pc st = StartInstall s e cfg -> get_sequence (lm st) s = Some sq ->
  engine_inv (mkEngine (dict_set s (e, cfg, next_tid st) (running st))
                (tasks st ++ [mkTask (next_tid st) s Live]) (S (next_tid st)) (lm st)
                (Finished (Returns tt)) (trace st)).
Proof.
  intros Hi Hpc Hsq.
  assert (Hnone : dict_get s (running st) = None) by (pose proof (inv_pc st Hi) as P; now rewrite Hpc in P).
  assert (Hnc : forall T, In T (tasks st) -> status T <> Cancelling)
    by (apply no_cancelling_idle; [exact Hi|]; rewrite Hpc; simpl; tauto).
  assert (Hdone : forall T, In T (tasks st) -> task_seq T = s -> status T = Cancelled \/ status T = Failed).
  { intros T Hin Hs. destruct (status T) eqn:E.
    - destruct (inv_live_recorded st Hi T Hin E) as (e' & c' & Hr). congruence.
    - exfalso. exact (Hnc T Hin E).
    - now left.
    - now right. }
  pose proof (inv_ids_fresh st Hi) as Hfr.
  destruct Hi. constructor; simpl.
  - rewrite map_app. apply nodup_snoc; [assumption|].
    intros Hin. apply in_map_iff in Hin as [T [Hid Hin]]. specialize (Hfr T Hin). simpl in Hid. lia.
  - intros T Hin. apply in_app_or in Hin as [Hin|[<-|[]]]; simpl; [specialize (Hfr T Hin)|]; lia.
  - now apply dict_keys_set.
  - intros T Hin Hl. apply in_app_or in Hin as [Hin|[<-|[]]].
    + destruct (String.eqb_spec s (task_seq T)) as [Hs|Hs].
      * destruct (Hdone T Hin (eq_sym Hs)); congruence.
      * rewrite dict_get_set_ne by exact Hs. auto.
    + simpl. rewrite dict_get_set_eq. eauto.
  - intros T Hin Hc. apply in_app_or in Hin as [Hin|[<-|[]]]; [exfalso; exact (Hnc T Hin Hc)|discriminate].
  - intros T1 T2 H1 H2 Hs Hlt.
    apply in_app_or in H1 as [H1|[<-|[]]]; apply in_app_or in H2 as [H2|[<-|[]]]; simpl in *.
    + now apply (inv_older_done0 T1 T2).
    + apply Hdone; auto.
    + specialize (Hfr T2 H2). lia.
    + lia.
  - intros s' e' c' t' H. destruct (String.eqb_spec s s') as [<-|Hs].
    + rewrite dict_get_set_eq in H. injection H as <- <- <-.
      exists (mkTask (next_tid st) s Live). simpl. rewrite in_app_iff. simpl. tauto.
    + rewrite dict_get_set_ne in H by exact Hs.
      destruct (inv_record_task0 s' e' c' t' H) as (T & Hin & Hid & Hseq).
      exists T. rewrite in_app_iff. tauto.
  - intros s' r H. destruct (String.eqb_spec s s') as [<-|Hs].
    + congruence.
    + rewrite dict_get_set_ne in H by exact Hs. eauto.
  - exact I.
  - intros t x H. destruct (inv_frames0 t x H) as (T & Hin & Hid). exists T. rewrite in_app_iff. tauto.
  - intros l1 l2 t1 t2 x y T1 T2 Htr Hin H1 H2 Hid1 Hid2 Hs. simpl in *.
    assert (Hold : forall T t, In T (tasks st ++ [mkTask (next_tid st) s Live]) -> task_id T = t ->
              (exists z, In (Frame t z) (trace st)) -> In T (tasks st)).
    { intros T t HT Ht [z Hz]. apply in_app_or in HT as [HT|[<-|[]]]; [exact HT|].
      exfalso. destruct (inv_frames0 t z Hz) as (T' & Hin' & Hid'). specialize (Hfr T' Hin').
      simpl in Ht. lia. }
    apply (inv_trace0 l1 l2 t1 t2 x y T1 T2); auto.
    + apply (Hold T1 t1 H1 Hid1). exists x. now apply (frame_in_trace st l1 l2).
    + apply (Hold T2 t2 H2 Hid2). exists y. now apply (frame_in_tail st l1 l2 t2 y (Frame t1 x)).
Qed.

Lemma inv_await_step st s tid k st' :
  engine_inv st -> awaiting (pc st) s tid ->
  (forall rn, dict_get s rn = None -> pc_ok k rn) ->
  await_task st s tid k = Some st' -> engine_inv st'.
Proof.
  intros Hi Haw Hk. unfold await_task.
  destruct (find_task tid (tasks st)) as [t|] eqn:Hf; [|discriminate].
  destruct (status t) eqn:Hs; try discriminate.
  - destruct (dict_get s (running st)) eqn:Hr; intros [= <-].
    + now apply (inv_await_del st s tid t).
    + apply inv_set_pc; [exact Hi| |exact I].
      apply (no_cancelling st s tid t Hi Haw Hf). congruence.
  - intros [= <-]. apply inv_set_pc; [exact Hi| |exact I].
    apply (no_cancelling st s tid t Hi Haw Hf). congruence.
Qed.

Lemma inv_caller_step st st' : engine_inv st -> caller_step st = Some st' -> engine_inv st'.
Proof.
  intros Hi. unfold caller_step. destruct (pc st) eqn:Hpc; try discriminate.
  - apply (inv_await_step st s tid); [exact Hi|rewrite Hpc; simpl; tauto|now simpl].
  - intros [= <-]. apply inv_turn_off; [exact Hi| |].
    + apply no_cancelling_idle; [exact Hi|]. rewrite Hpc. simpl. tauto.
    + pose proof (inv_pc st Hi) as P. rewrite Hpc in P. exact P.
  - destruct (get_sequence (lm st) s) as [sq|] eqn:Hsq.
    + destruct (effect_known e); intros [= <-].
      * now apply (inv_install st s e cfg sq).
      * apply inv_set_pc; [exact Hi| |exact I].
        apply no_cancelling_idle; [exact Hi|]. rewrite Hpc. simpl. tauto.
    + intros [= <-]. apply inv_set_pc; [exact Hi| |exact I].
      apply no_cancelling_idle; [exact Hi|]. rewrite Hpc. simpl. tauto.
  - apply (inv_await_step st s tid); [exact Hi|rewrite Hpc; simpl; tauto|now simpl].
  - intros [= <-]. apply inv_turn_off; [exact Hi| |exact I].
    apply no_cancelling_idle; [exact Hi|]. rewrite Hpc. simpl. tauto.
Qed.

Lemma inv_task_step st st' : engine_inv st -> task_step st st' -> engine_inv st'.
Proof.
  intros Hi Hs. destruct Hs as [st T light HT HL|st T HT HL|st T HT HC].
  - now apply inv_task_frame.
  - apply inv_task_done; [exact Hi|]. intros _. now right.
  - apply inv_task_done; [exact Hi|]. intros _. now left.
Qed.

(** The synchronous prefix of [stop_effect], from an idle caller. *)
Lemma inv_stop_prefix st s ap k :
  engine_inv st -> caller_idle (pc st) = true ->
  (forall tid, awaiting (ap tid) s tid) ->
  (forall rn tid e cfg, dict_get s rn = Some (e, cfg, tid) -> pc_ok (ap tid) rn) ->
  (forall rn, dict_get s rn = None -> pc_ok k rn) ->
  engine_inv (stop_prefix st s ap k).
Proof.
  intros Hi Hidle Hap Hapok Hk.
  assert (Hnc : forall T, In T (tasks st) -> status T <> Cancelling).
  { apply no_cancelling_idle; [exact Hi|]. intros s' t'.
    destruct (pc st); simpl in *; try discriminate; tauto. }
  unfold stop_prefix. destruct (dict_get s (running st)) as [[[e0 c0] tid]|] eqn:Hr.
  - destruct (inv_record_task st Hi s e0 c0 tid Hr) as (Tr & HinTr & HidTr & HsTr).
    destruct Hi. constructor; simpl.
    + now rewrite map_id_set_status.
    + intros T' H. apply in_set_status in H as (T & Hin & -> & _). auto.
    + assumption.
    + intros T' H Hl. apply in_set_status in H as (T & Hin & -> & -> & [[_ Hs]|[_ ->]]).
      * rewrite Hs in Hl. destruct (status T); simpl in Hl; discriminate.
      * auto.
    + intros T' H Hc. apply in_set_status in H as (T & Hin & -> & -> & [[Hid Hs]|[_ ->]]).
      * assert (T = Tr) as -> by (apply (task_unique (tasks st)); congruence).
        rewrite HsTr, Hid. apply Hap.
      * exfalso. exact (Hnc T Hin Hc).
    + intros T1' T2' H1 H2 Hs Hlt.
      apply in_set_status in H1 as (T1 & Hin1 & Hid1 & Hs1 & Hst1).
      apply in_set_status in H2 as (T2 & Hin2 & Hid2 & Hs2 & _).
      destruct (inv_older_done0 T1 T2) as [Hd|Hd]; try congruence;
        destruct Hst1 as [[_ ->]|[_ ->]]; rewrite Hd; simpl; tauto.
    + intros s' e cfg t H. destruct (inv_record_task0 s' e cfg t H) as (T & Hin & Hid & Hs).
      destruct (in_set_status_inv tid cancel_status _ T Hin) as (T' & Hin' & Hid' & Hs' & _).
      exists T'. repeat split; congruence.
    + assumption.
    + now apply (Hapok _ _ e0 c0).
    + intros t x H. destruct (inv_frames0 t x H) as (T & Hin & Hid).
      destruct (in_set_status_inv tid cancel_status _ T Hin) as (T' & Hin' & Hid' & _).
      exists T'. split; congruence.
    + intros l1 l2 t1 t2 x y T1' T2' Htr Hin H1 H2 Hid1 Hid2 Hs. simpl in *.
      apply in_set_status in H1 as (T1 & Hin1 & Hi1 & Hs1 & _).
      apply in_set_status in H2 as (T2 & Hin2 & Hi2 & Hs2 & _).
      apply (inv_trace0 l1 l2 t1 t2 x y T1 T2); auto; congruence.
  - apply inv_set_pc; [exact Hi|exact Hnc|now apply Hk].
Qed.

(** [create_sequence] never removes a registered sequence. *)
Lemma create_sequence_keeps api name ids k lm r k' lm' :
  create_sequence api name ids (k, lm) = (r, (k', lm')) ->
  forall n, get_sequence lm n <> None -> get_sequence lm' n <> None.
Proof.
  intros Hrun n Hn. unfold create_sequence, lm_bind in Hrun.
  destruct (fetch_all api ids (new_sequence name ids) (k, lm)) as [r1 [k1 lm1]] eqn:H1.
  apply fetch_all_spec in H1 as [Hs1 _]. unfold get_sequence in *.
  destruct r1 as [sq1|e1].
  - unfold lm_modify, lm_ret in Hrun. injection Hrun as <- <- <-. simpl. rewrite Hs1.
    destruct (String.eqb_spec name n) as [<-|Hne].
    + now rewrite dict_get_set_eq.
    + now rewrite dict_get_set_ne.
  - injection Hrun as <- <- <-. now rewrite Hs1.
Qed.

Lemma inv_call_step st st' : engine_inv st -> call_step st st' -> engine_inv st'.
Proof.
  intros Hi Hc. destruct Hc as [st s e cfg Hidle|st s Hidle|st api k name ids r k' lm' Hidle Hcr].
  - apply inv_stop_prefix; auto.
    + intros tid. simpl. tauto.
    + intros rn tid e0 c0 H. simpl. eauto.
  - apply inv_stop_prefix; auto.
    + intros tid. simpl. tauto.
    + intros rn tid e0 c0 H. simpl. eauto.
    + intros. exact I.
  - destruct Hi. constructor; simpl; try assumption.
    intros s r0 H. apply (create_sequence_keeps api name ids k (lm st) r k' lm' Hcr).
    eauto.
Qed.

Lemma inv_run_step st st' : engine_inv st -> run_step st st' -> engine_inv st'.
Proof.
  intros Hi [Ht|Hc]; [now apply (inv_task_step st)|now apply (inv_caller_step st)].
Qed.

Lemma inv_reachable st : reachable st -> engine_inv st.
Proof.
  induction 1 as [|st st' _ IH [Hr|Hc]].
  - exact inv_init.
  - now apply (inv_run_step st).
  - now apply (inv_call_step st).
Qed.

Lemma reachable_run_steps st st' : reachable st -> run_steps st st' -> reachable st'.
Proof.
  intros Hr Hs. induction Hs as [|st st' st'' H _ IH]; [exact Hr|].
  apply IH. apply (reach_step st); [exact Hr|]. now apply step_run.
Qed.

(** ** C2: one running effect per sequence *)

(** C2. In every reachable state of the engine: [_running_effects] holds
    at most one record per sequence name; at most one live effect task
    runs per sequence; a light update of an older task of a sequence is
    never issued after one of a newer task of the same sequence (so no
    frame of a superseded effect follows the new effect's first frame);
    and when [start_effect] installs its effect, the sequence has exactly
    the new record and every other task of that sequence has finished
    (cancelled and awaited, or failed). *)
Theorem at_most_one_running_effect (st : Engine) :
  reachable st ->
  NoDup (map fst (running st)) /\
  (forall T1 T2, In T1 (tasks st) -> In T2 (tasks st) -> task_seq T1 = task_seq T2 ->
     status T1 = Live -> status T2 = Live -> T1 = T2) /\
  (forall l1 l2 x y T1 T2,
     trace st = l1 ++ Frame (task_id T1) x :: l2 -> In (Frame (task_id T2) y) l2 ->
     In T1 (tasks st) -> In T2 (tasks st) -> task_seq T1 = task_seq T2 ->
     ~ (task_id T1 < task_id T2)%nat) /\
  (forall st' s e cfg,
     pc st = StartInstall s e cfg -> caller_step st = Some st' -> pc st' = Finished (Returns tt) ->
     dict_get s (running st') = Some (e, cfg, next_tid st) /\
     (forall T, In T (tasks st') -> task_seq T = s -> task_id T <> next_tid st ->
        status T = Cancelled \/ status T = Failed)).
Proof.
  intros Hr. pose proof (inv_reachable st Hr) as Hi.
  split; [apply Hi|split; [|split]].
  - intros T1 T2 H1 H2 Hs L1 L2.
    destruct (Nat.lt_total (task_id T1) (task_id T2)) as [Hlt|[Heq|Hgt]].
    + destruct (inv_older_done st Hi T1 T2) as [Hd|Hd]; auto; congruence.
    + apply (task_unique (tasks st)); auto. apply Hi.
    + destruct (inv_older_done st Hi T2 T1) as [Hd|Hd]; auto; congruence.
  - intros l1 l2 x y T1 T2 Htr Hin H1 H2 Hs Hlt.
    pose proof (inv_trace st Hi l1 l2 (task_id T1) (task_id T2) x y T1 T2 Htr Hin H1 H2
                  eq_refl eq_refl Hs). lia.
  - intros st' s e cfg Hpc Hstep Hfin.
    assert (Hr' : reachable st') by (apply (reach_step st); [exact Hr|apply step_run, run_caller, Hstep]).
    pose proof (inv_reachable st' Hr') as Hi'.
    unfold caller_step in Hstep. rewrite Hpc in Hstep.
    destruct (get_sequence (lm st) s) as [sq|];
      [destruct (effect_known e)|]; injection Hstep as <-; try discriminate.
    split; [apply dict_get_set_eq|].
    intros T Hin Hs Hne.
    apply (inv_older_done _ Hi' T (mkTask (next_tid st) s Live)); simpl; auto.
    + apply in_or_app. simpl. tauto.
    + simpl in Hin. apply in_app_or in Hin as [Hin|[<-|[]]]; [|simpl in Hne; congruence].
      apply (inv_ids_fresh st Hi T Hin).
Qed.

(** Witness for C2: "twinkle" replaces the running "rainbow" effect of
    the sequence "s", whose live task 0 has sent a frame; at the install
    step, "s" has the one new record and task 0 has been cancelled. *)
Lemma at_most_one_running_effect_witness :
  In (mkTask 0 "s"%string Live) (tasks c2_framed) /\
  reachable c2_turned_off /\
  In (Frame 0 "a"%string) (trace c2_turned_off) /\
  dict_get "s"%string (running c2_replaced) = Some ("twinkle"%string, default_config, next_tid c2_turned_off) /\
  (forall T, In T (tasks c2_replaced) -> task_seq T = "s"%string ->
     task_id T <> next_tid c2_turned_off -> status T = Cancelled \/ status T = Failed).
Proof.
  assert (Hr : reachable c2_turned_off).
  { apply (reach_step (step_or_stay c2_cancelled)); [|apply step_run, run_caller; vm_compute; reflexivity].
    apply (reach_step c2_cancelled); [|apply step_run, run_caller; vm_compute; reflexivity].
    apply (reach_step c2_stopping).
    2:{ apply step_run, run_task. apply (task_cancelled c2_stopping (mkTask 0 "s"%string Cancelling));
        [vm_compute; left; reflexivity | reflexivity]. }
    apply (reach_step c2_framed); [|apply step_call, call_start; reflexivity].
    apply (reach_step c2_installed).
    2:{ apply step_run, run_task. apply (task_frame c2_installed (mkTask 0 "s"%string Live) "a"%string);
        [vm_compute; left; reflexivity | reflexivity]. }
    apply (reach_step (begin_start c2_created "s"%string "rainbow"%string default_config));
      [|apply step_run, run_caller; vm_compute; reflexivity].
    apply (reach_step c2_created); [|apply step_call, call_start; reflexivity].
    apply (reach_step init_engine); [constructor|]. apply step_call.
    apply (call_create init_engine demo_state_api 0 "s"%string ["a"%string]
             (fst (create_sequence demo_state_api "s"%string ["a"%string] (0%nat, lm init_engine)))
             (fst (snd (create_sequence demo_state_api "s"%string ["a"%string] (0%nat, lm init_engine))))
             (snd (snd (create_sequence demo_state_api "s"%string ["a"%string] (0%nat, lm init_engine)))));
      [reflexivity | vm_compute; reflexivity]. }
  split; [vm_compute; left; reflexivity|]. split; [exact Hr|].
  split; [vm_compute; right; left; reflexivity|].
  exact (proj2 (proj2 (proj2 (at_most_one_running_effect c2_turned_off Hr)))
           c2_replaced "s"%string "twinkle"%string default_config
           ltac:(vm_compute; reflexivity) ltac:(vm_compute; reflexivity) ltac:(vm_compute; reflexivity)).
Defined.

(** ** C9: [start_effect] with an unknown effect *)

Lemma found_after_set_status tid tid' f ts T :
  find_task tid ts = Some T ->
  exists T', find_task tid (set_status tid' f ts) = Some T' /\
    (tid' = tid -> status T' = f (status T)) /\ (tid' <> tid -> T' = T).
Proof.
  intros Hf. rewrite find_task_set_status, Hf. simpl.
  apply find_task_some in Hf as [_ Hid].
  eexists. split; [reflexivity|]. rewrite Hid.
  destruct (Nat.eqb_spec tid tid') as [<-|Hne]; simpl; split; intros; congruence.
Qed.

Lemma start_stage_step lm0 s e cfg tid sq st st' :
  get_sequence lm0 s = Some sq -> effect_known e = false ->
  start_stage lm0 s e cfg tid sq st -> run_step st st' -> start_stage lm0 s e cfg tid sq st'.
Proof.
  intros Hsq Hunk (Hi & Hlm & Hstage) Hstep.
  split; [exact (inv_run_step st st' Hi Hstep)|].
  assert (Hfound : exists T, find_task tid (tasks st) = Some T /\
                     (status T = Cancelling \/ status T = Cancelled))
    by (destruct Hstage as [(_ & T & H & Hs)|[(_ & _ & T & H & Hs)|(_ & (_ & T & H & Hs) & _)]];
        exists T; auto).
  destruct Hstep as [Ht|Hc].
  - destruct Ht as [st0 T0 light HT HL|st0 T0 HT HL|st0 T0 HT HC]; simpl; split; try exact Hlm.
    + unfold stopped, turned_off in *. simpl.
      destruct Hstage as [A|[B|(C1 & C2 & C3)]]; [left; exact A|right; left; exact B|].
      right; right. split; [exact C1|split; [exact C2|]]. intros l Hl. right. auto.
    + destruct Hfound as (T & Hf & HsT).
      assert (Hne : task_id T0 <> tid).
      { intros Hid. apply find_task_some in Hf as [HinT HidT].
        assert (T0 = T) by (apply (task_unique (tasks st0)); [apply Hi|assumption|assumption|congruence]).
        subst. destruct HsT; congruence. }
      destruct (found_after_set_status tid (task_id T0) (fun _ => Failed) (tasks st0) T Hf)
        as (T' & Hf' & _ & Heq). specialize (Heq Hne). subst T'.
      unfold stopped, turned_off in *. simpl.
      destruct Hstage as [(A1 & _)|[(B1 & B2 & (T2 & Hf2 & Hs2))|(C1 & (C2 & (T2 & Hf2 & Hs2)) & C3)]].
      * left. split; [exact A1|]. exists T. auto.
      * right; left. split; [exact B1|split; [exact B2|]]. exists T. split; [exact Hf'|congruence].
      * right; right. split; [exact C1|split; [split; [exact C2|]|exact C3]]. exists T.
        split; [exact Hf'|congruence].
    + destruct Hfound as (T & Hf & HsT).
      destruct (found_after_set_status tid (task_id T0) (fun _ => Cancelled) (tasks st0) T Hf)
        as (T' & Hf' & Heq1 & Heq2).
      assert (Hst' : status T' = Cancelled \/ T' = T).
      { destruct (Nat.eq_dec (task_id T0) tid) as [E|E]; [left; now apply Heq1|right; now apply Heq2]. }
      unfold stopped, turned_off in *. simpl.
      destruct Hstage as [(A1 & _)|[(B1 & B2 & (T2 & Hf2 & Hs2))|(C1 & (C2 & (T2 & Hf2 & Hs2)) & C3)]].
      * left. split; [exact A1|]. exists T'. split; [exact Hf'|].
        destruct Hst' as [H| ->]; [now right|exact HsT].
      * right; left. split; [exact B1|split; [exact B2|]]. exists T'. split; [exact Hf'|].
        destruct Hst' as [H| ->]; [exact H|congruence].
      * right; right. split; [exact C1|split; [split; [exact C2|]|exact C3]]. exists T'.
        split; [exact Hf'|]. destruct Hst' as [H| ->]; [exact H|congruence].
  - unfold caller_step in Hc.
    destruct Hstage as [(A1 & T & Hf & HsT)|[(B1 & B2)|([C1|C1] & C2 & C3)]];
      rewrite ?A1, ?B1, ?C1 in Hc.
    + unfold await_task in Hc. rewrite Hf in Hc.
      destruct HsT as [HsT|HsT]; rewrite HsT in Hc; [discriminate|].
      pose proof (inv_pc st Hi) as P. rewrite A1 in P. destruct P as (e0 & c0 & Hr).
      rewrite Hr in Hc. injection Hc as <-. simpl. split; [exact Hlm|].
      right; left. split; [reflexivity|]. unfold stopped. simpl.
      split; [apply dict_get_del_eq, Hi|]. eauto.
    + injection Hc as <-. unfold turn_off_sequence. rewrite Hlm, Hsq. simpl.
      split; [exact Hlm|]. right; right. split; [now left|].
      unfold stopped, turned_off in *. simpl. split; [exact B2|].
      intros l Hl. apply in_or_app. left. apply (proj1 (in_rev _ _)), in_map. exact Hl.
    + rewrite Hlm, Hsq, Hunk in Hc. injection Hc as <-. simpl.
      split; [exact Hlm|]. right; right. split; [now right|]. split; assumption.
    + discriminate.
Qed.

Lemma start_stage_run lm0 s e cfg tid sq st st' :
  get_sequence lm0 s = Some sq -> effect_known e = false ->
  run_steps st st' -> start_stage lm0 s e cfg tid sq st -> start_stage lm0 s e cfg tid sq st'.
Proof.
  intros Hsq Hunk Hs. induction Hs as [|st st' st'' H _ IH]; [tauto|].
  intros H0. apply IH. now apply (start_stage_step lm0 s e cfg tid sq st).
Qed.

Lemma begin_start_running st s e cfg e0 c0 tid :
  dict_get s (running st) = Some (e0, c0, tid) ->
  begin_start st s e cfg =
  set_pc (set_tasks st (set_status tid cancel_status (tasks st))) (StartAwait s e cfg tid).
Proof. intros Hr. unfold begin_start, stop_prefix. now rewrite Hr. Qed.

(** C9. Calling [start_effect(s, e, cfg)] with an effect name [e] that is
    not registered, while task [tid] runs the effect of sequence [s], first
    stops that effect: every run of the call that ends does so by raising
    the not-found [ValueError], and by then the task has been cancelled
    and awaited, its record deleted and every light of [s] sent a
    [turn_off]; such a run exists. Sequences are never removed from the
    registry, so the record's sequence is still registered. *)
Theorem start_unknown_effect_stops_first (st : Engine) s e cfg e0 c0 tid T :
  reachable st -> caller_idle (pc st) = true ->
  dict_get s (running st) = Some (e0, c0, tid) ->
  In T (tasks st) -> task_id T = tid -> status T = Live ->
  effect_known e = false ->
  (exists st', run_steps (begin_start st s e cfg) st' /\ pc st' = Finished (Raises ValueError)) /\
  (forall st' r, run_steps (begin_start st s e cfg) st' -> pc st' = Finished r ->
     r = Raises ValueError /\ dict_get s (running st') = None /\
     (exists T', find_task tid (tasks st') = Some T' /\ status T' = Cancelled) /\
     (exists sq, get_sequence (lm st) s = Some sq /\
        forall l, In l (light_ids sq) -> In (TurnOff l) (trace st'))).
Proof.
  intros Hr Hidle Hrec HT HTid HTl Hunk.
  pose proof (inv_reachable st Hr) as Hi.
  destruct (get_sequence (lm st) s) as [sq|] eqn:Hsq;
    [|exfalso; exact (inv_record_seq st Hi s _ Hrec Hsq)].
  assert (Hf : find_task tid (tasks st) = Some T) by (apply find_task_in; auto; apply Hi).
  destruct (found_after_set_status tid tid cancel_status (tasks st) T Hf) as (T1 & Hf1 & Hs1 & _).
  specialize (Hs1 eq_refl). rewrite HTl in Hs1. simpl in Hs1.
  assert (Hreach1 : reachable (begin_start st s e cfg))
    by (apply (reach_step st); [exact Hr|apply step_call, call_start, Hidle]).
  assert (Hstage : start_stage (lm st) s e cfg tid sq (begin_start st s e cfg)).
  { split; [exact (inv_reachable _ Hreach1)|].
    rewrite (begin_start_running st s e cfg e0 c0 tid Hrec). split; [reflexivity|].
    left. split; [reflexivity|]. exists T1. simpl. auto. }
  split.
  - rewrite (begin_start_running st s e cfg e0 c0 tid Hrec).
    set (st1 := set_pc (set_tasks st (set_status tid cancel_status (tasks st))) (StartAwait s e cfg tid)).
    pose proof (find_task_some _ _ _ Hf1) as [HinT1 HidT1].
    set (st2 := set_tasks st1 (set_status (task_id T1) (fun _ => Cancelled) (tasks st1))).
    destruct (found_after_set_status tid (task_id T1) (fun _ => Cancelled) (tasks st1) T1 Hf1)
      as (T2 & Hf2 & Hs2 & _).
    specialize (Hs2 HidT1).
    set (st3 := set_pc (set_running st2 (dict_del s (running st2))) (StartTurnOff s e cfg)).
    set (st4 := set_pc (set_trace st3 (rev (map TurnOff (light_ids sq)) ++ trace st3))
                  (StartInstall s e cfg)).
    exists (set_pc st4 (Finished (Raises ValueError))). split; [|reflexivity].
    apply (run_trans st1 st2); [apply run_task, (task_cancelled st1 T1); assumption|].
    apply (run_trans st2 st3).
    { apply run_caller. unfold caller_step, await_task. change (pc st2) with (StartAwait s e cfg tid).
      cbv iota. change (tasks st2) with
        (set_status (task_id T1) (fun _ => Cancelled) (tasks st1)).
      rewrite Hf2, Hs2. change (running st2) with (running st). now rewrite Hrec. }
    apply (run_trans st3 st4).
    { apply run_caller. unfold caller_step. change (pc st3) with (StartTurnOff s e cfg).
      cbv iota. unfold turn_off_sequence. change (lm st3) with (lm st). now rewrite Hsq. }
    apply (run_trans st4 (set_pc st4 (Finished (Raises ValueError)))); [|apply run_refl].
    apply run_caller. unfold caller_step. change (pc st4) with (StartInstall s e cfg).
    cbv iota. change (lm st4) with (lm st). now rewrite Hsq, Hunk.
  - intros st' r Hrun Hfin.
    destruct (start_stage_run (lm st) s e cfg tid sq _ st' Hsq Hunk Hrun Hstage)
      as (_ & _ & [(A1 & _)|[(B1 & _)|(C1 & (C2 & C3) & C4)]]); try congruence.
    destruct C1 as [C1|C1]; [congruence|].
    rewrite Hfin in C1. injection C1 as ->.
    split; [reflexivity|split; [exact C2|split; [exact C3|]]]. eauto.
Qed.

(** Witness for C9: sequence ["s"] runs ["rainbow"] in task 0 and
    ["strobe"] is requested. *)
Lemma start_unknown_effect_stops_first_witness :
  reachable (mkEngine [("s"%string, ("rainbow"%string, default_config, 0%nat))]
               [mkTask 0 "s" Live] 1 (mkLightManager [("s"%string, new_sequence "s" [])] [])
               (Finished (Returns tt)) []) /\
  exists st', run_steps (begin_start (mkEngine [("s"%string, ("rainbow"%string, default_config, 0%nat))]
               [mkTask 0 "s" Live] 1 (mkLightManager [("s"%string, new_sequence "s" [])] [])
               (Finished (Returns tt)) []) "s" "strobe" default_config) st' /\
    pc st' = Finished (Raises ValueError).
Proof.
  assert (H : reachable (mkEngine [("s"%string, ("rainbow"%string, default_config, 0%nat))]
               [mkTask 0 "s" Live] 1 (mkLightManager [("s"%string, new_sequence "s" [])] [])
               (Finished (Returns tt)) [])).
  { apply (reach_step (begin_start (set_lm init_engine
             (mkLightManager [("s"%string, new_sequence "s" [])] [])) "s" "rainbow" default_config)).
    - apply (reach_step (set_lm init_engine (mkLightManager [("s"%string, new_sequence "s" [])] []))).
      + apply (reach_step init_engine); [constructor|]. apply step_call.
        apply (call_create init_engine (fun _ => None) 0 "s" [] (Returns (new_sequence "s" [])) 0);
          reflexivity.
      + apply step_call. apply call_start. reflexivity.
    - apply step_run, run_caller. reflexivity. }
  split; [exact H|].
  exact (proj1 (start_unknown_effect_stops_first _ "s" "strobe" default_config "rainbow" default_config
                  0 (mkTask 0 "s" Live) H eq_refl eq_refl (or_introl eq_refl) eq_refl eq_refl eq_refl)).
Defined.

(** ** Gradient palettes at their own stops, in exact arithmetic *)

Lemma py_int_sector x k : (0 <= k)%Z -> inject_Z k <= x < inject_Z k + 1 -> py_int x = k.
Proof.
  intros Hk [H1 H2]. unfold py_int.
  assert (Hx : 0 <= x).
  { apply Qle_trans with (inject_Z k); auto. change 0 with (inject_Z 0). rewrite <- Zle_Qle. lia. }
  destruct (Qltb x 0) eqn:E. { apply Qltb_iff in E. lra. }
  apply Qfloor_unique; auto. rewrite inject_Z_plus. exact H2.
Qed.

Lemma hsv_to_rgb_sector h s v k :
  (0 <= k <= 5)%Z -> inject_Z k <= h * 6 < inject_Z k + 1 -> ~ s == 0 ->
  hsv_to_rgb h s v = hsv_sector k (h * 6 - inject_Z k) s v.
Proof.
  intros Hk Hh Hs. unfold hsv_to_rgb, hsv_sector.
  destruct (Qeq_bool s 0) eqn:E. { apply Qeq_bool_iff in E. contradiction. }
  rewrite (py_int_sector (h * 6) k) by (tauto || lia).
  rewrite Z.mod_small by lia. reflexivity.
Qed.

Lemma py_fmod1_pos x : 0 <= x < 1 -> py_fmod x 1 == x.
Proof.
  intros Hx. unfold py_fmod.
  assert (E : x / 1 == x) by field.
  rewrite (Qfloor_unique 0 (x / 1)).
  - change (inject_Z 0) with 0. ring.
  - rewrite E. change (inject_Z 0) with 0. lra.
  - rewrite E. change (inject_Z (0 + 1)) with 1. lra.
Qed.

Lemma py_fmod1_neg x : -1 <= x < 0 -> py_fmod x 1 == x + 1.
Proof.
  intros Hx. unfold py_fmod.
  assert (E : x / 1 == x) by field.
  rewrite (Qfloor_unique (-1) (x / 1)).
  - change (inject_Z (-1)) with (-1). ring.
  - rewrite E. change (inject_Z (-1)) with (-1). lra.
  - rewrite E. change (inject_Z (-1 + 1)) with 0. lra.
Qed.

Ltac nz := repeat split; let H := fresh in intro H; lra.

Lemma rt_rmax r g b mx mn :
  mx == r -> mn < mx -> 0 < mx -> mn <= g -> mn <= b -> g <= mx -> b <= mx ->
  (mn == g \/ mn == b) ->
  triple_eq (hsv_to_rgb (py_fmod (((mx - b) / (mx - mn) - (mx - g) / (mx - mn)) / 6) 1)
                        ((mx - mn) / mx) mx) (r, g, b).
Proof.
  intros Hr Hlt Hpos Hg Hb Hg' Hb' Hmn.
  assert (Hs : ~ (mx - mn) / mx == 0).
  { intro E. assert (E' : (mx - mn) / mx * mx == 0) by (rewrite E; ring).
    field_simplify in E'; [lra | nz]. }
  destruct (Qlt_le_dec g b) as [Hgb | Hbg].
  - assert (Hmg : mn == g) by (destruct Hmn; lra).
    set (X := (b - g) / (mx - mn)).
    assert (HX : 0 < X <= 1).
    { unfold X. split.
      - apply Qlt_shift_div_l; lra.
      - apply Qle_shift_div_r; lra. }
    assert (Hraw : ((mx - b) / (mx - mn) - (mx - g) / (mx - mn)) / 6 == - X * (1 # 6))
      by (unfold X; field; nz).
    assert (Hh : py_fmod (((mx - b) / (mx - mn) - (mx - g) / (mx - mn)) / 6) 1
                 == 1 - X * (1 # 6)).
    { eapply Qeq_trans; [apply py_fmod1_neg; rewrite Hraw; lra|]. rewrite Hraw. ring. }
    rewrite (hsv_to_rgb_sector _ _ _ 5);
      [| lia | rewrite Hh; change (inject_Z 5) with 5; lra | exact Hs].
    cbv beta iota zeta delta [triple_eq hsv_sector]. rewrite Hh. change (inject_Z 5) with 5. unfold X.
    rewrite <- Hmg, <- Hr. repeat split; field; nz.
  - assert (Hmb : mn == b) by (destruct Hmn; lra).
    set (X := (g - b) / (mx - mn)).
    assert (HX : 0 <= X <= 1).
    { unfold X. split.
      - apply Qle_shift_div_l; lra.
      - apply Qle_shift_div_r; lra. }
    assert (Hraw : ((mx - b) / (mx - mn) - (mx - g) / (mx - mn)) / 6 == X * (1 # 6))
      by (unfold X; field; nz).
    assert (Hh : py_fmod (((mx - b) / (mx - mn) - (mx - g) / (mx - mn)) / 6) 1
                 == X * (1 # 6)).
    { eapply Qeq_trans; [apply py_fmod1_pos; rewrite Hraw; lra|]. exact Hraw. }
    destruct (Qlt_le_dec g mx) as [Hgm | Hgm].
    + assert (X < 1) by (unfold X; apply Qlt_shift_div_r; lra).
      rewrite (hsv_to_rgb_sector _ _ _ 0);
        [| lia | rewrite Hh; change (inject_Z 0) with 0; lra | exact Hs].
      cbv beta iota zeta delta [triple_eq hsv_sector]. rewrite Hh.
      change (inject_Z 0) with 0. unfold X.
      rewrite <- Hmb, <- Hr. repeat split; field; nz.
    + assert (Hgm' : g == mx) by lra.
      assert (X == 1) by (unfold X; rewrite Hgm', <- Hmb; field; nz).
      rewrite (hsv_to_rgb_sector _ _ _ 1);
        [| lia | rewrite Hh; change (inject_Z 1) with 1; lra | exact Hs].
      cbv beta iota zeta delta [triple_eq hsv_sector]. rewrite Hh.
      change (inject_Z 1) with 1. unfold X.
      rewrite <- Hmb, <- Hr, Hgm'. repeat split; field; nz.
Qed.

Ltac sector k Hh :=
  rewrite (hsv_to_rgb_sector _ _ _ k); [| lia | rewrite Hh; unfold inject_Z; lra | assumption];
  cbv beta iota zeta delta [triple_eq hsv_sector]; rewrite Hh; unfold inject_Z.

Lemma rt_gmax r g b mx mn :
  mx == g -> mn < mx -> 0 < mx -> mn <= r -> mn <= b -> r < mx -> b <= mx ->
  (mn == r \/ mn == g \/ mn == b) ->
  triple_eq (hsv_to_rgb (py_fmod ((2 + (mx - r) / (mx - mn) - (mx - b) / (mx - mn)) / 6) 1)
                        ((mx - mn) / mx) mx) (r, g, b).
Proof.
  intros Hg Hlt Hpos Hr Hb Hr' Hb' Hmn.
  assert (Hs : ~ (mx - mn) / mx == 0).
  { intro E. assert (E' : (mx - mn) / mx * mx == 0) by (rewrite E; ring).
    field_simplify in E'; [lra | nz]. }
  destruct (Qlt_le_dec b r) as [Hbr | Hrb].
  - assert (Hmb : mn == b) by (destruct Hmn as [|[|]]; lra).
    set (X := (r - b) / (mx - mn)).
    assert (HX : 0 < X < 1).
    { unfold X. split.
      - apply Qlt_shift_div_l; lra.
      - apply Qlt_shift_div_r; lra. }
    assert (Hh : py_fmod ((2 + (mx - r) / (mx - mn) - (mx - b) / (mx - mn)) / 6) 1
                 == (2 - X) * (1 # 6)).
    { assert (Hraw : (2 + (mx - r) / (mx - mn) - (mx - b) / (mx - mn)) / 6
                     == (2 - X) * (1 # 6)) by (unfold X; field; nz).
      eapply Qeq_trans; [apply py_fmod1_pos; rewrite Hraw; lra|]. exact Hraw. }
    sector 1%Z Hh. unfold X. rewrite <- Hmb, <- Hg. repeat split; field; nz.
  - assert (Hmr : mn == r) by (destruct Hmn as [|[|]]; lra).
    set (X := (b - r) / (mx - mn)).
    assert (HX : 0 <= X <= 1).
    { unfold X. split.
      - apply Qle_shift_div_l; lra.
      - apply Qle_shift_div_r; lra. }
    assert (Hh : py_fmod ((2 + (mx - r) / (mx - mn) - (mx - b) / (mx - mn)) / 6) 1
                 == (2 + X) * (1 # 6)).
    { assert (Hraw : (2 + (mx - r) / (mx - mn) - (mx - b) / (mx - mn)) / 6
                     == (2 + X) * (1 # 6)) by (unfold X; field; nz).
      eapply Qeq_trans; [apply py_fmod1_pos; rewrite Hraw; lra|]. exact Hraw. }
    destruct (Qlt_le_dec b mx) as [Hbm | Hbm].
    + assert (X < 1) by (unfold X; apply Qlt_shift_div_r; lra).
      sector 2%Z Hh. unfold X. rewrite <- Hmr, <- Hg. repeat split; field; nz.
    + assert (Hbm' : b == mx) by lra.
      assert (X == 1) by (unfold X; rewrite Hbm', <- Hmr; field; nz).
      sector 3%Z Hh. unfold X. rewrite <- Hmr, <- Hg, Hbm'. repeat split; field; nz.
Qed.

Lemma rt_bmax r g b mx mn :
  mx == b -> mn < mx -> 0 < mx -> mn <= r -> mn <= g -> r < mx -> g < mx ->
  (mn == r \/ mn == g \/ mn == b) ->
  triple_eq (hsv_to_rgb (py_fmod ((4 + (mx - g) / (mx - mn) - (mx - r) / (mx - mn)) / 6) 1)
                        ((mx - mn) / mx) mx) (r, g, b).
Proof.
  intros Hb Hlt Hpos Hr Hg Hr' Hg' Hmn.
  assert (Hs : ~ (mx - mn) / mx == 0).
  { intro E. assert (E' : (mx - mn) / mx * mx == 0) by (rewrite E; ring).
    field_simplify in E'; [lra | nz]. }
  destruct (Qlt_le_dec r g) as [Hrg | Hgr].
  - assert (Hmr : mn == r) by (destruct Hmn as [|[|]]; lra).
    set (X := (g - r) / (mx - mn)).
    assert (HX : 0 < X < 1).
    { unfold X. split.
      - apply Qlt_shift_div_l; lra.
      - apply Qlt_shift_div_r; lra. }
    assert (Hh : py_fmod ((4 + (mx - g) / (mx - mn) - (mx - r) / (mx - mn)) / 6) 1
                 == (4 - X) * (1 # 6)).
    { assert (Hraw : (4 + (mx - g) / (mx - mn) - (mx - r) / (mx - mn)) / 6
                     == (4 - X) * (1 # 6)) by (unfold X; field; nz).
      eapply Qeq_trans; [apply py_fmod1_pos; rewrite Hraw; lra|]. exact Hraw. }
    sector 3%Z Hh. unfold X. rewrite <- Hmr, <- Hb. repeat split; field; nz.
  - assert (Hmg : mn == g) by (destruct Hmn as [|[|]]; lra).
    set (X := (r - g) / (mx - mn)).
    assert (HX : 0 <= X < 1).
    { unfold X. split.
      - apply Qle_shift_div_l; lra.
      - apply Qlt_shift_div_r; lra. }
    assert (Hh : py_fmod ((4 + (mx - g) / (mx - mn) - (mx - r) / (mx - mn)) / 6) 1
                 == (4 + X) * (1 # 6)).
    { assert (Hraw : (4 + (mx - g) / (mx - mn) - (mx - r) / (mx - mn)) / 6
                     == (4 + X) * (1 # 6)) by (unfold X; field; nz).
      eapply Qeq_trans; [apply py_fmod1_pos; rewrite Hraw; lra|]. exact Hraw. }
    sector 4%Z Hh. unfold X. rewrite <- Hmg, <- Hb. repeat split; field; nz.
Qed.

Lemma rt_gray r g b v : r == v -> g == v -> b == v -> triple_eq (hsv_to_rgb 0 0 v) (r, g, b).
Proof. intros Hr Hg Hb. unfold hsv_to_rgb. simpl. rewrite Hr, Hg, Hb. repeat split; reflexivity. Qed.

Lemma Qle_neq_lt a b : a <= b -> ~ a == b -> a < b.
Proof. intros H1 H2. destruct (Qle_lt_or_eq _ _ H1); [assumption | contradiction]. Qed.

Ltac disj := first [ reflexivity | left; disj | right; disj ].

Lemma hsv_roundtrip r g b h s v :
  0 <= r -> 0 <= g -> 0 <= b -> rgb_to_hsv r g b = (h, s, v) ->
  triple_eq (hsv_to_rgb h s v) (r, g, b).
Proof.
  intros Hr Hg Hb. unfold rgb_to_hsv, py_max3, py_min3. cbv zeta.
  repeat match goal with
  | |- context [Qltb ?a ?b] =>
      is_var a; is_var b; let E := fresh "E" in
      destruct (Qltb a b) eqn:E; [apply Qltb_iff in E | apply Qltb_false_iff in E];
      cbv beta iota
  end.
  all: repeat match goal with
  | |- context [Qeq_bool ?a ?b] =>
      is_var a; is_var b; let E := fresh "E" in
      destruct (Qeq_bool a b) eqn:E; [apply Qeq_bool_iff in E | apply Qeq_bool_neq in E];
      cbv beta iota
  end.
  all: intros H; injection H as <- <- <-.
  all: try (exfalso; lra).
  all: repeat match goal with
  | H : ~ ?a == ?b |- _ =>
      first [ assert (a < b) by (apply Qle_neq_lt; [lra | exact H])
            | assert (b < a) by (apply Qle_neq_lt; [lra | intro; apply H; symmetry; assumption])
            | exfalso; apply H; lra ]; clear H
  end.
  all: try (exfalso; lra).
  all: lazymatch goal with
       | |- triple_eq (hsv_to_rgb 0 0 _) _ => apply rt_gray; lra
       | |- triple_eq (hsv_to_rgb (py_fmod ((2 + _ - _) / 6) 1) _ _) _ =>
           apply rt_gmax; first [lra | disj]
       | |- triple_eq (hsv_to_rgb (py_fmod ((4 + _ - _) / 6) 1) _ _) _ =>
           apply rt_bmax; first [lra | disj]
       | |- _ => apply rt_rmax; first [lra | disj]
       end.
Qed.

Lemma triple_eq_trans x y z : triple_eq x y -> triple_eq y z -> triple_eq x z.
Proof.
  destruct x as [[a b] c], y as [[a' b'] c'], z as [[a'' b''] c''].
  cbv [triple_eq]. intros (H1 & H2 & H3) (H4 & H5 & H6).
  repeat split; eapply Qeq_trans; eauto.
Qed.

Ltac case6 e :=
  let k := fresh "k" in let Hk := fresh "Hk" in
  assert (Hk : (0 <= e < 6)%Z) by (apply Z.mod_pos_bound; lia);
  remember e as k eqn:Ek; clear Ek;
  assert (k = 0 \/ k = 1 \/ k = 2 \/ k = 3 \/ k = 4 \/ k = 5)%Z as Hc by lia;
  clear Hk; destruct Hc as [->|[->|[->|[->|[->| ->]]]]].

Lemma hsv_to_rgb_comp h s v h' s' v' :
  h == h' -> s == s' -> v == v' -> triple_eq (hsv_to_rgb h s v) (hsv_to_rgb h' s' v').
Proof.
  intros Hh Hs Hv. unfold hsv_to_rgb.
  assert (Eb : Qeq_bool s 0 = Qeq_bool s' 0).
  { destruct (Qeq_bool s 0) eqn:E1, (Qeq_bool s' 0) eqn:E2; try reflexivity.
    - apply Qeq_bool_iff in E1. apply Qeq_bool_neq in E2. rewrite <- Hs in E2. contradiction.
    - apply Qeq_bool_neq in E1. apply Qeq_bool_iff in E2. rewrite Hs in E1. contradiction. }
  rewrite Eb. rewrite (py_int_comp (h * 6) (h' * 6)) by (rewrite Hh; reflexivity).
  destruct (Qeq_bool s' 0).
  - cbv [triple_eq]. rewrite Hv. repeat split; reflexivity.
  - case6 (py_int (h' * 6) mod 6)%Z;
      cbv beta iota zeta delta [triple_eq]; rewrite Hh, Hs, Hv; repeat split; reflexivity.
Qed.

Lemma hsv_to_rgb_shift h s v :
  0 <= h -> triple_eq (hsv_to_rgb (h + 1) s v) (hsv_to_rgb h s v).
Proof.
  intros Hh. unfold hsv_to_rgb.
  destruct (Qeq_bool s 0).
  - cbv [triple_eq]. repeat split; reflexivity.
  - assert (Ei : py_int ((h + 1) * 6) = (py_int (h * 6) + 6)%Z).
    { unfold py_int.
      destruct (Qltb ((h + 1) * 6) 0) eqn:E1; [apply Qltb_iff in E1; lra|].
      destruct (Qltb (h * 6) 0) eqn:E2; [apply Qltb_iff in E2; lra|].
      apply Qfloor_unique.
      - rewrite inject_Z_plus. change (inject_Z 6) with 6.
        pose proof (Qfloor_le (h * 6)). lra.
      - rewrite !inject_Z_plus. change (inject_Z 6) with 6. change (inject_Z 1) with 1.
        pose proof (Qlt_floor (h * 6)). rewrite inject_Z_plus in H. change (inject_Z 1) with 1 in H.
        lra. }
    rewrite Ei. rewrite Z.add_mod by lia. rewrite Z.mod_same by lia. rewrite Z.add_0_r.
    rewrite Z.mod_mod by lia.
    assert (Ef : (h + 1) * 6 - inject_Z (py_int (h * 6) + 6) == h * 6 - inject_Z (py_int (h * 6))).
    { rewrite inject_Z_plus. change (inject_Z 6) with 6. ring. }
    case6 (py_int (h * 6) mod 6)%Z;
      cbv beta iota zeta delta [triple_eq]; rewrite Ef; repeat split; reflexivity.
Qed.

Lemma py_fmod1_range x : 0 <= py_fmod x 1 < 1.
Proof.
  unfold py_fmod.
  assert (E : x / 1 == x) by field.
  pose proof (Qfloor_le (x / 1)) as H1. pose proof (Qlt_floor (x / 1)) as H2.
  rewrite inject_Z_plus in H2. change (inject_Z 1) with 1 in H2.
  set (y := x / 1) in *. clearbody y. lra.
Qed.

Lemma rgb_to_hsv_hue r g b h s v : rgb_to_hsv r g b = (h, s, v) -> 0 <= h < 1.
Proof.
  unfold rgb_to_hsv. destruct (Qeq_bool _ _); intros H; injection H as <- <- <-.
  - lra.
  - apply py_fmod1_range.
Qed.

Ltac qltb_cases :=
  repeat match goal with
  | |- context [Qltb ?a ?b] =>
      let E := fresh "E" in
      destruct (Qltb a b) eqn:E; [apply Qltb_iff in E | apply Qltb_false_iff in E];
      cbv beta iota
  end.

Lemma interpolate_hue_0 h1 h2 : 0 <= h1 < 1 -> interpolate_hue h1 h2 0 == h1.
Proof.
  intros Hh1. unfold interpolate_hue. cbv zeta.
  destruct (Qltb (1 # 2) (h2 - h1)); [|destruct (Qltb (h2 - h1) (- (1 # 2)))];
    cbv beta iota; qltb_cases; lra.
Qed.

Lemma interpolate_hue_1 h1 h2 :
  0 <= h1 < 1 -> 0 <= h2 < 1 ->
  interpolate_hue h1 h2 1 == h2 \/ interpolate_hue h1 h2 1 == h2 + 1.
Proof.
  intros Hh1 Hh2. unfold interpolate_hue. cbv zeta.
  destruct (Qltb (1 # 2) (h2 - h1)) eqn:E1; [apply Qltb_iff in E1 | apply Qltb_false_iff in E1];
  [|destruct (Qltb (h2 - h1) (- (1 # 2))) eqn:E2;
      [apply Qltb_iff in E2 | apply Qltb_false_iff in E2]];
    cbv beta iota; qltb_cases; first [left; lra | right; lra].
Qed.

Lemma interpolate_hue_comp h1 h2 r r' :
  r == r' -> interpolate_hue h1 h2 r == interpolate_hue h1 h2 r'.
Proof.
  intros E. unfold interpolate_hue. cbv zeta.
  destruct (Qltb (1 # 2) (h2 - h1)); [|destruct (Qltb (h2 - h1) (- (1 # 2)))];
    cbv beta iota; qltb_cases; rewrite E in *; first [reflexivity | lra].
Qed.

Lemma interpolate_color_0 c1 c2 ratio :
  ratio == 0 -> color_nonneg c1 -> color_eq (interpolate_color c1 c2 ratio) c1.
Proof.
  intros Er (Hr & Hg & Hb). unfold interpolate_color.
  destruct (rgb_to_hsv (red c1) (green c1) (blue c1)) as [[h1 s1] v1] eqn:E1.
  destruct (rgb_to_hsv (red c2) (green c2) (blue c2)) as [[h2 s2] v2] eqn:E2.
  pose proof (hsv_roundtrip _ _ _ _ _ _ Hr Hg Hb E1) as RT.
  pose proof (rgb_to_hsv_hue _ _ _ _ _ _ E1) as Hh1.
  assert (C : triple_eq (hsv_to_rgb (interpolate_hue h1 h2 ratio) (s1 + (s2 - s1) * ratio)
                           (v1 + (v2 - v1) * ratio)) (red c1, green c1, blue c1)).
  { eapply triple_eq_trans; [apply (hsv_to_rgb_comp _ _ _ h1 s1 v1) | exact RT].
    - rewrite (interpolate_hue_comp _ _ _ _ Er). apply interpolate_hue_0. exact Hh1.
    - rewrite Er. ring.
    - rewrite Er. ring. }
  clear RT. cbv zeta. destruct (hsv_to_rgb _ _ _) as [[x y] z]. exact C.
Qed.

Lemma interpolate_color_1 c1 c2 ratio :
  ratio == 1 -> color_nonneg c2 -> color_eq (interpolate_color c1 c2 ratio) c2.
Proof.
  intros Er (Hr & Hg & Hb). unfold interpolate_color.
  destruct (rgb_to_hsv (red c1) (green c1) (blue c1)) as [[h1 s1] v1] eqn:E1.
  destruct (rgb_to_hsv (red c2) (green c2) (blue c2)) as [[h2 s2] v2] eqn:E2.
  pose proof (hsv_roundtrip _ _ _ _ _ _ Hr Hg Hb E2) as RT.
  pose proof (rgb_to_hsv_hue _ _ _ _ _ _ E1) as Hh1.
  pose proof (rgb_to_hsv_hue _ _ _ _ _ _ E2) as Hh2.
  assert (C : triple_eq (hsv_to_rgb (interpolate_hue h1 h2 ratio) (s1 + (s2 - s1) * ratio)
                           (v1 + (v2 - v1) * ratio)) (red c2, green c2, blue c2)).
  { destruct (interpolate_hue_1 h1 h2 Hh1 Hh2) as [Eh | Eh];
      rewrite <- (interpolate_hue_comp h1 h2 ratio 1 Er) in Eh.
    - eapply triple_eq_trans; [apply hsv_to_rgb_comp | exact RT]; [exact Eh | rewrite Er; ring | rewrite Er; ring].
    - eapply triple_eq_trans; [apply (hsv_to_rgb_comp _ _ _ (h2 + 1) s2 v2) | ]; [exact Eh | rewrite Er; ring | rewrite Er; ring |].
      eapply triple_eq_trans; [apply hsv_to_rgb_shift; apply Hh2 | exact RT]. }
  clear RT. cbv zeta. destruct (hsv_to_rgb _ _ _) as [[x y] z]. exact C.
Qed.

Lemma insert_in x c l : In x (insert_by_position c l) <-> x = c \/ In x l.
Proof.
  induction l as [|d l IH]; simpl.
  - intuition congruence.
  - destruct (Qle_bool (position c) (position d)); simpl; [intuition congruence|].
    rewrite IH. intuition congruence.
Qed.

Lemma sort_in x l : In x (sort_by_position l) <-> In x l.
Proof.
  induction l as [|c l IH]; simpl; [tauto|]. rewrite insert_in, IH. intuition congruence.
Qed.

Lemma insert_sorted c l :
  StronglySorted (fun a b => position a < position b) l ->
  (forall d, In d l -> ~ position c == position d) ->
  StronglySorted (fun a b => position a < position b) (insert_by_position c l).
Proof.
  induction l as [|d l IH]; simpl; intros Hs Hne.
  - repeat constructor.
  - inversion Hs as [|? ? Hs' Hf]; subst. rewrite Forall_forall in Hf.
    destruct (Qle_bool (position c) (position d)) eqn:E.
    + apply Qle_bool_iff in E.
      assert (Hcd : position c < position d)
        by (apply Qle_neq_lt; [exact E | apply Hne; left; reflexivity]).
      constructor; [exact Hs|]. constructor; [exact Hcd|].
      apply Forall_forall. intros y Hy. specialize (Hf y Hy). lra.
    + assert (Hdc : position d < position c).
      { apply Qnot_le_lt. intros Hle. apply Qle_bool_iff in Hle. congruence. }
      constructor.
      * apply IH; [exact Hs'|]. intros y Hy. apply Hne. right. exact Hy.
      * apply Forall_forall. intros y Hy. apply insert_in in Hy.
        destruct Hy as [-> | Hy]; [exact Hdc | apply Hf; exact Hy].
Qed.

Lemma sort_sorted l :
  NoDup (map (fun x => Qred (position x)) l) ->
  StronglySorted (fun a b => position a < position b) (sort_by_position l).
Proof.
  induction l as [|c l IH]; simpl; intros Hnd.
  - constructor.
  - inversion Hnd as [|? ? Hnin Hnd']; subst. apply insert_sorted; [apply IH; exact Hnd'|].
    intros d Hd Heq. apply Hnin. apply in_map_iff. exists d. split.
    + apply Qred_complete. symmetry. exact Heq.
    + apply sort_in. exact Hd.
Qed.

Lemma scan_at_stop cs c :
  StronglySorted (fun a b => position a < position b) cs ->
  Forall (fun x => color_nonneg (cp_color x)) cs -> In c cs ->
  cs = [c] \/
  exists c', gradient_scan (position c) cs = Some c' /\ color_eq c' (cp_color c).
Proof.
  induction cs as [|x cs IH]; intros Hs Hnn Hin; [destruct Hin|].
  destruct cs as [|y rest].
  - left. destruct Hin as [<- | []]. reflexivity.
  - right. inversion Hs as [|? ? Hs' Hf]; subst. rewrite Forall_forall in Hf.
    inversion Hnn as [|? ? Hnx Hnn']; subst.
    assert (Hxy : position x < position y) by (apply Hf; left; reflexivity).
    assert (Hr : Qeq_bool (position y - position x) 0 = false)
      by (apply not_true_iff_false; intros E; apply Qeq_bool_iff in E; lra).
    cbn [gradient_scan].
    destruct Hin as [<- | [<- | Hin]].
    + rewrite (proj2 (Qle_bool_iff _ _) (Qle_refl _)).
      rewrite (proj2 (Qle_bool_iff (position x) (position y))) by lra. simpl. rewrite Hr.
      eexists. split; [reflexivity|]. apply interpolate_color_0; [|exact Hnx].
      unfold Qdiv. ring.
    + rewrite (proj2 (Qle_bool_iff _ _) (Qle_refl _)).
      rewrite (proj2 (Qle_bool_iff (position x) (position y))) by lra. simpl. rewrite Hr.
      eexists. split; [reflexivity|]. apply interpolate_color_1.
      * field. intros E. lra.
      * inversion Hnn'; assumption.
    + inversion Hs' as [|? ? Hs'' Hf']; subst. rewrite Forall_forall in Hf'.
      assert (Hyc : position y < position c) by (apply Hf'; exact Hin).
      assert (E : Qle_bool (position c) (position y) = false)
        by (apply not_true_iff_false; intros E; apply Qle_bool_iff in E; lra).
      rewrite E, andb_false_r.
      destruct (IH Hs' Hnn' (or_intror Hin)) as [Eq | Hex]; [|exact Hex].
      injection Eq as -> ->. destruct Hin.
Qed.

(** ** C4 in floating point: a stop queried at its own position *)

Module Binary64_C4.

Import Floats Binary64.
Local Open Scope float_scope.


End Binary64_C4.

(** ** Further properties of the code *)

Lemma py_min3_Z_spec a b c : py_min3_Z a b c = Z.min (Z.min a b) c.
Proof. unfold py_min3_Z. destruct (b <? a)%Z eqn:E1, (c <? _)%Z eqn:E2; lia. Qed.

(** White extraction of [rgb_to_rgbw]. *)
Theorem rgb_to_rgbw_spec r g b :
  let '(r', g', b', w) := rgb_to_rgbw (r, g, b) in
  (w = Z.min (Z.min r g) b /\
   (0 < w -> r' + w = r /\ g' + w = g /\ b' + w = b /\
             0 <= r' /\ 0 <= g' /\ 0 <= b' /\ Z.min (Z.min r' g') b' = 0) /\
   (w <= 0 -> r' = r /\ g' = g /\ b' = b))%Z.
Proof.
  unfold rgb_to_rgbw. rewrite py_min3_Z_spec.
  destruct (Z.min (Z.min r g) b >? 0)%Z eqn:E; lia.
Qed.

Lemma py_int_floor x : 0 <= x -> py_int x = Qfloor x.
Proof.
  intros Hx. unfold py_int. destruct (Qltb x 0) eqn:E; [apply Qltb_iff in E; lra | reflexivity].
Qed.

(** The warm/cold ratio of [rgb_to_rgbww] lies in [0, 1] between 2700 K and 6500 K. *)
Lemma rgbww_ratio_bounds t :
  (2700 <= t <= 6500)%Z ->
  0 <= inject_Z (t - 2700) / inject_Z (6500 - 2700) <= 1.
Proof.
  intros Ht. change (inject_Z (6500 - 2700)) with (3800 # 1). split.
  - apply Qle_shift_div_l; [reflexivity|]. rewrite Qmult_0_l.
    change 0 with (inject_Z 0). rewrite <- Zle_Qle. lia.
  - apply Qle_shift_div_r; [reflexivity|]. rewrite Qmult_1_l.
    change (3800 # 1) with (inject_Z 3800). rewrite <- Zle_Qle. lia.
Qed.

Lemma rgbww_cw_bounds w t :
  (0 <= w)%Z -> (2700 <= t <= 6500)%Z ->
  (0 <= py_int (inject_Z w * (inject_Z (t - 2700) / inject_Z (6500 - 2700))) <= w)%Z.
Proof.
  intros Hw Ht. pose proof (rgbww_ratio_bounds t Ht) as HR.
  set (R := inject_Z (t - 2700) / inject_Z (6500 - 2700)) in *. clearbody R.
  assert (HW : 0 <= inject_Z w) by (change 0 with (inject_Z 0); rewrite <- Zle_Qle; exact Hw).
  assert (Hx : 0 <= inject_Z w * R <= inject_Z w) by nra.
  rewrite py_int_floor by lra. split.
  - change 0%Z with (Qfloor 0). apply Qfloor_resp_le. lra.
  - apply Z.le_trans with (Qfloor (inject_Z w)); [apply Qfloor_resp_le; lra | rewrite Qfloor_Z; lia].
Qed.

(** [rgb_to_rgbww] extracts the same white as [rgb_to_rgbw] and splits it
    into a cold and a warm part. *)
Theorem rgb_to_rgbww_spec r g b t :
  let '(r', g', b', cw, ww) := rgb_to_rgbww (r, g, b) t in
  let '(r1, g1, b1, w) := rgb_to_rgbw (r, g, b) in
  (r' = r1 /\ g' = g1 /\ b' = b1 /\ cw + ww = w /\
   (0 <= w -> 0 <= cw <= w /\ 0 <= ww <= w) /\
   (6500 <= t -> cw = w /\ ww = 0) /\
   (t <= 2700 -> cw = 0 /\ ww = w))%Z.
Proof.
  unfold rgb_to_rgbww, rgb_to_rgbw. set (w := py_min3_Z r g b).
  destruct (t >=? 6500)%Z eqn:E1; [destruct (w >? 0)%Z; cbv beta iota; lia|].
  destruct (t <=? 2700)%Z eqn:E2; [destruct (w >? 0)%Z; cbv beta iota; lia|].
  assert (Ht : (2700 <= t <= 6500)%Z) by lia.
  destruct (Z_le_gt_dec 0 w) as [Hw | Hw].
  - pose proof (rgbww_cw_bounds w t Hw Ht).
    destruct (w >? 0)%Z; cbv beta iota; lia.
  - destruct (w >? 0)%Z; cbv beta iota; lia.
Qed.

(** The cold-white share of [rgb_to_rgbww] grows with the color temperature. *)
Theorem rgb_to_rgbww_cold_monotone r g b t1 t2 :
  (0 <= Z.min (Z.min r g) b)%Z -> (t1 <= t2)%Z ->
  let '(_, _, _, cw1, _) := rgb_to_rgbww (r, g, b) t1 in
  let '(_, _, _, cw2, _) := rgb_to_rgbww (r, g, b) t2 in
  (cw1 <= cw2)%Z.
Proof.
  intros Hw Ht. unfold rgb_to_rgbww. rewrite py_min3_Z_spec.
  set (w := Z.min (Z.min r g) b) in *.
  destruct (t1 >=? 6500)%Z eqn:E1; [destruct (t2 >=? 6500)%Z eqn:E2, (w >? 0)%Z; lia|].
  destruct (t1 <=? 2700)%Z eqn:E3.
  - destruct (t2 >=? 6500)%Z eqn:E4; [destruct (w >? 0)%Z; cbv beta iota; lia|].
    destruct (t2 <=? 2700)%Z eqn:E5; [destruct (w >? 0)%Z; cbv beta iota; lia|].
    pose proof (rgbww_cw_bounds w t2 Hw ltac:(lia)). destruct (w >? 0)%Z; cbv beta iota; lia.
  - pose proof (rgbww_cw_bounds w t1 Hw ltac:(lia)).
    destruct (t2 >=? 6500)%Z eqn:E4; [destruct (w >? 0)%Z; cbv beta iota; lia|].
    destruct (t2 <=? 2700)%Z eqn:E5; [lia|].
    assert (Hle : (py_int (inject_Z w * (inject_Z (t1 - 2700) / inject_Z (6500 - 2700)))
                  <= py_int (inject_Z w * (inject_Z (t2 - 2700) / inject_Z (6500 - 2700))))%Z).
    { pose proof (rgbww_ratio_bounds t1 ltac:(lia)) as H1.
      pose proof (rgbww_ratio_bounds t2 ltac:(lia)) as H2.
      assert (HR : inject_Z (t1 - 2700) / inject_Z (6500 - 2700)
                   <= inject_Z (t2 - 2700) / inject_Z (6500 - 2700)).
      { unfold Qdiv. apply Qmult_le_compat_r; [|discriminate].
        rewrite <- Zle_Qle. lia. }
      set (R1 := inject_Z (t1 - 2700) / inject_Z (6500 - 2700)) in *.
      set (R2 := inject_Z (t2 - 2700) / inject_Z (6500 - 2700)) in *.
      clearbody R1 R2.
      assert (HW : 0 <= inject_Z w) by (change 0 with (inject_Z 0); rewrite <- Zle_Qle; exact Hw).
      rewrite !py_int_floor by nra. apply Qfloor_resp_le. nra. }
    destruct (w >? 0)%Z; cbv beta iota; lia.
Qed.

(** [_interpolate_hue] stays in the closed unit interval. *)
Lemma interpolate_hue_bounds h1 h2 ratio :
  0 <= h1 <= 1 -> 0 <= h2 <= 1 -> 0 <= ratio <= 1 ->
  0 <= interpolate_hue h1 h2 ratio <= 1.
Proof.
  intros H1 H2 Hr. unfold interpolate_hue. cbv zeta.
  destruct (Qltb (1 # 2) (h2 - h1)) eqn:E1; [apply Qltb_iff in E1 | apply Qltb_false_iff in E1];
  [|destruct (Qltb (h2 - h1) (- (1 # 2))) eqn:E2;
      [apply Qltb_iff in E2 | apply Qltb_false_iff in E2]];
    cbv beta iota.
  - assert (P : -1 <= (h2 - 1 - h1) * ratio <= 0) by nra. qltb_cases; lra.
  - assert (P : 0 <= (h2 + 1 - h1) * ratio <= 1) by nra. qltb_cases; lra.
  - assert (P : (h2 - h1) * ratio <= 1 - h1 /\ - h1 <= (h2 - h1) * ratio) by nra.
    qltb_cases; lra.
Qed.

Lemma rgb_to_hsv_bounds r g b h s v :
  0 <= r <= 1 -> 0 <= g <= 1 -> 0 <= b <= 1 -> rgb_to_hsv r g b = (h, s, v) ->
  0 <= h < 1 /\ 0 <= s <= 1 /\ 0 <= v <= 1.
Proof.
  intros Hr Hg Hb Hhsv. pose proof (rgb_to_hsv_hue _ _ _ _ _ _ Hhsv) as Hh.
  split; [exact Hh|]. revert Hhsv.
  unfold rgb_to_hsv, py_max3, py_min3. cbv zeta.
  repeat match goal with
  | |- context [Qltb ?a ?b] =>
      is_var a; is_var b; let E := fresh "E" in
      destruct (Qltb a b) eqn:E; [apply Qltb_iff in E | apply Qltb_false_iff in E];
      cbv beta iota
  end.
  all: match goal with
       | |- context [Qeq_bool ?a ?b] =>
           is_var a; is_var b; let E := fresh "E" in
           destruct (Qeq_bool a b) eqn:E; [apply Qeq_bool_iff in E | apply Qeq_bool_neq in E]
       end.
  all: intros H; injection H as _ <- <-; split; try lra.
  all: match goal with
       | H : ~ ?a == ?b |- 0 <= (?x - ?y) / ?z <= 1 =>
           assert (y < x) by (apply Qle_neq_lt; [lra | exact H]);
           split; [apply Qle_shift_div_l | apply Qle_shift_div_r]; lra
       end.
Qed.

Lemma hsv_to_rgb_bounds h s v :
  0 <= h -> 0 <= s <= 1 -> 0 <= v ->
  let '(r, g, b) := hsv_to_rgb h s v in
  0 <= r <= v /\ 0 <= g <= v /\ 0 <= b <= v.
Proof.
  intros Hh Hs Hv. unfold hsv_to_rgb.
  destruct (Qeq_bool s 0); [lra|]. cbv zeta.
  assert (Hf : 0 <= h * 6 - inject_Z (py_int (h * 6)) < 1).
  { rewrite py_int_floor by lra. pose proof (Qfloor_le (h * 6)).
    pose proof (Qlt_floor (h * 6)). rewrite inject_Z_plus in H0.
    change (inject_Z 1) with 1 in H0. lra. }
  set (f := h * 6 - inject_Z (py_int (h * 6))) in *. clearbody f.
  assert (Hsf : 0 <= s * f <= 1) by (split; nra).
  assert (Hs1f : 0 <= s * (1 - f) <= 1) by (split; nra).
  assert (M : forall x, 0 <= x <= 1 -> 0 <= v * (1 - x) <= v).
  { intros x Hx. pose proof (Qmult_le_0_compat v (1 - x) Hv ltac:(lra)).
    pose proof (Qmult_le_0_compat v x Hv ltac:(lra)). split; [lra|].
    setoid_replace (v * (1 - x)) with (v - v * x) by ring. lra. }
  pose proof (M s Hs) as P1. pose proof (M _ Hsf) as P2. pose proof (M _ Hs1f) as P3. clear M.
  case6 ((py_int (h * 6)) mod 6)%Z; cbv beta iota; repeat split; lra.
Qed.

Lemma unit_convex a b ratio :
  0 <= a <= 1 -> 0 <= b <= 1 -> 0 <= ratio <= 1 -> 0 <= a + (b - a) * ratio <= 1.
Proof. intros. split; nra. Qed.

(** [_interpolate_color] of two unit colors at a ratio in [0, 1] is a unit color. *)
Lemma interpolate_color_unit c1 c2 ratio :
  color_unit c1 -> color_unit c2 -> 0 <= ratio <= 1 ->
  color_unit (interpolate_color c1 c2 ratio).
Proof.
  intros (Hr1 & Hg1 & Hb1) (Hr2 & Hg2 & Hb2) Hrat. unfold interpolate_color.
  destruct (rgb_to_hsv (red c1) (green c1) (blue c1)) as [[h1 s1] v1] eqn:E1.
  destruct (rgb_to_hsv (red c2) (green c2) (blue c2)) as [[h2 s2] v2] eqn:E2.
  apply rgb_to_hsv_bounds in E1; auto. apply rgb_to_hsv_bounds in E2; auto.
  destruct E1 as (Hh1 & Hs1 & Hv1), E2 as (Hh2 & Hs2 & Hv2).
  pose proof (interpolate_hue_bounds h1 h2 ratio ltac:(lra) ltac:(lra) Hrat) as Hh.
  pose proof (unit_convex s1 s2 ratio Hs1 Hs2 Hrat) as Hs.
  pose proof (unit_convex v1 v2 ratio Hv1 Hv2 Hrat) as Hv.
  pose proof (hsv_to_rgb_bounds (interpolate_hue h1 h2 ratio) (s1 + (s2 - s1) * ratio)
                (v1 + (v2 - v1) * ratio) ltac:(lra) Hs ltac:(lra)) as B.
  destruct (hsv_to_rgb _ _ _) as [[r g] b].
  unfold color_unit; simpl; repeat split; lra.
Qed.

Lemma min_by_distance_in pos best l :
  min_by_distance pos best l = best \/ In (min_by_distance pos best l) l.
Proof.
  revert best; induction l as [|x l IH]; intros best; simpl; [now left|].
  destruct (Qltb _ _).
  - destruct (IH x) as [->|H]; right; [now left | now right].
  - destruct (IH best) as [->|H]; [now left | right; now right].
Qed.

Lemma last_opt_in {A} (l : list A) x : last_opt l = Some x -> In x l.
Proof.
  induction l as [|a l IH]; simpl; [discriminate|].
  destruct l as [|b l']; [intros [= ->]; now left|]. intros H; right; auto.
Qed.

Lemma gradient_scan_unit pos cs c :
  Forall (fun cp => color_unit (cp_color cp)) cs ->
  gradient_scan pos cs = Some c -> color_unit c.
Proof.
  induction cs as [|c1 cs IH]; simpl; [discriminate|].
  destruct cs as [|c2 cs']; [discriminate|].
  intros Hall. inversion Hall as [|? ? Hc1 Hrest]; subst.
  inversion Hrest as [|? ? Hc2 _]; subst.
  destruct (Qle_bool (position c1) pos) eqn:E1; simpl;
    [destruct (Qle_bool pos (position c2)) eqn:E2|]; try (apply IH; exact Hrest).
  apply Qle_bool_iff in E1, E2.
  destruct (Qeq_bool (position c2 - position c1) 0) eqn:E3; [intros [= <-]; exact Hc1|].
  apply Qeq_bool_neq in E3. intros [= <-]. apply interpolate_color_unit; auto.
  assert (0 < position c2 - position c1) by (apply Qle_neq_lt; [lra|]; intros Hq; apply E3; lra).
  split; [apply Qle_shift_div_l | apply Qle_shift_div_r]; lra.
Qed.

(** [get_color_at_position] only returns unit colors from a palette whose
    stops are all unit colors. *)
Lemma get_color_unit palettes name pos pal c :
  dict_get name palettes = Some pal -> palette_unit pal ->
  get_color_at_position palettes name pos = Returns (Some c) -> color_unit c.
Proof.
  intros Hget Hunit. unfold get_color_at_position. rewrite Hget.
  unfold palette_unit in Hunit.
  destruct (String.eqb (type pal) "static").
  - destruct (colors pal) as [|c0 l] eqn:Hc; [discriminate|]. intros [= <-].
    rewrite Forall_forall in Hunit.
    destruct (min_by_distance_in pos c0 l) as [->|Hin]; apply Hunit; [now left | now right].
  - destruct (String.eqb (type pal) "gradient"); [|discriminate].
    assert (Hs : Forall (fun cp => color_unit (cp_color cp)) (sort_by_position (colors pal))).
    { rewrite Forall_forall in *. intros x Hx. apply Hunit. now apply sort_in. }
    destruct (gradient_scan pos _) as [c'|] eqn:Hg.
    + intros [= <-]. exact (gradient_scan_unit _ _ _ Hs Hg).
    + destruct (last_opt _) as [cl|] eqn:Hl; [|discriminate].
      destruct (sort_by_position (colors pal)) as [|c0 l] eqn:Hsort; [discriminate|].
      rewrite Forall_forall in Hs. apply last_opt_in in Hl.
      intros H; injection H as <-. destruct (Qltb _ _); apply Hs; [exact Hl | now left].
Qed.

Lemma scale_component_byte x intens :
  0 <= x <= 1 -> (0 <= intens <= 100)%Z ->
  (0 <= py_int (x * 255 * inject_Z intens / 100) <= 255)%Z.
Proof.
  intros Hx Hi. assert (HI : 0 <= inject_Z intens <= 100).
  { rewrite (Zle_Qle 0), (Zle_Qle intens 100) in Hi. exact Hi. }
  set (q := x * 255 * inject_Z intens / 100).
  assert (Hq : 0 <= q <= 255).
  { unfold q. setoid_replace (x * 255 * inject_Z intens / 100)
      with (x * inject_Z intens * (255 # 100)) by (field; discriminate).
    split; nra. }
  rewrite py_int_floor by lra. split.
  - change 0%Z with (Qfloor 0). apply Qfloor_resp_le. lra.
  - change 255%Z with (Qfloor 255). apply Qfloor_resp_le. lra.
Qed.

Lemma scale_rgb_bytes intens c :
  color_unit c -> (0 <= intens <= 100)%Z -> rgb_bytes (scale_rgb intens c).
Proof.
  intros (Hr & Hg & Hb) Hi. split; [reflexivity|]. unfold scale_rgb. simpl.
  repeat constructor; apply scale_component_byte; auto.
Qed.

Lemma frame_bytes_set k v fr : rgb_bytes v -> frame_bytes fr -> frame_bytes (dict_set k v fr).
Proof.
  intros Hv Hfr k' v'. destruct (String.eqb_spec k k') as [<-|Hne].
  - rewrite dict_get_set_eq. now intros [= <-].
  - rewrite dict_get_set_ne by exact Hne. apply Hfr.
Qed.

Lemma frame_bytes_nil : frame_bytes [].
Proof. intros k v; discriminate. Qed.

Lemma rainbow_loop_bytes palettes config ids n toff pal :
  dict_get "rainbow" palettes = Some pal -> palette_unit pal ->
  (0 <= intensity config <= 100)%Z ->
  forall todo i upd fr, frame_bytes upd ->
  rainbow_loop palettes config ids n toff i todo upd = Returns fr -> frame_bytes fr.
Proof.
  intros Hget Hunit Hi todo. induction todo as [|lid todo IH]; intros i upd fr Hupd; simpl.
  - now intros [= <-].
  - destruct (get_color_at_position palettes "rainbow" _) as [[c|]|e] eqn:Hc;
      try discriminate.
    pose proof (get_color_unit _ _ _ _ _ Hget Hunit Hc) as Hcu.
    assert (Hs : frame_bytes (dict_set lid (scale_rgb (intensity config) c) upd))
      by (apply frame_bytes_set; [apply scale_rgb_bytes|]; auto).
    destruct (mirror config && _)%bool.
    + destruct (nth_error ids _) as [mid|]; [|discriminate].
      destruct (dict_get lid _) as [u|] eqn:Hu; [|discriminate].
      apply IH. apply frame_bytes_set; [exact (Hs _ _ Hu) | exact Hs].
    + apply IH. exact Hs.
Qed.

(** Every light of a rainbow frame gets three channels in [0, 255] when the
    intensity is in [0, 100] and the rainbow palette's stops are unit colors. *)
Theorem rainbow_frame_bytes palettes ids config elapsed pal fr :
  dict_get "rainbow" palettes = Some pal -> palette_unit pal ->
  (0 <= intensity config <= 100)%Z ->
  rainbow_generate_frame palettes ids config elapsed = Returns fr -> frame_bytes fr.
Proof.
  intros Hget Hunit Hi. apply (rainbow_loop_bytes _ _ _ _ _ _ Hget Hunit Hi).
  apply frame_bytes_nil.
Qed.

Lemma wipe_loop_bytes palettes config n act pal :
  dict_get (palette_name config) palettes = Some pal -> palette_unit pal ->
  (0 <= intensity config <= 100)%Z ->
  forall todo i upd fr, frame_bytes upd ->
  wipe_loop palettes config n act i todo upd = Returns fr -> frame_bytes fr.
Proof.
  intros Hget Hunit Hi todo. induction todo as [|lid todo IH]; intros i upd fr Hupd; simpl.
  - now intros [= <-].
  - destruct (Z.of_nat _ <? act)%Z.
    + destruct (get_color_at_position _ _ _) as [[c|]|e] eqn:Hc; try discriminate.
      pose proof (get_color_unit _ _ _ _ _ Hget Hunit Hc).
      apply IH. apply frame_bytes_set; [apply scale_rgb_bytes|]; auto.
    + apply IH. apply frame_bytes_set; [|exact Hupd].
      split; [reflexivity|]. repeat constructor; lia.
Qed.

(** The same for a color-wipe frame: lit lights get scaled palette colors,
    the others [0, 0, 0]. *)
Theorem wipe_frame_bytes palettes ids config elapsed pal fr :
  dict_get (palette_name config) palettes = Some pal -> palette_unit pal ->
  (0 <= intensity config <= 100)%Z ->
  wipe_generate_frame palettes ids config elapsed = Returns fr -> frame_bytes fr.
Proof.
  intros Hget Hunit Hi. unfold wipe_generate_frame. rewrite Hget.
  apply (wipe_loop_bytes _ _ _ _ _ Hget Hunit Hi). apply frame_bytes_nil.
Qed.

Lemma min_by_distance_spec pos best l :
  let k x := Qabs (position x - pos) in
  let m := min_by_distance pos best l in
  (k m <= k best /\ forall d, In d l -> k m <= k d) /\
  (m = best \/ exists l1 l2, l = l1 ++ m :: l2 /\ k m < k best /\
                             forall d, In d l1 -> k m < k d).
Proof.
  cbv beta zeta. revert best; induction l as [|x l IH]; intros best; cbn [min_by_distance In].
  - split; [split; [lra | tauto] | now left].
  - destruct (Qltb (Qabs (position x - pos)) (Qabs (position best - pos))) eqn:E;
      [apply Qltb_iff in E | apply Qltb_false_iff in E]; cbv iota.
    + destruct (IH x) as [[H1 H2] [H3|(l1 & l2 & Hl & H4 & H5)]].
      * split; [split; [lra|] | right].
        { intros d [<-|Hd]; [exact H1 | auto]. }
        exists [], l. rewrite H3. split; [reflexivity|]. split; [lra | simpl; tauto].
      * split; [split; [lra|] | right].
        { intros d [<-|Hd]; [exact H1 | auto]. }
        exists (x :: l1), l2. split; [rewrite Hl at 1; reflexivity|]. split; [lra|].
        intros d [<-|Hd]; [exact H4 | auto].
    + destruct (IH best) as [[H1 H2] [H3|(l1 & l2 & Hl & H4 & H5)]].
      * split; [split; [lra|] | now left].
        intros d [<-|Hd]; [lra | auto].
      * split; [split; [lra|] | right].
        { intros d [<-|Hd]; [lra | auto]. }
        exists (x :: l1), l2. split; [rewrite Hl at 1; reflexivity|]. split; [lra|].
        intros d [<-|Hd]; [lra | auto].
Qed.

(** A static palette returns the color of the stop nearest to the position,
    the first such stop in the palette's order when several are equally near. *)
Theorem static_palette_nearest palettes name pos pal col :
  dict_get name palettes = Some pal -> type pal = "static"%string ->
  get_color_at_position palettes name pos = Returns (Some col) ->
  exists l1 c l2, colors pal = l1 ++ c :: l2 /\ cp_color c = col /\
    (forall d, In d (colors pal) -> Qabs (position c - pos) <= Qabs (position d - pos)) /\
    (forall d, In d l1 -> Qabs (position c - pos) < Qabs (position d - pos)).
Proof.
  intros Hget Hty. unfold get_color_at_position. rewrite Hget, Hty, String.eqb_refl.
  destruct (colors pal) as [|c0 l] eqn:Hc; [discriminate|]. intros [= <-].
  destruct (min_by_distance_spec pos c0 l) as [[H1 H2] [H3|(l1 & l2 & Hl & H4 & H5)]].
  - exists [], (min_by_distance pos c0 l), l. rewrite H3 in *.
    split; [reflexivity|]. split; [reflexivity|]. split; [|simpl; tauto].
    intros d [<-|Hd]; [lra | auto].
  - exists (c0 :: l1), (min_by_distance pos c0 l), l2.
    split; [rewrite Hl at 1; reflexivity|]. split; [reflexivity|]. split.
    + intros d [<-|Hd]; [lra | auto].
    + intros d [<-|Hd]; [exact H4 | auto].
Qed.

Lemma insert_le_sorted c l :
  StronglySorted (fun a b => position a <= position b) l ->
  StronglySorted (fun a b => position a <= position b) (insert_by_position c l).
Proof.
  induction l as [|d l IH]; simpl; intros Hs.
  - repeat constructor.
  - inversion Hs as [|? ? Hs' Hf]; subst.
    destruct (Qle_bool (position c) (position d)) eqn:E.
    + apply Qle_bool_iff in E. constructor; [exact Hs|]. constructor; [exact E|].
      rewrite Forall_forall in *. intros x Hx. specialize (Hf x Hx). lra.
    + assert (E' : position d < position c).
      { apply Qnot_le_lt. intros H. apply Qle_bool_iff in H. congruence. }
      constructor; [auto|]. rewrite Forall_forall in *. intros x Hx.
      apply insert_in in Hx as [->|Hx]; [lra | auto].
Qed.

Lemma sort_le_sorted l :
  StronglySorted (fun a b => position a <= position b) (sort_by_position l).
Proof.
  induction l as [|c l IH]; simpl; [constructor|]. now apply insert_le_sorted.
Qed.

Lemma last_opt_max {A} (R : A -> A -> Prop) l x :
  StronglySorted R l -> last_opt l = Some x -> forall d, In d l -> d = x \/ R d x.
Proof.
  induction l as [|a l IH]; simpl; [discriminate|]. intros Hs Hl d Hd.
  inversion Hs as [|? ? Hs' Hf]; subst.
  destruct l as [|b l'].
  - injection Hl as <-. destruct Hd as [<-|[]]; now left.
  - assert (Hin : In x (b :: l')) by (now apply last_opt_in).
    destruct Hd as [<-|Hd].
    + right. rewrite Forall_forall in Hf. auto.
    + exact (IH Hs' Hl d Hd).
Qed.

Lemma gradient_scan_below pos cs :
  (forall d, In d cs -> pos < position d) -> gradient_scan pos cs = None.
Proof.
  induction cs as [|c1 cs IH]; intros H; [reflexivity|].
  destruct cs as [|c2 cs']; [reflexivity|].
  cbn [gradient_scan].
  assert (E : Qle_bool (position c1) pos = false).
  { destruct (Qle_bool (position c1) pos) eqn:E; [|reflexivity].
    apply Qle_bool_iff in E. specialize (H c1 (or_introl eq_refl)). lra. }
  rewrite E. simpl andb. cbv iota. apply IH. intros d Hd. apply H. now right.
Qed.

Lemma gradient_scan_above pos cs :
  (forall d, In d cs -> position d < pos) -> gradient_scan pos cs = None.
Proof.
  induction cs as [|c1 cs IH]; intros H; [reflexivity|].
  destruct cs as [|c2 cs']; [reflexivity|].
  cbn [gradient_scan].
  assert (E : Qle_bool pos (position c2) = false).
  { destruct (Qle_bool pos (position c2)) eqn:E; [|reflexivity].
    apply Qle_bool_iff in E. specialize (H c2 (or_intror (or_introl eq_refl))). lra. }
  rewrite E, andb_false_r. cbv iota. apply IH. intros d Hd. apply H. now right.
Qed.

(** A gradient palette queried below all of its stops returns the color of
    a lowest stop. *)
Theorem gradient_below_all_stops palettes name pos pal :
  dict_get name palettes = Some pal -> type pal = "gradient"%string ->
  colors pal <> [] -> (forall d, In d (colors pal) -> pos < position d) ->
  exists c, In c (colors pal) /\
    get_color_at_position palettes name pos = Returns (Some (cp_color c)) /\
    (forall d, In d (colors pal) -> position c <= position d).
Proof.
  intros Hget Hty Hne Hbelow. unfold get_color_at_position. rewrite Hget, Hty. cbn -[sort_by_position].
  rewrite gradient_scan_below by (intros d Hd; apply Hbelow; now apply sort_in).
  pose proof (sort_le_sorted (colors pal)) as Hs.
  assert (Hin : forall x, In x (sort_by_position (colors pal)) <-> In x (colors pal)) by (intros x; apply sort_in).
  destruct (sort_by_position (colors pal)) as [|c0 l] eqn:Hsort.
  - destruct (colors pal) as [|x ?]; [congruence|]. exfalso. apply (proj2 (Hin x)). now left.
  - destruct (last_opt_cons c0 l) as [cl Hcl]. rewrite Hcl.
    assert (Hcl_in : In cl (colors pal)) by (apply Hin; now apply last_opt_in).
    assert (E : Qltb (position cl) pos = false).
    { apply Qltb_false_iff. specialize (Hbelow cl Hcl_in). lra. }
    exists c0. rewrite E. split; [apply Hin; now left|]. split; [reflexivity|].
    intros d Hd. apply Hin in Hd. destruct Hd as [<-|Hd]; [lra|].
    inversion Hs as [|? ? _ Hf]; subst. rewrite Forall_forall in Hf. auto.
Qed.

(** A gradient palette queried above all of its stops returns the color of
    a highest stop. *)
Theorem gradient_above_all_stops palettes name pos pal :
  dict_get name palettes = Some pal -> type pal = "gradient"%string ->
  colors pal <> [] -> (forall d, In d (colors pal) -> position d < pos) ->
  exists c, In c (colors pal) /\
    get_color_at_position palettes name pos = Returns (Some (cp_color c)) /\
    (forall d, In d (colors pal) -> position d <= position c).
Proof.
  intros Hget Hty Hne Habove. unfold get_color_at_position. rewrite Hget, Hty. cbn -[sort_by_position].
  rewrite gradient_scan_above by (intros d Hd; apply Habove; now apply sort_in).
  pose proof (sort_le_sorted (colors pal)) as Hs.
  assert (Hin : forall x, In x (sort_by_position (colors pal)) <-> In x (colors pal)) by (intros x; apply sort_in).
  destruct (sort_by_position (colors pal)) as [|c0 l] eqn:Hsort.
  - destruct (colors pal) as [|x ?]; [congruence|]. exfalso. apply (proj2 (Hin x)). now left.
  - destruct (last_opt_cons c0 l) as [cl Hcl]. rewrite Hcl.
    assert (Hcl_in : In cl (colors pal)) by (apply Hin; now apply last_opt_in).
    assert (E : Qltb (position cl) pos = true).
    { apply Qltb_iff. exact (Habove cl Hcl_in). }
    exists cl. rewrite E. split; [exact Hcl_in|]. split; [reflexivity|].
    intros d Hd. apply Hin in Hd.
    destruct (last_opt_max _ _ _ Hs Hcl d Hd) as [->|H]; [lra | exact H].
Qed.

Ltac outcome_solve :=
  repeat split; intros;
  repeat match goal with
         | H : _ \/ _ |- _ => destruct H
         | H : exists _, _ |- _ => destruct H
         | H : _ /\ _ |- _ => destruct H
         | H : Raises _ = Raises _ |- _ => injection H as H
         end;
  try congruence;
  first [ (left; congruence) | (right; congruence)
        | (right; eexists; split; [first [eassumption | reflexivity]|]; split; congruence)
        | (eexists; split; [first [eassumption | reflexivity]|]; split; congruence) ].

(** The outcomes of [get_color_at_position]: [ValueError] for a missing
    palette or an empty static one, [IndexError] for an empty gradient,
    [None] for a palette of another type, and a color otherwise. *)
Theorem get_color_at_position_outcomes palettes name pos :
  (get_color_at_position palettes name pos = Raises ValueError <->
     dict_get name palettes = None \/
     exists pal, dict_get name palettes = Some pal /\
                 type pal = "static"%string /\ colors pal = []) /\
  (get_color_at_position palettes name pos = Raises IndexError <->
     exists pal, dict_get name palettes = Some pal /\
                 type pal = "gradient"%string /\ colors pal = []) /\
  (get_color_at_position palettes name pos = Returns None <->
     exists pal, dict_get name palettes = Some pal /\
                 type pal <> "static"%string /\ type pal <> "gradient"%string) /\
  (forall e, get_color_at_position palettes name pos = Raises e ->
     e = ValueError \/ e = IndexError).
Proof.
  destruct (dict_get name palettes) as [pal|] eqn:Hget.
  2:{ assert (E : get_color_at_position palettes name pos = Raises ValueError)
        by (unfold get_color_at_position; now rewrite Hget).
      rewrite E. outcome_solve. }
  destruct (String.eqb_spec (type pal) "static") as [Hs|Hs];
  [|destruct (String.eqb_spec (type pal) "gradient") as [Hg|Hg]].
  - destruct (colors pal) as [|c l] eqn:Hc.
    + assert (E : get_color_at_position palettes name pos = Raises ValueError)
        by (unfold get_color_at_position; now rewrite Hget, Hs, String.eqb_refl, Hc).
      rewrite E. outcome_solve.
    + assert (E : get_color_at_position palettes name pos =
                  Returns (Some (cp_color (min_by_distance pos c l))))
        by (unfold get_color_at_position; now rewrite Hget, Hs, String.eqb_refl, Hc).
      rewrite E. outcome_solve.
  - destruct (colors pal) as [|c l] eqn:Hc.
    + assert (E : get_color_at_position palettes name pos = Raises IndexError)
        by (unfold get_color_at_position; rewrite Hget, Hg, Hc; reflexivity).
      rewrite E. outcome_solve.
    + destruct (get_color_total palettes name pal pos Hget (or_intror Hg))
        as [col E]; [congruence|].
      rewrite E. outcome_solve.
  - assert (E : get_color_at_position palettes name pos = Returns None).
    { unfold get_color_at_position. rewrite Hget.
      apply String.eqb_neq in Hs, Hg. now rewrite Hs, Hg. }
    rewrite E. outcome_solve.
Qed.

Ltac tw_split :=
  repeat match goal with
  | |- context [match ?x with _ => _ end] =>
      lazymatch x with twinkle_loop _ _ _ _ _ _ _ _ => fail | _ => idtac end;
      let E := fresh "E" in destruct x eqn:E
  end.

Lemma twinkle_init_unit ids states : states_unit states -> states_unit (twinkle_init ids states).
Proof.
  revert states; induction ids as [|id ids IH]; intros states H; simpl; [exact H|].
  apply IH. destruct (dict_get id states); [exact H|].
  intros id' s. destruct (String.eqb_spec id id') as [<-|Hne].
  - rewrite dict_get_set_eq. intros [= <-]. lra.
  - rewrite dict_get_set_ne by exact Hne. apply H.
Qed.

Lemma states_unit_set id v states : 0 <= v <= 1 -> states_unit states -> states_unit (dict_set id v states).
Proof.
  intros Hv H id' s. destruct (String.eqb_spec id id') as [<-|Hne].
  - rewrite dict_get_set_eq. now intros [= <-].
  - rewrite dict_get_set_ne by exact Hne. apply H.
Qed.

Lemma states_unit_set2 id v w states :
  0 <= v <= 1 -> states_unit states -> states_unit (dict_set id v (dict_set id w states)).
Proof.
  intros Hv H id' s. destruct (String.eqb_spec id id') as [<-|Hne].
  - rewrite dict_get_set_eq. now intros [= <-].
  - rewrite !dict_get_set_ne by exact Hne. apply H.
Qed.

Lemma Qle_bool_false a b : Qle_bool a b = false -> b < a.
Proof.
  intros H. apply Qnot_le_lt. intros H'. apply Qle_bool_iff in H'. congruence.
Qed.

Ltac q_facts :=
  repeat match goal with
  | H : Qeq_bool _ _ = true |- _ => apply Qeq_bool_iff in H
  | H : Qeq_bool _ _ = false |- _ => apply Qeq_bool_neq in H
  | H : Qle_bool _ _ = true |- _ => apply Qle_bool_iff in H
  | H : Qle_bool _ _ = false |- _ => apply Qle_bool_false in H
  | H : Qltb _ _ = true |- _ => apply Qltb_iff in H
  | H : Qltb _ _ = false |- _ => apply Qltb_false_iff in H
  end.

Lemma twinkle_loop_unit palettes config sf rnd :
  0 <= sf ->
  forall todo states k upd, states_unit states ->
  states_unit (fst (fst (twinkle_loop palettes config sf rnd todo states k upd))).
Proof.
  intros Hsf todo. induction todo as [|id todo IH]; intros states k upd Hst;
    cbn zeta beta iota delta [twinkle_loop]; fold twinkle_loop; [exact Hst|].
  tw_split; cbn [fst]; q_facts; try exact Hst.
  all: try (pose proof (Hst _ _ E) as Hq).
  all: first [ apply IH | idtac ].
  all: first [ exact Hst | apply states_unit_set2; [lra | exact Hst]
             | apply states_unit_set; [lra | exact Hst] ].
Qed.

Lemma twinkle_loop_keys palettes config sf rnd :
  forall todo states k upd fr,
  snd (twinkle_loop palettes config sf rnd todo states k upd) = Returns fr ->
  forall id, In id todo \/ (exists v, dict_get id upd = Some v) ->
  exists v, dict_get id fr = Some v.
Proof.
  intros todo. induction todo as [|id0 todo IH]; intros states k upd fr;
    cbn zeta beta iota delta [twinkle_loop]; fold twinkle_loop.
  - cbn [snd]. intros [= <-] id [[]|H]. exact H.
  - intros Hrun id Hid. revert Hrun. tw_split; cbn [snd]; intros Hrun; try discriminate.
    all: apply (IH _ _ _ _ Hrun id).
    all: destruct Hid as [[<-|Hin]|Hv];
           [right; eexists; apply dict_get_set_eq | left; exact Hin
           | right; apply dict_get_set_some; exact Hv].
Qed.

Lemma fade_component_byte x a :
  0 <= x <= 1 -> 0 <= a <= 1 -> (0 <= py_int (x * 255 * a) <= 255)%Z.
Proof.
  intros Hx Ha. assert (Hq : 0 <= x * 255 * a <= 255).
  { pose proof (Qmult_le_0_compat x a (proj1 Hx) (proj1 Ha)).
    assert (x * a <= 1).
    { apply Qle_trans with (1 * a); [apply Qmult_le_compat_r; lra | lra]. }
    setoid_replace (x * 255 * a) with (255 * (x * a)) by ring. lra. }
  rewrite py_int_floor by lra. split.
  - exact (Qfloor_resp_le _ _ (proj1 Hq)).
  - exact (Qfloor_resp_le _ _ (proj2 Hq)).
Qed.

Lemma fade_rgb_bytes c st intens :
  color_unit c -> 0 <= st <= 1 -> (0 <= intens <= 100)%Z ->
  rgb_bytes (map (fun x => py_int (x * (st * inject_Z intens / 100)))
               [red c * 255; green c * 255; blue c * 255]).
Proof.
  intros (Hr & Hg & Hb) Hst Hi. assert (HI : 0 <= inject_Z intens <= 100).
  { rewrite (Zle_Qle 0), (Zle_Qle intens 100) in Hi. exact Hi. }
  assert (Ha : 0 <= st * inject_Z intens / 100 <= 1).
  { setoid_replace (st * inject_Z intens / 100) with (st * inject_Z intens * (1 # 100))
      by (field; discriminate). split; nra. }
  split; [reflexivity|]. simpl. repeat constructor; apply fade_component_byte; auto.
Qed.

Lemma twinkle_loop_bytes palettes config sf rnd pal :
  0 <= sf ->
  dict_get (palette_name config) palettes = Some pal -> palette_unit pal ->
  (0 <= intensity config <= 100)%Z ->
  forall todo states k upd fr, states_unit states -> frame_bytes upd ->
  snd (twinkle_loop palettes config sf rnd todo states k upd) = Returns fr ->
  frame_bytes fr.
Proof.
  intros Hsf Hget Hunit Hi todo. induction todo as [|id todo IH]; intros states k upd fr Hst Hupd;
    cbn zeta beta iota delta [twinkle_loop]; fold twinkle_loop.
  - cbn [snd]. now intros [= <-].
  - tw_split; cbn [snd]; q_facts; try discriminate.
    all: pose proof (Hst _ _ E) as Hq.
    all: apply IH; [first [ exact Hst | apply states_unit_set2; [lra | exact Hst]
                          | apply states_unit_set; [lra | exact Hst] ] |].
    all: apply frame_bytes_set; [|exact Hupd].
    + apply scale_rgb_bytes; [|exact Hi]. exact (get_color_unit _ _ _ _ _ Hget Hunit E2).
    + split; [reflexivity|]. repeat constructor; lia.
    + split; [reflexivity|]. repeat constructor; lia.
    + apply fade_rgb_bytes; [exact (get_color_unit _ _ _ _ _ Hget Hunit E2) | lra | exact Hi].
Qed.

Lemma twinkle_init_keys ids states id :
  In id ids \/ (exists s, dict_get id states = Some s) ->
  exists s, dict_get id (twinkle_init ids states) = Some s.
Proof.
  revert states; induction ids as [|id0 ids IH]; intros states H; simpl.
  - destruct H as [[]|H]; exact H.
  - apply IH. destruct H as [[Heq|Hin]|Hs]; [right | now left | right].
    + subst id0. destruct (dict_get id states) as [s|] eqn:E; [now exists s|].
      exists 0. apply dict_get_set_eq.
    + destruct (dict_get id0 states); [exact Hs|]. now apply dict_get_set_some.
Qed.

Lemma twinkle_init_get ids states id s :
  dict_get id states = Some s -> dict_get id (twinkle_init ids states) = Some s.
Proof.
  revert states; induction ids as [|id0 ids IH]; intros states H; simpl; [exact H|].
  apply IH. destruct (dict_get id0 states) eqn:E; [exact H|].
  destruct (String.eqb_spec id0 id) as [<-|Hne]; [congruence|].
  now rewrite dict_get_set_ne.
Qed.

Lemma twinkle_init_new ids states id :
  In id ids -> dict_get id states = None -> dict_get id (twinkle_init ids states) = Some 0.
Proof.
  revert states; induction ids as [|id0 ids IH]; intros states Hin H; [destruct Hin|]. simpl.
  destruct (String.eqb_spec id0 id) as [<-|Hne].
  - rewrite H. apply twinkle_init_get. apply dict_get_set_eq.
  - destruct Hin as [->|Hin]; [congruence|]. apply IH; [exact Hin|].
    destruct (dict_get id0 states); [exact H|]. now rewrite dict_get_set_ne.
Qed.

Lemma twinkle_loop_dark palettes config sf rnd id :
  sf <= 0 -> (forall j, 0 <= rnd j) ->
  forall todo states k upd,
  (exists s, dict_get id states = Some s /\ s == 0) ->
  (dict_get id upd = None \/ dict_get id upd = Some [0; 0; 0]%Z) ->
  let R := twinkle_loop palettes config sf rnd todo states k upd in
  (exists s, dict_get id (fst (fst R)) = Some s /\ s == 0) /\
  (forall fr, snd R = Returns fr -> dict_get id fr = None \/ dict_get id fr = Some [0; 0; 0]%Z).
Proof.
  intros Hsf Hrnd todo. induction todo as [|id0 todo IH]; intros states k upd Hst Hupd;
    cbv zeta; cbn zeta beta iota delta [twinkle_loop]; fold twinkle_loop.
  - cbn [fst snd]. split; [exact Hst|]. now intros fr [= <-].
  - destruct Hst as (s & Hs & Hs0).
    destruct (String.eqb_spec id0 id) as [<-|Hne].
    + rewrite Hs. assert (E0 : Qeq_bool s 0 = true) by now apply Qeq_bool_iff.
      assert (E1 : Qltb (rnd k) ((1 # 10) * sf) = false).
      { apply Qltb_false_iff. pose proof (Hrnd k). lra. }
      rewrite E0, E1. apply IH; [now exists s|]. right. apply dict_get_set_eq.
    + assert (Hst' : forall v st, (exists s, dict_get id (dict_set id0 v st) = Some s /\ s == 0)
                                   <-> (exists s, dict_get id st = Some s /\ s == 0))
        by (intros; now rewrite dict_get_set_ne).
      assert (Hup' : forall v (u : frame), dict_get id (dict_set id0 v u) = dict_get id u)
        by (intros; now rewrite dict_get_set_ne).
      tw_split; cbn [fst snd].
      all: try (split; [rewrite ?Hst'; now exists s | intros fr Hfr; discriminate]).
      all: apply IH; [rewrite ?Hst'; now exists s | rewrite Hup'; exact Hupd].
Qed.

Lemma speed_factor_sign z : (0 <= z)%Z -> 0 <= inject_Z z / 50.
Proof.
  intros H. apply Qle_shift_div_l; [reflexivity|]. rewrite Qmult_0_l.
  change 0 with (inject_Z 0). now rewrite <- Zle_Qle.
Qed.

(** The shared twinkle levels stay in [0, 1] from one frame to the next when
    the speed is non-negative, also when the frame raises midway. *)
Theorem twinkle_states_stay_unit palettes ids config rnd states k :
  (0 <= speed config)%Z -> states_unit states ->
  states_unit (fst (fst (twinkle_generate_frame palettes ids config rnd states k))).
Proof.
  intros Hs Hst. unfold twinkle_generate_frame.
  apply twinkle_loop_unit; [now apply speed_factor_sign | now apply twinkle_init_unit].
Qed.

(** A twinkle frame that completes has an entry for every light of the
    sequence, each with three channels in [0, 255], when the speed is
    non-negative, the levels are in [0, 1], the intensity is in [0, 100] and
    the palette's stops are unit colors. *)
Theorem twinkle_frame_bytes palettes ids config rnd states k pal fr :
  (0 <= speed config)%Z -> states_unit states ->
  dict_get (palette_name config) palettes = Some pal -> palette_unit pal ->
  (0 <= intensity config <= 100)%Z ->
  snd (twinkle_generate_frame palettes ids config rnd states k) = Returns fr ->
  frame_bytes fr /\ forall id, In id ids -> exists v, dict_get id fr = Some v.
Proof.
  intros Hs Hst Hget Hunit Hi Hrun. unfold twinkle_generate_frame in Hrun. split.
  - refine (twinkle_loop_bytes _ _ _ _ _ _ Hget Hunit Hi _ _ _ _ _ _ frame_bytes_nil Hrun).
    + now apply speed_factor_sign.
    + now apply twinkle_init_unit.
  - intros id Hin. exact (twinkle_loop_keys _ _ _ _ _ _ _ _ _ Hrun id (or_introl Hin)).
Qed.

(** With a speed of at most 0 no light starts to twinkle: a light of the
    sequence whose level was 0 or unset keeps the level 0, and a completed
    frame sets it to [0, 0, 0] (random draws are in [0, 1)). *)
Theorem twinkle_no_start_without_speed palettes ids config rnd states k id :
  (speed config <= 0)%Z -> (forall j, 0 <= rnd j < 1) -> In id ids ->
  (dict_get id states = None \/ exists s, dict_get id states = Some s /\ s == 0) ->
  let R := twinkle_generate_frame palettes ids config rnd states k in
  (exists s, dict_get id (fst (fst R)) = Some s /\ s == 0) /\
  (forall fr, snd R = Returns fr -> dict_get id fr = Some [0; 0; 0]%Z).
Proof.
  intros Hs Hrnd Hin Hst. cbv zeta. unfold twinkle_generate_frame.
  assert (Hsf : inject_Z (speed config) / 50 <= 0).
  { apply Qle_shift_div_r; [reflexivity|]. rewrite Qmult_0_l.
    change 0 with (inject_Z 0). now rewrite <- Zle_Qle. }
  assert (H0 : exists s, dict_get id (twinkle_init ids states) = Some s /\ s == 0).
  { destruct Hst as [Hn|(s & Hs' & Hs0)].
    - exists 0. split; [now apply twinkle_init_new | reflexivity].
    - exists s. split; [now apply twinkle_init_get | exact Hs0]. }
  destruct (twinkle_loop_dark palettes config _ rnd id Hsf (fun j => proj1 (Hrnd j))
              ids (twinkle_init ids states) k [] H0 (or_introl eq_refl)) as [H1 H2].
  split; [exact H1|]. intros fr Hfr.
  destruct (H2 fr Hfr) as [Hn|Hz]; [|exact Hz].
  destruct (twinkle_loop_keys _ _ _ _ _ _ _ _ _ Hfr id (or_introl Hin)) as [v Hv]. congruence.
Qed.

Lemma py_contains_In x l : py_contains x l = true <-> In x l.
Proof.
  unfold py_contains. rewrite existsb_exists. split.
  - intros (y & Hy & E). apply String.eqb_eq in E. now subst.
  - intros H. exists x. split; [exact H | apply String.eqb_refl].
Qed.

Lemma parse_state_eid eid j ls : parse_state eid j = Returns ls -> entity_id ls = eid.
Proof.
  unfold parse_state, obind.
  repeat match goal with |- context [match ?x with _ => _ end] => destruct x end;
    try discriminate. now intros [= <-].
Qed.

Lemma fetch_state_spec2 api eid sq k lm r k' lm' :
  fetch_state api eid sq (k, lm) = (r, (k', lm')) ->
  (sequences lm' = sequences lm) /\
  ((forall e, dict_get e (light_states lm) <> None -> dict_get e (light_states lm') <> None)) /\
  forall sq', r = Returns sq' ->
    exists ls, entity_id ls = eid /\
      states sq' = dict_set eid ls (states sq) /\
      light_states lm' = dict_set eid ls (light_states lm) /\
      seq_name sq' = seq_name sq /\ light_ids sq' = light_ids sq /\
      capabilities sq' = capabilities sq.
Proof.
  unfold fetch_state, lm_bind, get_state, lm_lift, lm_ret, lm_modify.
  destruct (api k) as [j|]; [|intros [= <- _ <-]; split; [reflexivity|split; [auto|discriminate]]].
  destruct (parse_state eid j) as [ls|e] eqn:Hp; intros [= <- _ <-];
    (split; [reflexivity|]); [|split; [auto|discriminate]].
  split.
  - intros e He. simpl. destruct (String.eqb_spec eid e) as [<-|Hne].
    + now rewrite dict_get_set_eq.
    + now rewrite dict_get_set_ne.
  - intros sq' [= <-]. exists ls. simpl. repeat split. exact (parse_state_eid _ _ _ Hp).
Qed.

Lemma dict_keys_set_existing {V} (k : string) (v v' : V) (d : dict V) :
  dict_get k d = Some v -> map fst (dict_set k v' d) = map fst d.
Proof.
  induction d as [|[k0 v0] d IH]; simpl; [discriminate|].
  destruct (String.eqb k k0) eqn:E; simpl; [reflexivity|]. intros H. now rewrite IH.
Qed.

Lemma refreshed_from_refl eid sq : ~ In eid (light_ids sq) -> refreshed_from eid sq sq.
Proof. intros H. repeat split; tauto. Qed.

Lemma refresh_spec api eid :
  forall rest k lm r k' lm',
  NoDup (map fst rest) ->
  (forall name sq, In (name, sq) rest -> dict_get name (sequences lm) = Some sq) ->
  refresh_sequences api eid rest (k, lm) = (Returns r, (k', lm')) ->
  map fst (sequences lm') = map fst (sequences lm) /\
  (forall name, ~ In name (map fst rest) ->
     dict_get name (sequences lm') = dict_get name (sequences lm)) /\
  (forall name sq, In (name, sq) rest ->
     exists sq', dict_get name (sequences lm') = Some sq' /\ refreshed_from eid sq sq') /\
  (forall e, dict_get e (light_states lm) <> None -> dict_get e (light_states lm') <> None) /\
  ((exists name sq, In (name, sq) rest /\ In eid (light_ids sq)) ->
     dict_get eid (light_states lm') <> None).
Proof.
  induction rest as [|[name sq] rest IH]; intros k lm r k' lm' Hnd Hin Hrun.
  - simpl in Hrun. injection Hrun as _ _ <-.
    repeat split; auto; [intros name sq [] | intros (? & ? & [] & _)].
  - simpl in Hnd. inversion Hnd as [|? ? Hnin Hnd']; subst.
    assert (Hsq : dict_get name (sequences lm) = Some sq) by (apply Hin; now left).
    assert (Hrest : forall n s, In (n, s) rest -> n <> name).
    { intros n s Hns ->. apply Hnin. now apply (in_map fst) in Hns. }
    cbn [refresh_sequences] in Hrun.
    destruct (py_contains eid (light_ids sq)) eqn:Hc.
    + apply py_contains_In in Hc.
      unfold lm_bind at 1 in Hrun.
      destruct (fetch_state api eid sq (k, lm)) as [r1 [k1 lm1]] eqn:Hf.
      apply fetch_state_spec2 in Hf as (Hs1 & Hl1 & Hr1).
      destruct r1 as [sq1|e]; [|discriminate].
      destruct (Hr1 sq1 eq_refl) as (ls & Hid & Hst & Hls & Hn & Hids & Hcaps).
      unfold lm_bind, lm_modify in Hrun.
      set (lm2 := mkLightManager (dict_set name sq1 (sequences lm1)) (light_states lm1)) in Hrun.
      assert (Hget2 : forall n, n <> name -> dict_get n (sequences lm2) = dict_get n (sequences lm)).
      { intros n Hne. simpl. rewrite Hs1. apply dict_get_set_ne. congruence. }
      destruct (IH _ _ _ _ _ Hnd' ltac:(intros n s Hns; rewrite Hget2 by (eapply Hrest; eauto);
                                        apply Hin; now right) Hrun)
        as (K & G & R & L & E).
      split; [|split; [|split; [|split]]].
      * rewrite K. simpl. rewrite Hs1. exact (dict_keys_set_existing _ _ _ _ Hsq).
      * intros n Hn'. rewrite G by (intros H; apply Hn'; now right).
        apply Hget2. intros ->. apply Hn'. now left.
      * intros n s [Heq|Hns].
        -- injection Heq as <- <-. exists sq1. split.
           ++ rewrite G by exact Hnin. simpl. apply dict_get_set_eq.
           ++ repeat split; auto.
              ** intros e He. rewrite Hst. apply dict_get_set_ne. congruence.
              ** intros _. exists ls. rewrite Hst. split; [apply dict_get_set_eq | exact Hid].
        -- exact (R n s Hns).
      * intros e He. apply L. simpl. now apply Hl1.
      * intros _. apply L. simpl. rewrite Hls, dict_get_set_eq. discriminate.
    + assert (Hc' : ~ In eid (light_ids sq)).
      { intros H. apply py_contains_In in H. congruence. }
      destruct (IH _ _ _ _ _ Hnd' ltac:(intros n s Hns; apply Hin; now right) Hrun)
        as (K & G & R & L & E).
      split; [exact K|split; [|split; [|split; [exact L|]]]].
      * intros n Hn'. apply G. intros H; apply Hn'; now right.
      * intros n s [Heq|Hns].
        -- injection Heq as <- <-. exists sq. split; [rewrite G by exact Hnin; exact Hsq|].
           now apply refreshed_from_refl.
        -- exact (R n s Hns).
      * intros (n & s & [Heq|Hns] & Hes).
        -- injection Heq as <- <-. contradiction.
        -- apply E. now exists n, s.
Qed.

Lemma dict_get_in_nodup {V} (k : string) (v : V) (d : dict V) :
  NoDup (map fst d) -> In (k, v) d -> dict_get k d = Some v.
Proof.
  induction d as [|[k0 v0] d IH]; simpl; [tauto|]. intros Hnd Hin.
  inversion Hnd as [|? ? Hnin Hnd']; subst.
  destruct Hin as [[= <- <-]|Hin].
  - now rewrite String.eqb_refl.
  - destruct (String.eqb_spec k k0) as [->|Hne]; [|auto].
    exfalso. apply Hnin. now apply (in_map fst) in Hin.
Qed.

(** When [update_light] returns, the set of sequence names is unchanged, every
    sequence keeps its name, lights and capabilities and the states of its
    other lights, and every sequence listing the light, and [light_states],
    hold a fresh state for it. *)
Theorem update_light_refreshes api ok eid k lm r k' lm' :
  NoDup (map fst (sequences lm)) ->
  update_light api ok eid (k, lm) = (Returns r, (k', lm')) ->
  map fst (sequences lm') = map fst (sequences lm) /\
  (forall name sq, dict_get name (sequences lm) = Some sq ->
     exists sq', dict_get name (sequences lm') = Some sq' /\ refreshed_from eid sq sq') /\
  ((exists name sq, dict_get name (sequences lm) = Some sq /\ In eid (light_ids sq)) ->
     dict_get eid (light_states lm') <> None).
Proof.
  intros Hnd Hrun. unfold update_light, lm_bind at 1 in Hrun.
  destruct ok; [|discriminate]. cbn in Hrun.
  destruct (refresh_spec api eid (sequences lm) k lm r k' lm' Hnd
              (fun n s H => dict_get_in_nodup _ _ _ Hnd H) Hrun) as (K & _ & R & _ & E).
  split; [exact K|split].
  - intros name sq Hget. apply R. now apply dict_get_in.
  - intros (n & s & Hget & Hin). apply E. exists n, s. split; [now apply dict_get_in | exact Hin].
Qed.

Lemma py_getitem_not_cancelled k o : py_getitem k o <> Raises CancelledError.
Proof.
  destruct o; simpl; try discriminate. destruct (dict_get k fields); discriminate.
Qed.

Lemma setup_entry_named create sc v s :
  (forall n l c s, fst (create n l c s) <> Raises CancelledError) ->
  py_getitem "name" sc = Returns v ->
  fst (setup_entry create sc s) = Returns tt.
Proof.
  intros Hc Hn. unfold setup_entry, lm_try, lm_bind, lm_lift, lm_ret. rewrite Hn.
  destruct (py_getitem "lights" sc) as [l|e] eqn:Hl.
  - specialize (Hc v l sc s). destruct (create v l sc s) as [[[]|[]] s']; simpl in *;
      try reflexivity; try congruence; now rewrite Hn.
  - destruct e; simpl; try reflexivity; try (now rewrite Hn).
    exfalso. eapply py_getitem_not_cancelled; eassumption.
Qed.

(** An entry of the [sequences] option whose ['name'] cannot be read makes
    the [except] handler of [setup] raise again: setup stops there with that
    error, after the earlier entries, and the later entries are never set up. *)
Theorem setup_aborts_at_nameless_entry create pre bad post s e :
  (forall n l c s, fst (create n l c s) <> Raises CancelledError) ->
  Forall (fun sc => exists v, py_getitem "name" sc = Returns v) pre ->
  py_getitem "name" bad = Raises e ->
  fst (setup_loop create pre s) = Returns tt /\
  setup_loop create (pre ++ bad :: post) s = (Raises e, snd (setup_loop create pre s)).
Proof.
  intros Hc Hpre Hbad. revert s. induction Hpre as [|sc pre [v Hv] Hpre IH]; intros s.
  - simpl. split; [reflexivity|].
    unfold lm_bind at 1, setup_entry, lm_try, lm_bind, lm_lift. rewrite Hbad.
    destruct e; reflexivity.
  - simpl. unfold lm_bind.
    pose proof (setup_entry_named create sc v s Hc Hv) as H1.
    destruct (setup_entry create sc s) as [[[]|e'] s'] eqn:E; [apply IH | discriminate].
Qed.

(** An entry with a ['name'] whose ['lights'] cannot be read is logged and
    skipped: setup goes on with the next entry from the same state. *)
Theorem setup_skips_entry_without_lights create sc rest s v e :
  py_getitem "name" sc = Returns v -> py_getitem "lights" sc = Raises e ->
  setup_loop create (sc :: rest) s = setup_loop create rest s.
Proof.
  intros Hn Hl. simpl. unfold lm_bind at 1, setup_entry, lm_try, lm_bind, lm_lift, lm_ret.
  rewrite Hn, Hl. destruct e; try reflexivity; try (now rewrite Hn).
  exfalso. eapply py_getitem_not_cancelled; eassumption.
Qed.

Lemma py_in_list_In key l :
  py_in key (JList l) = Returns true <-> In (JStr key) l.
Proof.
  simpl. split.
  - intros H. injection H as H. apply existsb_exists in H as (j & Hj & E).
    destruct j; try discriminate. apply String.eqb_eq in E. now subst.
  - intros H. f_equal. apply existsb_exists. exists (JStr key). split; [exact H | apply String.eqb_refl].
Qed.

Lemma py_in_list_bool key l : exists b, py_in key (JList l) = Returns b.
Proof. now eexists. Qed.

Lemma py_in_obj key a :
  py_in key (JObj a) = Returns (match dict_get key a with Some _ => true | None => false end).
Proof. reflexivity. Qed.

(** For a state whose ['attributes'] is a dict with a list of
    ['supported_color_modes'], [_fetch_capabilities] builds capabilities
    whose color flags tell whether the list holds the exact strings
    ["rgb_color"], ["rgbw"], ["rgbww"] and ["color_temp"], and whose
    transition and brightness flags tell whether the attribute is present. *)
Theorem parse_capabilities_flags f a l :
  dict_get "attributes" f = Some (JObj a) ->
  dict_get "supported_color_modes" a = Some (JList l) ->
  exists caps, parse_capabilities (JObj f) = Returns caps /\
    (supports_rgb caps = true <-> In (JStr "rgb_color") l) /\
    (supports_rgbw caps = true <-> In (JStr "rgbw") l) /\
    (supports_rgbww caps = true <-> In (JStr "rgbww") l) /\
    (supports_color_temp caps = true <-> In (JStr "color_temp") l) /\
    (supports_transition caps = true <-> dict_get "transition" a <> None) /\
    (supports_brightness caps = true <-> dict_get "brightness" a <> None).
Proof.
  intros Ha Hm. unfold parse_capabilities. cbn [py_get]. rewrite Ha. cbn [obind py_get].
  rewrite Hm. cbn [obind].
  destruct (py_in_list_bool "rgb_color" l) as [b1 E1]. rewrite E1. cbn [obind].
  destruct (py_in_list_bool "rgbw" l) as [b2 E2]. rewrite E2. cbn [obind].
  destruct (py_in_list_bool "rgbww" l) as [b3 E3]. rewrite E3. cbn [obind].
  destruct (py_in_list_bool "color_temp" l) as [b4 E4]. rewrite E4. cbn [obind].
  rewrite !py_in_obj. cbn [obind].
  eexists; split; [reflexivity|]. cbn [supports_rgb supports_rgbw supports_rgbww
    supports_color_temp supports_transition supports_brightness].
  rewrite <- (py_in_list_In "rgb_color"), <- (py_in_list_In "rgbw"),
    <- (py_in_list_In "rgbww"), <- (py_in_list_In "color_temp"), E1, E2, E3, E4.
  repeat split; try (intros H; now injection H); try (intros ->; reflexivity);
    destruct (dict_get "transition" a), (dict_get "brightness" a); intuition congruence.
Qed.

(** A light whose ['rgb_color'] attribute is not iterable (as [null]) makes
    [_fetch_state] raise [TypeError] from [tuple(...)]: neither the sequence
    nor [light_states] gets a state for it. *)
Theorem fetch_state_non_iterable_color api eid sq k lm f a j :
  api k = Some (JObj f) ->
  dict_get "attributes" f = Some (JObj a) ->
  dict_get "rgb_color" a = Some j ->
  (j = JNull \/ (exists b, j = JBool b) \/ (exists q, j = JNum q)) ->
  fetch_state api eid sq (k, lm) = (Raises TypeError, (S k, lm)).
Proof.
  intros Hk Ha Hc Hj. unfold fetch_state, lm_bind, get_state, lm_lift. rewrite Hk.
  unfold parse_state, opt_tuple. cbn [py_get obind]. rewrite Ha. cbn [obind py_get py_in].
  rewrite Hc. cbn [obind]. destruct (dict_get "brightness" a); cbn [obind];
  destruct Hj as [->|[[b ->]|[q ->]]]; reflexivity.
Qed.

(** [_interpolate_hue] of two hues in [0, 1] at a ratio in [0, 1] is in
    [0, 1] (the value 1 included). *)
Theorem interpolate_hue_range h1 h2 ratio :
  0 <= h1 <= 1 -> 0 <= h2 <= 1 -> 0 <= ratio <= 1 ->
  0 <= interpolate_hue h1 h2 ratio <= 1.
Proof. exact (interpolate_hue_bounds h1 h2 ratio). Qed.

(** [get_color_at_position] only returns unit colors from a palette whose
    stops are all unit colors. *)
Theorem get_color_at_position_unit palettes name pos pal c :
  dict_get name palettes = Some pal -> palette_unit pal ->
  get_color_at_position palettes name pos = Returns (Some c) -> color_unit c.
Proof. exact (get_color_unit palettes name pos pal c). Qed.

(** ** Witnesses *)

Local Open Scope string_scope.

Ltac qdec := first [ apply Qle_bool_iff; vm_compute; reflexivity | vm_compute; reflexivity ].

Lemma rainbow_unit : palette_unit rainbow.
Proof. unfold palette_unit. repeat constructor; qdec. Qed.

Lemma rgb_to_rgbww_cold_monotone_witness :
  let '(_, _, _, cw1, _) := rgb_to_rgbww (100, 200, 150)%Z 3000 in
  let '(_, _, _, cw2, _) := rgb_to_rgbww (100, 200, 150)%Z 5000 in
  (cw1 <= cw2)%Z.
Proof. apply (rgb_to_rgbww_cold_monotone 100 200 150 3000 5000); lia. Defined.

Lemma interpolate_hue_range_witness :
  0 <= interpolate_hue (1 # 10) (9 # 10) (1 # 2) <= 1.
Proof. apply interpolate_hue_range; split; qdec. Defined.

Lemma get_color_at_position_unit_witness :
  color_unit (color_or_red (get_color_at_position default_palettes "rainbow" 25)).
Proof.
  apply (get_color_at_position_unit default_palettes "rainbow" 25 rainbow);
    [reflexivity | exact rainbow_unit | vm_compute; reflexivity].
Defined.

Lemma static_palette_nearest_witness :
  exists l1 c l2, colors static_demo = (l1 ++ c :: l2)%list /\
    cp_color c = color_or_red (get_color_at_position [("demo"%string, static_demo)] "demo" 50) /\
    (forall d, In d (colors static_demo) -> Qabs (position c - 50) <= Qabs (position d - 50)) /\
    (forall d, In d l1 -> Qabs (position c - 50) < Qabs (position d - 50)).
Proof.
  apply (static_palette_nearest [("demo"%string, static_demo)] "demo" 50 static_demo);
    [reflexivity | reflexivity | vm_compute; reflexivity].
Defined.

Lemma gradient_below_all_stops_witness :
  exists c, In c (colors rainbow) /\
    get_color_at_position default_palettes "rainbow" (-5) = Returns (Some (cp_color c)) /\
    (forall d, In d (colors rainbow) -> position c <= position d).
Proof.
  apply (gradient_below_all_stops default_palettes "rainbow" (-5) rainbow);
    [reflexivity | reflexivity | discriminate |].
  intros d Hd. simpl in Hd. repeat (destruct Hd as [<-|Hd]; [qdec|]). destruct Hd.
Defined.

Lemma gradient_above_all_stops_witness :
  exists c, In c (colors rainbow) /\
    get_color_at_position default_palettes "rainbow" 105 = Returns (Some (cp_color c)) /\
    (forall d, In d (colors rainbow) -> position d <= position c).
Proof.
  apply (gradient_above_all_stops default_palettes "rainbow" 105 rainbow);
    [reflexivity | reflexivity | discriminate |].
  intros d Hd. simpl in Hd. repeat (destruct Hd as [<-|Hd]; [qdec|]). destruct Hd.
Defined.

Lemma rainbow_frame_bytes_witness :
  frame_bytes (out_frame (rainbow_generate_frame default_palettes ["a"; "b"; "c"] default_config 1)).
Proof.
  apply (rainbow_frame_bytes default_palettes ["a"; "b"; "c"] default_config 1 rainbow);
    [reflexivity | exact rainbow_unit | simpl; lia | vm_compute; reflexivity].
Defined.

Lemma wipe_frame_bytes_witness :
  frame_bytes (out_frame (wipe_generate_frame default_palettes ["a"; "b"; "c"] default_config 1)).
Proof.
  apply (wipe_frame_bytes default_palettes ["a"; "b"; "c"] default_config 1 rainbow);
    [reflexivity | exact rainbow_unit | simpl; lia | vm_compute; reflexivity].
Defined.

Lemma twinkle_states_stay_unit_witness :
  states_unit (fst (fst (twinkle_generate_frame default_palettes ["a"; "b"] default_config
                           twinkle_draws [("b"%string, 1 # 2)] 0))).
Proof.
  apply twinkle_states_stay_unit; [simpl; lia|].
  intros id s. simpl. destruct (String.eqb id "b"); [intros [= <-]; split; qdec | discriminate].
Defined.

Lemma twinkle_frame_bytes_witness :
  frame_bytes (out_frame (snd (twinkle_generate_frame default_palettes ["a"; "b"] default_config
                                 twinkle_draws [("b"%string, 1 # 2)] 0))) /\
  forall id, In id ["a"; "b"]%string ->
    exists v, dict_get id (out_frame (snd (twinkle_generate_frame default_palettes ["a"; "b"]
                 default_config twinkle_draws [("b"%string, 1 # 2)] 0))) = Some v.
Proof.
  apply (twinkle_frame_bytes default_palettes ["a"; "b"] default_config twinkle_draws
           [("b"%string, 1 # 2)] 0 rainbow);
    [simpl; lia | | reflexivity | exact rainbow_unit | simpl; lia | vm_compute; reflexivity].
  intros id s. simpl. destruct (String.eqb id "b"); [intros [= <-]; split; qdec | discriminate].
Defined.

Lemma twinkle_no_start_without_speed_witness :
  let R := twinkle_generate_frame default_palettes ["a"; "b"]
             (mkEffectConfig 0 100 "rainbow" false false) (fun _ => 0) [] 0 in
  (exists s, dict_get "a" (fst (fst R)) = Some s /\ s == 0) /\
  (forall fr, snd R = Returns fr -> dict_get "a" fr = Some [0; 0; 0]%Z).
Proof.
  apply twinkle_no_start_without_speed;
    [simpl; lia | intros j; split; qdec | now left | now left].
Defined.

Lemma update_light_refreshes_witness :
  let R := update_light demo_state_api true "a" (0%nat, demo_manager) in
  map fst (sequences (snd (snd R))) = map fst (sequences demo_manager) /\
  (forall name sq, dict_get name (sequences demo_manager) = Some sq ->
     exists sq', dict_get name (sequences (snd (snd R))) = Some sq' /\ refreshed_from "a" sq sq') /\
  ((exists name sq, dict_get name (sequences demo_manager) = Some sq /\ In "a"%string (light_ids sq)) ->
     dict_get "a" (light_states (snd (snd R))) <> None).
Proof.
  apply (update_light_refreshes demo_state_api true "a" 0 demo_manager tt
           (fst (snd (update_light demo_state_api true "a" (0%nat, demo_manager))))).
  - simpl. repeat constructor; simpl; intuition discriminate.
  - vm_compute. reflexivity.
Defined.

Lemma setup_aborts_at_nameless_entry_witness :
  let create := fun (_ _ _ : json) => lm_ret tt in
  let s := (0%nat, mkLightManager [] []) in
  fst (setup_loop create [JObj [("name"%string, JStr "s1"); ("lights"%string, JList [])]] s) = Returns tt /\
  setup_loop create ([JObj [("name"%string, JStr "s1"); ("lights"%string, JList [])]] ++
                     JObj [("lights"%string, JList [])] :: [JObj [("name"%string, JStr "s2")]])%list s =
    (Raises KeyError,
     snd (setup_loop create [JObj [("name"%string, JStr "s1"); ("lights"%string, JList [])]] s)).
Proof.
  apply setup_aborts_at_nameless_entry.
  - intros n l c s. discriminate.
  - repeat constructor. eexists; reflexivity.
  - reflexivity.
Defined.

Lemma setup_skips_entry_without_lights_witness :
  setup_loop (fun _ _ _ => lm_ret tt) [JObj [("name"%string, JStr "s1")]; JObj [("name"%string, JStr "s2")]]
    (0%nat, mkLightManager [] []) =
  setup_loop (fun _ _ _ => lm_ret tt) [JObj [("name"%string, JStr "s2")]] (0%nat, mkLightManager [] []).
Proof.
  apply (setup_skips_entry_without_lights _ _ _ _ (JStr "s1") KeyError); reflexivity.
Defined.

Lemma parse_capabilities_flags_witness :
  let a := [("supported_color_modes"%string, JList [JStr "rgb"; JStr "color_temp"]);
            ("brightness"%string, JNum 255)] in
  let l := [JStr "rgb"; JStr "color_temp"] in
  exists caps, parse_capabilities (JObj [("attributes"%string, JObj a)]) = Returns caps /\
    (supports_rgb caps = true <-> In (JStr "rgb_color") l) /\
    (supports_rgbw caps = true <-> In (JStr "rgbw") l) /\
    (supports_rgbww caps = true <-> In (JStr "rgbww") l) /\
    (supports_color_temp caps = true <-> In (JStr "color_temp") l) /\
    (supports_transition caps = true <-> dict_get "transition" a <> None) /\
    (supports_brightness caps = true <-> dict_get "brightness" a <> None).
Proof. apply parse_capabilities_flags; reflexivity. Defined.

Lemma fetch_state_non_iterable_color_witness :
  fetch_state (fun _ => Some (JObj [("state"%string, JStr "off");
                                    ("attributes"%string, JObj [("rgb_color"%string, JNull)])]))
    "a" (new_sequence "s" ["a"]) (0%nat, mkLightManager [] []) =
  (Raises TypeError, (1%nat, mkLightManager [] [])).
Proof.
  apply (fetch_state_non_iterable_color _ _ _ _ _
           [("state"%string, JStr "off"); ("attributes"%string, JObj [("rgb_color"%string, JNull)])]
           [("rgb_color"%string, JNull)] JNull); [reflexivity | reflexivity | reflexivity | now left].
Defined.
